(** * arkGachaSimulator: the simulation core, embedded and verified

    Sources embedded here:
    - [gacha.ts] (the single-trial pity algorithm, the weighted selector,
      the trial runner, the array interface of repeated runs and the
      statistics computed from arrays) and its copy in the worker script
      [simulation-worker.js];
    - [gpuManager.ts] (the probability lookup table, the batch sizes, the
      difference kernel and its host-side decoding);
    - [workerManager.ts] (worker-pool scheduler, GPU switch and driver
      loop, streaming aggregator and summary statistics).

    Conventions.  JavaScript numbers that hold draw counts are [Z]; counters
    that only ever count up from zero are [nat]; every fractional quantity
    (weights, probabilities, [Math.random()] values, means) is an exact
    rational [Q].  Rounding of IEEE doubles and of [Float32Array] cells is
    not part of the model; a number the GPU kernel reads is taken as it is
    stored, so it ranges over [[0, 1]].  An object with string keys is the
    list of its entries in the order [Object.keys] enumerates them (array
    indices first, ascending, then the other names in creation order); an
    object used as a counter table is a finite map.  [Math.random()] is an
    explicit list of rationals consumed left to right; a computation that
    needs more random numbers than the list holds has no result ([None]). *)

From Stdlib Require Import ZArith QArith Qround Qminmax Lia Permutation Sorted
  Ascii.
From stdpp Require Import base option list gmap strings fin_maps.

Local Open Scope Z_scope.

(** ** Random numbers *)

(** One value returned by [Math.random()]. *)
Definition unitInterval (r : Q) : Prop := (0 <= r)%Q /\ (r < 1)%Q.

(** [Math.floor(Math.random() * 100) + 1] *)
Definition chuhuoOf (r : Q) : Z := Qfloor (r * 100) + 1.

(** ** The pity trial algorithm ([gatcha]) *)

Module Pity.

(** The second loop of [gatcha]: [while (true) { currentProb += 2; ... }].
    One random number is consumed per iteration. *)
Fixpoint softPityLoop (basePity xunfang currentProb : Z) (rs : list Q)
  : option (Z * list Q) :=
  match rs with
  | [] => None
  | r :: rs' =>
      let currentProb := currentProb + 2 in
      let chuhuo := chuhuoOf r in
      if chuhuo <=? currentProb then Some (xunfang - basePity, rs')
      else softPityLoop basePity (xunfang + 1) currentProb rs'
  end.

(** The first loop of [gatcha]: [while (xunfang < 50) { ... }], falling
    through to the second loop when the guard fails. *)
Fixpoint flatLoop (basePity xunfang currentProb : Z) (rs : list Q)
  : option (Z * list Q) :=
  if xunfang <? 50 then
    match rs with
    | [] => None
    | r :: rs' =>
        let chuhuo := chuhuoOf r in
        let xunfang := xunfang + 1 in
        if chuhuo <=? currentProb then Some (xunfang - basePity, rs')
        else flatLoop basePity xunfang currentProb rs'
    end
  else softPityLoop basePity xunfang currentProb rs.

(** [gatcha(basePity)]: the returned pair is the function's result and the
    random numbers it did not consume. *)
Definition gatcha (basePity : Z) (rs : list Q) : option (Z * list Q) :=
  let xunfang := basePity in
  let currentProb := if basePity <? 50 then 2 else 2 + (basePity - 50) * 2 in
  flatLoop basePity xunfang currentProb rs.

End Pity.

(** ** JavaScript objects ([Object.fromEntries], [Object.keys])

    An object with string keys is held as the list of its properties in
    the order [Object.keys] and [Object.entries] enumerate them. *)

Module JSObject.

(** The value of a decimal digit. *)
Definition digitValue (c : ascii) : option N :=
  let code := N_of_ascii c in
  if ((48 <=? code) && (code <=? 57))%N then Some (code - 48)%N else None.

(** The value of a string of decimal digits, read after the digits that
    gave [acc]. *)
Fixpoint numeralValue (acc : N) (s : string) : option N :=
  match s with
  | EmptyString => Some acc
  | String c s' =>
      match digitValue c with
      | Some d => numeralValue (10 * acc + d)%N s'
      | None => None
      end
  end.

(** [name] as an array index: the canonical decimal numeral (no sign, no
    leading zero) of an integer below [2^32 - 1]. *)
Definition arrayIndex (name : string) : option N :=
  match name with
  | EmptyString => None
  | String c rest =>
      if Ascii.eqb c "0" && negb (String.eqb rest "") then None
      else
        match numeralValue 0 name with
        | Some n => if (n <? 4294967295)%N then Some n else None
        | None => None
        end
  end.

Section Properties.
Context {V : Type}.

(** [obj[key] = value]: a property the object has keeps its place, a new
    one is created after the others. *)
Fixpoint setProperty (key : string) (value : V) (obj : list (string * V))
  : list (string * V) :=
  match obj with
  | [] => [(key, value)]
  | (k, v) :: rest =>
      if String.eqb k key then (k, value) :: rest
      else (k, v) :: setProperty key value rest
  end.

(** The properties whose name is an array index, each with its index. *)
Definition indexedProperties (obj : list (string * V))
  : list (N * (string * V)) :=
  omap (fun p => (fun i => (i, p)) <$> arrayIndex p.1) obj.

Fixpoint insertByIndex (p : N * (string * V)) (l : list (N * (string * V)))
  : list (N * (string * V)) :=
  match l with
  | [] => [p]
  | h :: t =>
      if (p.1 <=? h.1)%N then p :: h :: t else h :: insertByIndex p t
  end.

(** The order in which [Object.keys] and [Object.entries] enumerate the
    properties of an object created in the order [obj]: the array indices
    in ascending numeric order, then the other names in creation order. *)
Definition ownEntries (obj : list (string * V)) : list (string * V) :=
  map snd (foldr insertByIndex [] (indexedProperties obj))
  ++ filter (fun p => arrayIndex p.1 = None) obj.

(** [Object.fromEntries(entries)], as the list of the entries the new
    object enumerates. *)
Definition fromEntries (entries : list (string * V)) : list (string * V) :=
  ownEntries (foldl (fun obj p => setProperty p.1 p.2 obj) [] entries).

End Properties.

End JSObject.

(** ** The weighted selector and the trial runner ([gacha.ts]) *)

(** One entry of the caller's configuration object:
    [{ weight: number, target: number }]. *)
Record OperatorEntry := { weight : Q; target : nat }.

(** The configuration object [{ [name]: { weight, target } }], as the
    list of its entries in the order [Object.keys] enumerates them: names
    that are array indices first, in ascending numeric order, then the
    other names in insertion order. *)
Abbreviation OperatorConfig := (list (string * OperatorEntry)).

(** [statistic[op]]; every key read by the code was initialised to 0. *)
Definition countOf (statistic : gmap string nat) (op : string) : nat :=
  default 0%nat (statistic !! op).

(** [{ total, statistic, details: [] }] (the [details] array is always
    empty). *)
Record SimulationResult := { total : Z; statistic : gmap string nat }.

Module Gacha.

(** The [for] loop of [weightedChoice]. *)
Fixpoint weightedWalk {T} (items : list T) (weights : list Q) (random : Q)
  : option T :=
  match items, weights with
  | it :: items', w :: weights' =>
      let random := (random - w)%Q in
      if Qle_bool random 0 then Some it else weightedWalk items' weights' random
  | _, _ => None
  end.

(** [weightedChoice(items, weights)], with [r] the value of
    [Math.random()].  [None] is JavaScript's [undefined], the value of
    [items[items.length - 1]] on an empty array. *)
Definition weightedChoice {T} (items : list T) (weights : list Q) (r : Q)
  : option T :=
  let totalWeight := foldl (fun sum weight => (sum + weight)%Q) 0%Q weights in
  let random := (r * totalWeight)%Q in
  match weightedWalk items weights random with
  | Some it => Some it
  | None => last items
  end.

(** [checkCompletion()] *)
Definition checkCompletion (operatorConfig : OperatorConfig)
    (statistic : gmap string nat) : bool :=
  forallb (fun '(op, e) =>
             (target e =? 0)%nat || (target e <=? countOf statistic op)%nat)
          operatorConfig.

(** [operators.forEach(op => { statistic[op] = 0; })] *)
Definition initStatistic (operators : list string) : gmap string nat :=
  foldl (fun st op => <[op := 0%nat]> st) ∅ operators.

(** [while (!checkCompletion()) { ... }].  Every iteration consumes at
    least two random numbers, so [fuel] is taken to be the number of random
    numbers supplied. *)
Fixpoint drawLoop (fuel : nat) (operatorConfig : OperatorConfig)
    (operators : list string) (weights : list Q)
    (total : Z) (currentPity : Z) (statistic : gmap string nat)
    (rs : list Q) : option SimulationResult :=
  if checkCompletion operatorConfig statistic then
    Some {| total := total; statistic := statistic |}
  else
    match fuel with
    | O => None
    | S fuel' =>
        match Pity.gatcha currentPity rs with
        | None => None
        | Some (drawsThisRound, rs1) =>
            let total := total + drawsThisRound in
            let currentPity := 0 in
            match rs1 with
            | [] => None
            | r :: rs2 =>
                let statistic :=
                  match weightedChoice operators weights r with
                  | Some selectedOperator =>
                      <[selectedOperator := S (countOf statistic selectedOperator)]>
                        statistic
                  | None => statistic
                  end in
                drawLoop fuel' operatorConfig operators weights
                         total currentPity statistic rs2
            end
        end
    end.

(** The body of [chouShuTongJi] once the configuration is known. *)
Definition runTrial (operatorConfig : OperatorConfig) (basePity : Z)
    (rs : list Q) : option SimulationResult :=
  let operators := map fst operatorConfig in
  let weights := map (fun oe => weight (snd oe)) operatorConfig in
  drawLoop (length rs) operatorConfig operators weights
           0 basePity (initStatistic operators) rs.

(** The default configuration of [gacha.ts]. *)
Definition defaultConfig : OperatorConfig :=
  [("海猫"%string, {| weight := 1; target := 99 |})].

(** [chouShuTongJi(operatorConfig?, basePity)] of [gacha.ts]: a missing
    configuration is replaced by the default one. *)
Definition chouShuTongJi (operatorConfig : option OperatorConfig)
    (basePity : Z) (rs : list Q) : option SimulationResult :=
  runTrial (default defaultConfig operatorConfig) basePity rs.

End Gacha.

(** ** The worker script ([simulation-worker.js]) *)

(** [result] of a [complete] message. *)
Record SingleSimulationResult :=
  { totalDraws : Z; characterCounts : gmap string nat }.

(** The two messages a worker posts. *)
Inductive WorkerMessage :=
| Complete (workerId : nat) (result : SingleSimulationResult)
| Error (error : string).

Module SimulationWorker.

(** [chouShuTongJi(operatorConfig, basePity)] of the worker script: its
    [gatcha], [weightedChoice] and loop are textually those of [gacha.ts];
    an empty configuration throws instead. *)
Definition chouShuTongJi (operatorConfig : OperatorConfig) (basePity : Z)
    (rs : list Q) : option (string + SimulationResult) :=
  match operatorConfig with
  | [] => Some (inl "干员配置不能为空"%string)
  | _ => inr <$> Gacha.runTrial operatorConfig basePity rs
  end.

(** [self.onmessage]: one simulation, then exactly one message.  [None]
    means the simulation has not finished with the random numbers
    supplied. *)
Definition onmessage (operatorConfig : OperatorConfig) (basePity : Z)
    (workerId : nat) (rs : list Q) : option WorkerMessage :=
  match chouShuTongJi operatorConfig basePity rs with
  | None => None
  | Some (inl error) => Some (Error error)
  | Some (inr result) =>
      Some (Complete workerId
              {| totalDraws := total result;
                 characterCounts := statistic result |})
  end.

End SimulationWorker.

(** ** The batched kernel path ([gpuManager.ts]) *)

(** [{ name, weight }], an element of [OperatorConfig.operators]. *)
Record OperatorInfo := { opName : string; opWeight : Q }.

(** The [OperatorConfig] interface of [gpuManager.ts]. *)
Record GPUOperatorConfig :=
  { operators : list OperatorInfo; maxDraws : Z; gpuBasePity : Z }.

(** [ProbabilityLookupTable] *)
Record ProbabilityLookupTable :=
  { gachaTable : list Q; operatorWeights : list Q;
    maxPity : nat; operatorCount : nat }.

(** One decoded lane: [{ name, draws }]. *)
Record LaneResult := { laneName : string; laneDraws : Z }.

Module GPUManager.

(** Writing a number into a cell of a typed array.  The cell keeps the
    exact rational, in lowest terms (the rounding to single precision is
    not modelled); [Qred] does not change the number denoted. *)
Definition cell (q : Q) : Q := Qred q.

(** The per-draw reward probability [p] of the first PMF loop. *)
Definition flatProbability (pity : nat) : Q := 0.02.

(** The per-draw reward probability [p] of the second PMF loop:
    [Math.min(1.0, 0.02 + 0.02 * (pity - 48))]. *)
Definition softProbability (pity : nat) : Q :=
  Qmin 1.0 (0.02 + 0.02 * (inject_Z (Z.of_nat pity) - 48)).

(** The per-draw reward probability the PMF construction uses at [pity]
    (index 99 receives all the remaining survival mass). *)
Definition hitProbability (pity : nat) : Q :=
  if (pity <? 50)%nat then flatProbability pity
  else if (pity <? 99)%nat then softProbability pity
  else 1.

(** [for (pity = start; pity < start + count; pity++)
       { pmf[pity] = survival * p; survival *= (1 - p); }]:
    the cells written and the final [survival]. *)
Fixpoint pmfLoop (p : nat -> Q) (pity count : nat) (survival : Q)
  : list Q * Q :=
  match count with
  | O => ([], survival)
  | S count' =>
      let c := cell (survival * p pity) in
      let '(cells, s) := pmfLoop p (S pity) count' (survival * (1 - p pity))%Q in
      (c :: cells, s)
  end.

(** The array [pmf] after the two loops and [pmf[99] = survival]. *)
Definition buildPMF : list Q :=
  let '(front, survival) := pmfLoop flatProbability 0 50 1.0 in
  let '(soft, survival) := pmfLoop softProbability 50 49 survival in
  front ++ soft ++ [cell survival].

(** [cdf[0] = pmf[0]; cdf[i] = cdf[i - 1] + pmf[i]], with [acc] the
    previous cell. *)
Fixpoint runningSum (acc : Q) (pmf : list Q) : list Q :=
  match pmf with
  | [] => []
  | x :: pmf' => let c := cell (acc + x) in c :: runningSum c pmf'
  end.

(** The array [cdf] after the division by [total = cdf[maxPity - 1]]. *)
Definition buildCDF : list Q :=
  let cdf := runningSum 0 buildPMF in
  let total := List.last cdf 0%Q in
  map (fun c => cell (c / total)) cdf.

(** The [basePity > 0] branch: the cells of [gachaTable] from [basePity]
    on are divided by [1 - gachaTable[basePity - 1]].  (For
    [basePity >= 98] that factor is 0 and JavaScript stores [Infinity];
    [Q] has no such value, and nothing below relies on those tables.) *)
Definition rescaleTail (gachaTable : list Q) (basePity : Z) : list Q :=
  if 0 <? basePity then
    let b := Z.to_nat basePity in
    let normalizationFactor := (1 - nth (b - 1) gachaTable 0)%Q in
    take b gachaTable
      ++ map (fun x => cell (x / normalizationFactor)) (drop b gachaTable)
  else gachaTable.

(** [gachaTable] as stored in the lookup table. *)
Definition buildGachaTable (basePity : Z) : list Q :=
  rescaleTail buildCDF basePity.

(** [operatorWeights[length - 1] = 1.0] *)
Definition forceLast (cdf : list Q) : list Q :=
  match cdf with
  | [] => []
  | _ => removelast cdf ++ [cell 1.0]
  end.

(** The operator CDF: weights divided by their sum, accumulated, the last
    cell forced to 1; eight equal weights when no operator is configured. *)
Definition buildOperatorWeights (operatorConfig : option GPUOperatorConfig)
  : list Q :=
  match operatorConfig with
  | Some cfg =>
      match operators cfg with
      | [] => []
      | ops =>
          let totalWeight :=
            foldl (fun sum op => (sum + opWeight op)%Q) 0%Q ops in
          let pmf := map (fun op => cell (opWeight op / totalWeight)) ops in
          forceLast (runningSum 0 pmf)
      end
  | None =>
      let equalWeight := (1.0 / 8)%Q in
      forceLast (map (fun i => cell (inject_Z (Z.of_nat (i + 1)) * equalWeight))
                     (seq 0 8))
  end.

(** [buildProbabilityLookupTable(basePity, operatorConfig)] *)
Definition buildProbabilityLookupTable (basePity : Z)
    (operatorConfig : option GPUOperatorConfig) : ProbabilityLookupTable :=
  {| gachaTable := buildGachaTable basePity;
     operatorWeights := buildOperatorWeights operatorConfig;
     maxPity := 100;
     operatorCount :=
       match operatorConfig with
       | Some cfg => length (operators cfg)
       | None => 8
       end |}.

(** The shader's [generateGachaDifferences]: for [i < maxPity - basePity],
    [gachaTable[basePity + i] - randomK1]. *)
Definition generateGachaDifferences (table : ProbabilityLookupTable)
    (basePity : Z) (randomK1 : Q) : list Q :=
  map (fun gachaProbability => (gachaProbability - randomK1)%Q)
      (drop (Z.to_nat basePity) (gachaTable table)).

(** The shader's [generateOperatorDifferences]:
    [operatorWeights[i] - randomK2] for [i < operatorCount]. *)
Definition generateOperatorDifferences (table : ProbabilityLookupTable)
    (randomK2 : Q) : list Q :=
  map (fun cdf_value => (cdf_value - randomK2)%Q)
      (take (operatorCount table) (operatorWeights table)).

(** Index of the first cell of [group] that satisfies [hit], counting from
    [idx]. *)
Fixpoint firstIndex (hit : Q -> bool) (group : list Q) (idx : nat)
  : option nat :=
  match group with
  | [] => None
  | d :: group' => if hit d then Some idx else firstIndex hit group' (S idx)
  end.

(** Host-side decoding of one lane in [runSimulation]: the first
    non-negative draw difference gives [basePity + drawIdx + 1], the first
    positive operator difference gives the operator; a lane without a hit,
    without an operator or with an empty operator name is dropped. *)
Definition decodeLane (operatorConfig : GPUOperatorConfig)
    (drawsGroup operatorGroup : list Q) : option LaneResult :=
  let basePity := gpuBasePity operatorConfig in
  let firstHitDraw :=
    match firstIndex (fun differenceValue => Qle_bool 0 differenceValue)
                     drawsGroup 0 with
    | Some drawIdx => basePity + Z.of_nat drawIdx + 1
    | None => -1
    end in
  let selectedOperatorName :=
    if 0 <? firstHitDraw then
      match firstIndex (fun diffValue => negb (Qle_bool diffValue 0))
                       operatorGroup 0 with
      | Some selectedOperatorIdx =>
          match operators operatorConfig !! selectedOperatorIdx with
          | Some op => opName op
          | None => ""%string
          end
      | None => ""%string
      end
    else ""%string in
  if (0 <? firstHitDraw) && negb (String.eqb selectedOperatorName "") then
    Some {| laneName := selectedOperatorName; laneDraws := firstHitDraw |}
  else None.

(** [runSimulation(operatorConfig)] for one dispatch that succeeds:
    [randomNumbers] holds the pair [(K1, K2)] of every lane as the kernel
    reads it from the [Float32Array], so its length is the batch size the
    device allowed.  Each number is a value of [Math.random()] rounded to
    single precision: it lies in [[0, 1]], and is 1 for a value from
    [1 - 2^-25] on.  The table is the one [simulateBatch] rebuilds from
    the configuration. *)
Definition runSimulation (operatorConfig : GPUOperatorConfig)
    (randomNumbers : list (Q * Q)) : list LaneResult :=
  let table :=
    buildProbabilityLookupTable (gpuBasePity operatorConfig)
                                (Some operatorConfig) in
  omap (fun '(randomK1, randomK2) =>
          decodeLane operatorConfig
            (generateGachaDifferences table (gpuBasePity operatorConfig) randomK1)
            (generateOperatorDifferences table randomK2))
       randomNumbers.

End GPUManager.

(** ** The scheduler and the streaming aggregator ([workerManager.ts]) *)

(** [StatisticalData].  [sigma] is the square root of [variance]; it has no
    exact rational value, so the record carries [variance], and the three
    sigma ranges derived from [sigma] are left out. *)
Record StatisticalData :=
  { mean : Q; median : Q; p25 : Q; p75 : Q; variance : Q }.

(** [CharacterStats] *)
Record CharacterStats :=
  { count : nat; averagePer100Draws : Q; averageDrawsPerTarget : Q }.

(** [SimulationStatistics], without the histogram bins and the render
    channel, which only feed the charts. *)
Record SimulationStatistics :=
  { drawsBucket : gmap Z nat;
    cumulativeProbability : list (Z * Q);
    characterStats : gmap string CharacterStats;
    statisticalData : StatisticalData;
    totalSimulations : nat }.

(** An entry of [activeTasks]. *)
Record Task :=
  { task_totalSimulations : nat;
    task_completedSimulations : nat;
    task_pendingSimulations : list nat;
    task_operatorConfig : OperatorConfig;
    task_basePity : Z;
    task_drawsBucket : gmap Z nat;
    task_characterCounts : gmap string nat }.

(** [WorkerTask], the message posted to a worker. *)
Record WorkerTask :=
  { wt_operatorConfig : OperatorConfig;
    wt_basePity : Z;
    wt_workerId : nat;
    wt_simulationIndex : nat }.

(** The promise returned by [runSimulation]. *)
Inductive Promise :=
| Pending
| Resolved (statistics : SimulationStatistics)
| Rejected (error : string).

(** The manager during one run: the idle workers (a [Set], in insertion
    order), the messages posted to workers and not yet answered, the entry
    of [activeTasks] for the run, and the run's promise. *)
Record Manager :=
  { availableWorkers : list nat;
    posted : list WorkerTask;
    activeTask : option Task;
    promise : Promise }.

(** The accumulators of [runGPUSimulation]. *)
Record GPUAggregate :=
  { currentSim : nat;
    gpu_drawsBucket : gmap Z nat;
    gpu_characterCounts : gmap string nat }.

(** How [runGPUSimulation]'s [try] block ends: it returns, a dispatch
    throws, or it is still waiting for the device. *)
Inductive GPUOutcome :=
| Returned (statistics : SimulationStatistics)
| Threw
| Waiting.

Module WorkerManager.

(** *** Streaming aggregator *)

(** [.sort((a, b) => a.draws - b.draws)] on bucket entries. *)
Fixpoint insertEntry (e : Z * nat) (l : list (Z * nat)) : list (Z * nat) :=
  match l with
  | [] => [e]
  | h :: t => if e.1 <=? h.1 then e :: h :: t else h :: insertEntry e t
  end.

Definition sortByDraws (l : list (Z * nat)) : list (Z * nat) :=
  foldr insertEntry [] l.

(** [Object.entries(drawsBucket).map(...).sort(...)] *)
Definition bucketEntries (drawsBucket : gmap Z nat) : list (Z * nat) :=
  sortByDraws (map_to_list drawsBucket).

(** [calculateCumulativeProbability] *)
Fixpoint cumulativeWalk (totalSimulations : nat) (cumulativeCount : nat)
    (entries : list (Z * nat)) : list (Z * Q) :=
  match entries with
  | [] => []
  | (draws, c) :: entries' =>
      let cumulativeCount := (cumulativeCount + c)%nat in
      let probability :=
        (inject_Z (Z.of_nat cumulativeCount)
         / inject_Z (Z.of_nat totalSimulations) * 100)%Q in
      (draws, probability) :: cumulativeWalk totalSimulations cumulativeCount entries'
  end.

Definition calculateCumulativeProbability (drawsBucket : gmap Z nat)
    (totalSimulations : nat) : list (Z * Q) :=
  cumulativeWalk totalSimulations 0 (bucketEntries drawsBucket).

(** [getTotalDrawsFromBucket] *)
Definition getTotalDrawsFromBucket (drawsBucket : gmap Z nat) : Z :=
  foldl (fun total '(draws, c) => total + draws * Z.of_nat c) 0
        (map_to_list drawsBucket).

(** [calculateCharacterStats] *)
Definition calculateCharacterStats (characterCounts : gmap string nat)
    (drawsBucket : gmap Z nat) : gmap string CharacterStats :=
  let totalDraws := getTotalDrawsFromBucket drawsBucket in
  (fun c =>
     {| count := c;
        averagePer100Draws :=
          (inject_Z (Z.of_nat c) / inject_Z totalDraws * 100)%Q;
        averageDrawsPerTarget := 0 |}) <$> characterCounts.

(** The median loop of [calculateStatisticalData]. *)
Fixpoint medianWalk (medianIndex : Z) (currentCount : Z) (median : Q)
    (entries : list (Z * nat)) : Q :=
  match entries with
  | [] => median
  | (draws, c) :: entries' =>
      let currentCount := currentCount + Z.of_nat c in
      if medianIndex <=? currentCount then inject_Z draws
      else medianWalk medianIndex currentCount median entries'
  end.

(** The quartile loop of [calculateStatisticalData]. *)
Fixpoint quartileWalk (mean : Q) (p25Index p75Index : Z) (currentCount : Z)
    (p25 p75 : Q) (entries : list (Z * nat)) : Q * Q :=
  match entries with
  | [] => (p25, p75)
  | (draws, c) :: entries' =>
      let currentCount := currentCount + Z.of_nat c in
      let p25 :=
        if Qeq_bool p25 mean && (p25Index <=? currentCount)
        then inject_Z draws else p25 in
      if p75Index <=? currentCount then (p25, inject_Z draws)
      else quartileWalk mean p25Index p75Index currentCount p25 p75 entries'
  end.

(** [calculateStatisticalData] *)
Definition calculateStatisticalData (drawsBucket : gmap Z nat)
  : StatisticalData :=
  let entries := bucketEntries drawsBucket in
  let totalCount := foldl (fun sum e => sum + Z.of_nat e.2) 0 entries in
  let mean :=
    (inject_Z (foldl (fun sum e => (sum + e.1 * Z.of_nat e.2)%Z) 0%Z entries)
     / inject_Z totalCount)%Q in
  let medianIndex := Qfloor (inject_Z totalCount / 2) in
  let median := medianWalk medianIndex 0 mean entries in
  let p25Index := Qfloor (inject_Z totalCount * 0.25) in
  let p75Index := Qfloor (inject_Z totalCount * 0.75) in
  let '(p25, p75) := quartileWalk mean p25Index p75Index 0 mean mean entries in
  let variance :=
    (foldl (fun sum e =>
              sum + inject_Z (Z.of_nat e.2) * (inject_Z e.1 - mean) ^ 2)
           0 entries
     / inject_Z totalCount)%Q in
  {| mean := mean; median := median; p25 := p25; p75 := p75;
     variance := variance |}.

(** The statistics object built by [completeTask] and, with the same
    calls, at the end of [runGPUSimulation]. *)
Definition buildStatistics (drawsBucket : gmap Z nat)
    (characterCounts : gmap string nat) (totalSimulations : nat)
  : SimulationStatistics :=
  {| drawsBucket := drawsBucket;
     cumulativeProbability :=
       calculateCumulativeProbability drawsBucket totalSimulations;
     characterStats := calculateCharacterStats characterCounts drawsBucket;
     statisticalData := calculateStatisticalData drawsBucket;
     totalSimulations := totalSimulations |}.

(** [if (bucket[draws]) bucket[draws]++; else bucket[draws] = 1;] *)
Definition bumpBucket (bucket : gmap Z nat) (draws : Z) : gmap Z nat :=
  match bucket !! draws with
  | Some c => if (c =? 0)%nat then <[draws := 1%nat]> bucket
              else <[draws := S c]> bucket
  | None => <[draws := 1%nat]> bucket
  end.

(** [Object.keys(result.characterCounts).forEach(char => { ... })] *)
Definition addCounts (counts result : gmap string nat) : gmap string nat :=
  map_fold (fun char v counts => <[char := (countOf counts char + v)%nat]> counts)
           counts result.

(** The part of [handleWorkerComplete] that folds one outcome into the
    task: completion counter, bucket and per-character counters. *)
Definition foldOutcome (task : Task) (result : SingleSimulationResult) : Task :=
  {| task_totalSimulations := task_totalSimulations task;
     task_completedSimulations := S (task_completedSimulations task);
     task_pendingSimulations := task_pendingSimulations task;
     task_operatorConfig := task_operatorConfig task;
     task_basePity := task_basePity task;
     task_drawsBucket := bumpBucket (task_drawsBucket task) (totalDraws result);
     task_characterCounts :=
       addCounts (task_characterCounts task) (characterCounts result) |}.

(** *** Worker-pool scheduler *)

(** [availableWorkers.add(workerId)] *)
Definition setAdd (workerId : nat) (s : list nat) : list nat :=
  if bool_decide (workerId ∈ s) then s else s ++ [workerId].

(** [availableWorkers.delete(workerId)] *)
Definition setDelete (workerId : nat) (s : list nat) : list nat :=
  filter (fun w => w ≠ workerId) s.

(** [assignNextSimulation] *)
Definition assignNextSimulation (m : Manager) : Manager :=
  match activeTask m with
  | None => m
  | Some task =>
      match task_pendingSimulations task with
      | [] => m
      | simulationIndex :: pending =>
          match availableWorkers m with
          | [] => m
          | workerId :: _ =>
              let workerTask :=
                {| wt_operatorConfig := task_operatorConfig task;
                   wt_basePity := task_basePity task;
                   wt_workerId := workerId;
                   wt_simulationIndex := simulationIndex |} in
              {| availableWorkers := setDelete workerId (availableWorkers m);
                 posted := posted m ++ [workerTask];
                 activeTask :=
                   Some {| task_totalSimulations := task_totalSimulations task;
                           task_completedSimulations :=
                             task_completedSimulations task;
                           task_pendingSimulations := pending;
                           task_operatorConfig := task_operatorConfig task;
                           task_basePity := task_basePity task;
                           task_drawsBucket := task_drawsBucket task;
                           task_characterCounts := task_characterCounts task |};
                 promise := promise m |}
          end
      end
  end.

(** [completeTask]: the promise is resolved, the task removed and, no task
    being left, the pool released (its workers are terminated, so no
    posted message is answered any more). *)
Definition completeTask (m : Manager) : Manager :=
  match activeTask m with
  | None => m
  | Some task =>
      {| availableWorkers := [];
         posted := [];
         activeTask := None;
         promise :=
           Resolved (buildStatistics (task_drawsBucket task)
                                     (task_characterCounts task)
                                     (task_totalSimulations task)) |}
  end.

(** [handleWorkerComplete] *)
Definition handleWorkerComplete (workerId : nat)
    (result : SingleSimulationResult) (m : Manager) : Manager :=
  match activeTask m with
  | None => m
  | Some task =>
      let task := foldOutcome task result in
      let m :=
        assignNextSimulation
          {| availableWorkers := setAdd workerId (availableWorkers m);
             posted := posted m;
             activeTask := Some task;
             promise := promise m |} in
      if (task_totalSimulations task <=? task_completedSimulations task)%nat
      then completeTask m else m
  end.

(** [handleWorkerError] *)
Definition handleWorkerError (error : string) (m : Manager) : Manager :=
  match activeTask m with
  | None => m
  | Some _ =>
      {| availableWorkers := availableWorkers m;
         posted := posted m;
         activeTask := None;
         promise := Rejected error |}
  end.

(** [handleWorkerMessage] *)
Definition handleWorkerMessage (msg : WorkerMessage) (m : Manager) : Manager :=
  match msg with
  | Complete workerId result => handleWorkerComplete workerId result m
  | Error error => handleWorkerError error m
  end.

(** [runCPUSimulation] on a pool of [workerCount] idle workers: the task is
    registered and the initial assignments are made. *)
Definition runCPUSimulation (workerCount : nat) (totalSimulations : nat)
    (operatorConfig : OperatorConfig) (basePity : Z) : Manager :=
  let m :=
    {| availableWorkers := seq 0 workerCount;
       posted := [];
       activeTask :=
         Some {| task_totalSimulations := totalSimulations;
                 task_completedSimulations := 0;
                 task_pendingSimulations := seq 0 totalSimulations;
                 task_operatorConfig := operatorConfig;
                 task_basePity := basePity;
                 task_drawsBucket := ∅;
                 task_characterCounts := ∅ |};
       promise := Pending |} in
  let initialAssignments := Nat.min (length (availableWorkers m)) totalSimulations in
  Nat.iter initialAssignments assignNextSimulation m.

(** The busy worker [workerId] finishes: its script runs the simulation it
    was posted, with [rngs simulationIndex] as that run's random numbers,
    and the manager handles the message.  [None]: the worker is not busy,
    or its simulation needs more random numbers. *)
Definition deliver (rngs : nat -> list Q) (workerId : nat) (m : Manager)
  : option Manager :=
  match List.find (fun wt => (wt_workerId wt =? workerId)%nat) (posted m) with
  | None => None
  | Some wt =>
      match SimulationWorker.onmessage (wt_operatorConfig wt) (wt_basePity wt)
              workerId (rngs (wt_simulationIndex wt)) with
      | None => None
      | Some msg =>
          Some (handleWorkerMessage msg
                  {| availableWorkers := availableWorkers m;
                     posted :=
                       filter (fun wt => wt_workerId wt ≠ workerId) (posted m);
                     activeTask := activeTask m;
                     promise := promise m |})
      end
  end.

(** The workers finish in the order given by [schedule]. *)
Fixpoint run (rngs : nat -> list Q) (schedule : list nat) (m : Manager)
  : option Manager :=
  match schedule with
  | [] => Some m
  | workerId :: schedule' =>
      match deliver rngs workerId m with
      | None => None
      | Some m' => run rngs schedule' m'
      end
  end.

(** *** The GPU driver loop *)

(** [Object.fromEntries(Object.keys(operatorConfig).map(name => [name, 0]))] *)
Definition freshOperator (operatorConfig : OperatorConfig) : gmap string nat :=
  list_to_map (map (fun name => (name, 0%nat)) (map fst operatorConfig)).

(** The inner [for (;;)] of [runGPUSimulation].  [results] is the array as
    a stack: its head is what [results.pop()] returns next. *)
Fixpoint trialLoop (operatorConfig : OperatorConfig) (totalSimulations : nat)
    (operator : gmap string nat) (totalDraws : Z)
    (results : list LaneResult) (st : GPUAggregate)
  : list LaneResult * GPUAggregate :=
  match results with
  | [] => ([], st)
  | result :: results' =>
      let name := laneName result in
      let known := bool_decide (is_Some (operator !! name)) in
      let operator :=
        if known then <[name := S (countOf operator name)]> operator
        else operator in
      let totalDraws :=
        if known then totalDraws + laneDraws result else totalDraws in
      let characterCounts :=
        if known
        then <[name := (countOf (gpu_characterCounts st) name + 1)%nat]>
               (gpu_characterCounts st)
        else gpu_characterCounts st in
      if forallb (fun '(n, e) => (target e <=? countOf operator n)%nat)
                 operatorConfig
      then
        let bucket :=
          <[totalDraws := (default 0%nat (gpu_drawsBucket st !! totalDraws) + 1)%nat]>
            (gpu_drawsBucket st) in
        let currentSim := S (currentSim st) in
        let results' :=
          if (totalSimulations <=? currentSim)%nat then [] else results' in
        (results',
         {| currentSim := currentSim;
            gpu_drawsBucket := bucket;
            gpu_characterCounts := characterCounts |})
      else
        trialLoop operatorConfig totalSimulations operator totalDraws results'
          {| currentSim := currentSim st;
             gpu_drawsBucket := gpu_drawsBucket st;
             gpu_characterCounts := characterCounts |}
  end.

(** [while (results && results.length > 0) { ... }]; every iteration pops
    at least one result, so [fuel] is the number of results. *)
Fixpoint batchLoop (fuel : nat) (operatorConfig : OperatorConfig)
    (totalSimulations : nat) (results : list LaneResult) (st : GPUAggregate)
  : list LaneResult * GPUAggregate :=
  match fuel with
  | O => (results, st)
  | S fuel' =>
      match results with
      | [] => ([], st)
      | _ =>
          let '(results', st') :=
            trialLoop operatorConfig totalSimulations
                      (freshOperator operatorConfig) 0 results st in
          batchLoop fuel' operatorConfig totalSimulations results' st'
      end
  end.

(** One batch returned by the GPU manager, processed to exhaustion. *)
Definition processResults (operatorConfig : OperatorConfig)
    (totalSimulations : nat) (results : list LaneResult) (st : GPUAggregate)
  : GPUAggregate :=
  (batchLoop (length results) operatorConfig totalSimulations
             (rev results) st).2.

(** [newOperatorConfig]; [weight || 1] replaces a zero weight by 1. *)
Definition newOperatorConfig (operatorConfig : OperatorConfig) (basePity : Z)
  : GPUOperatorConfig :=
  {| operators :=
       map (fun '(name, e) =>
              {| opName := name;
                 opWeight := if Qeq_bool (weight e) 0 then 1 else weight e |})
           operatorConfig;
     maxDraws := 100;
     gpuBasePity := basePity |}.

(** The outer [for (currentSim = 0; currentSim < totalSimulations;)] loop.
    [device] lists what each successive call of
    [gpuManager.runSimulation] meets: [None] when initialisation or the
    dispatch throws, otherwise the random pairs of the lanes of the batch. *)
Fixpoint gpuLoop (operatorConfig : OperatorConfig) (totalSimulations : nat)
    (basePity : Z) (device : list (option (list (Q * Q))))
    (st : GPUAggregate) : GPUOutcome :=
  if (currentSim st <? totalSimulations)%nat then
    match device with
    | [] => Waiting
    | None :: _ => Threw
    | Some randomNumbers :: device' =>
        let results :=
          GPUManager.runSimulation (newOperatorConfig operatorConfig basePity)
                                   randomNumbers in
        gpuLoop operatorConfig totalSimulations basePity device'
                (processResults operatorConfig totalSimulations results st)
    end
  else
    Returned (buildStatistics (gpu_drawsBucket st) (gpu_characterCounts st)
                              totalSimulations).

(** The [try] block of [runGPUSimulation]. *)
Definition gpuAttempt (totalSimulations : nat) (operatorConfig : OperatorConfig)
    (basePity : Z) (device : list (option (list (Q * Q)))) : GPUOutcome :=
  gpuLoop operatorConfig totalSimulations basePity device
          {| currentSim := 0; gpu_drawsBucket := ∅; gpu_characterCounts := ∅ |}.

(** The promise of the worker-pool path once the workers have finished in
    the order [schedule]. *)
Definition cpuPromise (workerCount totalSimulations : nat)
    (operatorConfig : OperatorConfig) (basePity : Z)
    (rngs : nat -> list Q) (schedule : list nat) : option Promise :=
  promise <$> run rngs schedule
                  (runCPUSimulation workerCount totalSimulations
                                    operatorConfig basePity).

(** [runGPUSimulation]: the [catch] clause falls back to
    [runCPUSimulation]. *)
Definition runGPUSimulation (workerCount totalSimulations : nat)
    (operatorConfig : OperatorConfig) (basePity : Z)
    (device : list (option (list (Q * Q))))
    (rngs : nat -> list Q) (schedule : list nat) : option Promise :=
  match gpuAttempt totalSimulations operatorConfig basePity device with
  | Returned statistics => Some (Resolved statistics)
  | Waiting => Some Pending
  | Threw =>
      cpuPromise workerCount totalSimulations operatorConfig basePity
                 rngs schedule
  end.

(** *** Entry point *)

(** [Object.entries(operatorConfig).sort(([, a], [, b]) => wa - wb)]:
    a stable sort by ascending weight. *)
Fixpoint insertByWeight (e : string * OperatorEntry) (l : OperatorConfig)
  : OperatorConfig :=
  match l with
  | [] => [e]
  | h :: t =>
      if Qle_bool (weight e.2) (weight h.2) then e :: h :: t
      else h :: insertByWeight e t
  end.

Definition sortByWeight (operatorConfig : OperatorConfig) : OperatorConfig :=
  foldr insertByWeight [] operatorConfig.

(** [operatorConfig = Object.fromEntries(sortedEntries)]: the object both
    paths receive, as they enumerate it. *)
Definition sortedOperatorConfig (operatorConfig : OperatorConfig)
  : OperatorConfig :=
  JSObject.fromEntries (sortByWeight operatorConfig).

(** [runSimulation]: the configuration is rebuilt from its sorted entries,
    then the GPU path is taken when it is enabled and available, the worker
    pool otherwise. *)
Definition runSimulation (isGPUEnabled gpuIsAvailable : bool)
    (workerCount totalSimulations : nat)
    (operatorConfig : OperatorConfig) (basePity : Z)
    (device : list (option (list (Q * Q))))
    (rngs : nat -> list Q) (schedule : list nat) : option Promise :=
  let operatorConfig := sortedOperatorConfig operatorConfig in
  if isGPUEnabled && gpuIsAvailable then
    runGPUSimulation workerCount totalSimulations operatorConfig basePity
                     device rngs schedule
  else
    cpuPromise workerCount totalSimulations operatorConfig basePity
               rngs schedule.

End WorkerManager.

(** ** Batch sizes of the GPU manager ([gpuManager.ts]) *)

Module GPUBatch.

(** [checkGPUSupport]:
    [this.maxBatchSize = Math.min(50000, maxWorkgroupSize * 100)]. *)
Definition checkGPUSupport (maxWorkgroupSize : Z) : Z :=
  Z.min 50000 (maxWorkgroupSize * 100).

(** [bytesPerSimulation] of [runSimulation]. *)
Definition bytesPerSimulation (operatorConfig : GPUOperatorConfig) : Z :=
  let bytesPerFloat := 4 in
  let configBasePity := gpuBasePity operatorConfig in
  let configDrawsPerGroup := maxDraws operatorConfig - configBasePity in
  configDrawsPerGroup * bytesPerFloat
  + Z.of_nat (length (operators operatorConfig)) * bytesPerFloat.

(** [targetBatchSize] of [runSimulation], with
    [maxStorageBufferBindingSize] the limit of the device. *)
Definition targetBatchSize (maxStorageBufferBindingSize : Z)
    (operatorConfig : GPUOperatorConfig) : Z :=
  let maxBufferSize := (inject_Z maxStorageBufferBindingSize * 0.9)%Q in
  let maxBatchSize :=
    Qfloor (maxBufferSize / inject_Z (bytesPerSimulation operatorConfig)) in
  Z.min maxBatchSize 10000.

(** [actualBatchSize] of [simulateBatch], with [maxBatchSize] the field of
    the manager. *)
Definition actualBatchSize (batchSize maxBatchSize : Z) : Z :=
  Z.min batchSize maxBatchSize.

(** [drawsResultSize] and [operatorResultSize] of [simulateBatch], in
    bytes; the table's [maxPity] is 100. *)
Definition drawsResultSize (actualBatchSize basePity : Z) : Z :=
  let maxPity := 100 in
  let drawsPerGroup := maxPity - basePity in
  actualBatchSize * drawsPerGroup * 4.

Definition operatorResultSize (actualBatchSize : Z) (operatorCount : nat) : Z :=
  actualBatchSize * Z.of_nat operatorCount * 4.

(** The lanes of the batch [runSimulation] dispatches. *)
Definition lanes (maxStorageBufferBindingSize maxBatchSize : Z)
    (operatorConfig : GPUOperatorConfig) : Z :=
  actualBatchSize (targetBatchSize maxStorageBufferBindingSize operatorConfig)
                  maxBatchSize.

End GPUBatch.

(** ** The GPU switch of the worker manager ([workerManager.ts]) *)

(** The fields [isGPUAvailable] and [isGPUEnabled]. *)
Record GPUStatus := { isGPUAvailable : bool; isGPUEnabled : bool }.

Module GPUSwitch.

(** The fields as the class declares them. *)
Definition initial : GPUStatus :=
  {| isGPUAvailable := false; isGPUEnabled := false |}.

(** [initializeGPU] *)
Definition initializeGPU (supported initialized : bool) (st : GPUStatus)
  : GPUStatus :=
  if supported then
    let isGPUAvailable := initialized in
    {| isGPUAvailable := isGPUAvailable;
       isGPUEnabled := if isGPUAvailable then true else isGPUEnabled st |}
  else {| isGPUAvailable := false; isGPUEnabled := false |}.

(** [setGPUEnabled] *)
Definition setGPUEnabled (enabled : bool) (st : GPUStatus) : GPUStatus :=
  {| isGPUAvailable := isGPUAvailable st;
     isGPUEnabled := enabled && isGPUAvailable st |}.

(** [getGPUAvailability] *)
Definition getGPUAvailability (st : GPUStatus) : bool * bool :=
  (isGPUAvailable st, isGPUEnabled st).

(** The switch of a manager: [setGPUEnabled] is called with the values
    [before] while [initializeGPU], started by the constructor, has not
    finished; [initializeGPU] finishes with the answers of
    [checkGPUSupport] and [initialize]; [setGPUEnabled] is called with the
    values [later]. *)
Definition history (before : list bool) (supported initialized : bool)
    (later : list bool) : GPUStatus :=
  foldl (fun st enabled => setGPUEnabled enabled st)
        (initializeGPU supported initialized
           (foldl (fun st enabled => setGPUEnabled enabled st) initial before))
        later.

End GPUSwitch.

(** ** The array interface of [gacha.ts] *)

(** [Math.round]: the nearest integer, ties towards positive infinity. *)
Definition mathRound (x : Q) : Z := Qfloor (x + (1 # 2)).

Module GachaArrays.

(** [MultipleSimulationResult], without [allDetails], whose arrays are
    always empty. *)
Record MultipleSimulationResult :=
  { totalDraws : list Z; characterCounts : gmap string (list nat) }.

(** [characterCounts[char].push(result.statistic[char])] for every key of
    [result.statistic]; a key without an array gets an empty one first. *)
Definition pushCounts (characterCounts : gmap string (list nat))
    (statistic : gmap string nat) : gmap string (list nat) :=
  map_fold (fun char v characterCounts =>
              <[char := default [] (characterCounts !! char) ++ [v]]>
                characterCounts)
           characterCounts statistic.

(** The [for] loop of [runSimulationMultipleTimes], without a progress
    callback; [rngs i] holds the random numbers trial [i] consumes. *)
Fixpoint simulationLoop (count : nat) (i : nat)
    (operatorConfig : option OperatorConfig) (basePity : Z)
    (rngs : nat -> list Q) (acc : MultipleSimulationResult)
  : option MultipleSimulationResult :=
  match count with
  | O => Some acc
  | S count' =>
      match Gacha.chouShuTongJi operatorConfig basePity (rngs i) with
      | None => None
      | Some result =>
          simulationLoop count' (S i) operatorConfig basePity rngs
            {| totalDraws := totalDraws acc ++ [total result];
               characterCounts :=
                 pushCounts (characterCounts acc) (statistic result) |}
      end
  end.

(** [runSimulationMultipleTimes(n, operatorConfig, basePity)] *)
Definition runSimulationMultipleTimes (n : nat)
    (operatorConfig : option OperatorConfig) (basePity : Z)
    (rngs : nat -> list Q) : option MultipleSimulationResult :=
  let characterCounts :=
    foldl (fun characterCounts char => <[char := []]> characterCounts) ∅
          (map fst (default [] operatorConfig)) in
  simulationLoop n 0 operatorConfig basePity rngs
                 {| totalDraws := []; characterCounts := characterCounts |}.

(** [convertStatisticsToLegacyFormat].  The keys of [drawsBucket] are
    non-negative integers, which [Object.entries] lists in ascending
    order. *)
Definition convertStatisticsToLegacyFormat
    (simulationStatistics : SimulationStatistics) : MultipleSimulationResult :=
  {| totalDraws :=
       flat_map (fun '(drawsNum, c) => repeat drawsNum c)
                (WorkerManager.bucketEntries
                   (drawsBucket simulationStatistics));
     characterCounts :=
       (fun stats =>
          let totalCount := count stats in
          let avgPerSim :=
            (inject_Z (Z.of_nat totalCount)
             / inject_Z (Z.of_nat (totalSimulations simulationStatistics)))%Q in
          repeat (Z.to_nat (mathRound avgPerSim))
                 (totalSimulations simulationStatistics))
       <$> characterStats simulationStatistics |}.

(** The default configuration of the worker entry points. *)
Definition workerDefaultConfig : OperatorConfig :=
  [("海猫"%string, {| weight := 1; target := 99 |});
   ("其它"%string, {| weight := 1; target := 0 |})].

(** [runSimulationMultipleTimesWithWorkers]: the statistics of the manager
    are converted; when its promise is rejected the single-threaded loop
    runs instead, with [fallbackRngs] as its random numbers.  [None]: the
    schedule or the random numbers do not cover the run; [Some None]: the
    promise of the manager is still pending. *)
Definition runSimulationMultipleTimesWithWorkers
    (isGPUEnabled gpuIsAvailable : bool) (workerCount n : nat)
    (operatorConfig : option OperatorConfig) (basePity : Z)
    (device : list (option (list (Q * Q))))
    (rngs : nat -> list Q) (schedule : list nat)
    (fallbackRngs : nat -> list Q)
  : option (option MultipleSimulationResult) :=
  let config := default workerDefaultConfig operatorConfig in
  match WorkerManager.runSimulation isGPUEnabled gpuIsAvailable workerCount n
          config basePity device rngs schedule with
  | None => None
  | Some Pending => Some None
  | Some (Resolved simulationStatistics) =>
      Some (Some (convertStatisticsToLegacyFormat simulationStatistics))
  | Some (Rejected _) =>
      Some <$> runSimulationMultipleTimes n (Some config) basePity fallbackRngs
  end.

(** [[...data].sort((a, b) => a - b)] *)
Fixpoint insertSorted (x : Z) (l : list Z) : list Z :=
  match l with
  | [] => [x]
  | h :: t => if x <=? h then x :: h :: t else h :: insertSorted x t
  end.

Definition sortAscending (data : list Z) : list Z := foldr insertSorted [] data.

(** [percentile(sortedData, percentileValue)] *)
Definition percentile (sortedData : list Z) (percentileValue : Q) : Q :=
  let index :=
    (percentileValue / 100
     * (inject_Z (Z.of_nat (length sortedData)) - 1))%Q in
  let lower := Qfloor index in
  let upper := Qceiling index in
  if lower =? upper then inject_Z (nth (Z.to_nat lower) sortedData 0)
  else
    let weight := (index - inject_Z lower)%Q in
    (inject_Z (nth (Z.to_nat lower) sortedData 0%Z) * (1 - weight)
     + inject_Z (nth (Z.to_nat upper) sortedData 0%Z) * weight)%Q.

(** [Statistics].  [std] is the square root of [variance]; it has no exact
    rational value, so the record carries [variance], and the three sigma
    ranges derived from [std] are left out. *)
Record Statistics :=
  { mean : Q; median : Q; variance : Q; p25 : Q; p75 : Q;
    min : Z; max : Z; sumOfDraws : Z; totalSimulations : nat }.

(** [calculateStatistics(data)]; [None] is the empty object returned for
    an empty array.  The field [totalDraws] is [sumOfDraws] here. *)
Definition calculateStatistics (data : list Z) : option Statistics :=
  match data with
  | [] => None
  | _ =>
      let sortedData := sortAscending data in
      let n := length data in
      let mean :=
        (inject_Z (foldl Z.add 0%Z data) / inject_Z (Z.of_nat n))%Q in
      let median :=
        if (n mod 2 =? 0)%nat
        then ((inject_Z (nth (n / 2 - 1)%nat sortedData 0%Z)
               + inject_Z (nth (n / 2)%nat sortedData 0%Z)) / 2)%Q
        else inject_Z (nth (n / 2)%nat sortedData 0) in
      let variance :=
        (foldl (fun sum val => sum + (inject_Z val - mean) ^ 2) 0 data
         / inject_Z (Z.of_nat n))%Q in
      let p25 := percentile sortedData 25 in
      let p75 := percentile sortedData 75 in
      Some {| mean := mean; median := median; variance := variance;
              p25 := p25; p75 := p75;
              min := nth 0 sortedData 0;
              max := nth (n - 1) sortedData 0;
              sumOfDraws := foldl Z.add 0 data;
              totalSimulations := n |}
  end.

(** [FrequencyDistributionItem] *)
Record FrequencyDistributionItem :=
  { draws : Z; percentage : Q; cumulative : nat }.

(** The [uniqueValues.forEach] loop of [calculateFrequencyDistribution]. *)
Fixpoint distributionWalk (n : nat) (valueCount : gmap Z nat)
    (cumulativeCount : nat) (uniqueValues : list Z)
  : list FrequencyDistributionItem :=
  match uniqueValues with
  | [] => []
  | draws :: uniqueValues' =>
      let cumulativeCount :=
        (cumulativeCount + default 0 (valueCount !! draws))%nat in
      let percentage :=
        (inject_Z (Z.of_nat cumulativeCount) / inject_Z (Z.of_nat n) * 100)%Q in
      {| draws := draws;
         percentage := (inject_Z (mathRound (percentage * 100)) / 100)%Q;
         cumulative := cumulativeCount |}
        :: distributionWalk n valueCount cumulativeCount uniqueValues'
  end.

(** [calculateFrequencyDistribution(data)]; the field [count] is
    [cumulative] here. *)
Definition calculateFrequencyDistribution (data : list Z)
  : list FrequencyDistributionItem :=
  match data with
  | [] => []
  | _ =>
      let sortedData := sortAscending data in
      let n := length data in
      let valueCount :=
        foldl (fun valueCount val =>
                 <[val := (default 0 (valueCount !! val) + 1)%nat]> valueCount)
              (∅ : gmap Z nat) sortedData in
      let uniqueValues := sortAscending (map fst (map_to_list valueCount)) in
      distributionWalk n valueCount 0 uniqueValues
  end.

(** [SigmaRange], without the [percentage] string. *)
Record SigmaRange := { range : Z * Z; inRange : nat }.

(** [data.filter(val => val >= sigmaMin && val <= sigmaMax).length] *)
Definition countWithin (data : list Z) (sigmaMin sigmaMax : Z) : nat :=
  length (List.filter (fun val => (sigmaMin <=? val) && (val <=? sigmaMax))
                      data).

(** [calculateSigmaAnalysis(data, stats)], with the fields [mean], [std],
    [min] and [max] it reads from [stats]; [None] is the empty object. *)
Definition calculateSigmaAnalysis (data : list Z)
    (stats : option (Q * Q * Z * Z))
  : option (SigmaRange * SigmaRange * SigmaRange) :=
  match data, stats with
  | [], _ | _, None => None
  | _, Some (mean, std, min, max) =>
      let sigma1Min := Z.max min (mathRound (mean - std)) in
      let sigma1Max := Z.min max (mathRound (mean + std)) in
      let sigma2Min := Z.max min (mathRound (mean - 2 * std)) in
      let sigma2Max := Z.min max (mathRound (mean + 2 * std)) in
      let sigma3Min := Z.max min (mathRound (mean - 3 * std)) in
      let sigma3Max := Z.min max (mathRound (mean + 3 * std)) in
      let inSigma1 := countWithin data sigma1Min sigma1Max in
      let inSigma2 := countWithin data sigma2Min sigma2Max in
      let inSigma3 := countWithin data sigma3Min sigma3Max in
      Some ({| range := (sigma1Min, sigma1Max); inRange := inSigma1 |},
            {| range := (sigma2Min, sigma2Max); inRange := inSigma2 |},
            {| range := (sigma3Min, sigma3Max); inRange := inSigma3 |})
  end.

End GachaArrays.

(** The trials of a run, in order. *)
Definition trials (n : nat) (operatorConfig : option OperatorConfig)
    (basePity : Z) (rngs : nat -> list Q) (first : nat)
  : option (list SimulationResult) :=
  mapM (fun i => Gacha.chouShuTongJi operatorConfig basePity (rngs i))
       (seq first n).

(** ** Quantities the properties are stated with *)

(** [sum(map.values())] *)
Definition sumValues `{Countable K} (m : gmap K nat) : nat :=
  map_fold (fun _ v acc => (v + acc)%nat) 0%nat m.

(** A value of [Math.random()] whose [chuhuo] is 100: the draw misses
    unless the reward is guaranteed. *)
Definition missDraw : Q := 0.99.

(** Does [gatcha(0)] obtain its reward exactly on the draw at pity position
    [p] (after [p] misses) when that draw's [chuhuo] is [v]? *)
Definition hitsAtPosition (p : nat) (v : Z) : bool :=
  match Pity.gatcha 0 (repeat missDraw p ++ [inject_Z (v - 1) / 100]%Q) with
  | Some (_, []) => true
  | _ => false
  end.

(** Out of the 100 equally likely values of [chuhuo], how many give the
    reward at pity position [p]: the reward probability of [gatcha] at
    that position, in percent. *)
Definition gatchaHitPercent (p : nat) : nat :=
  length (List.filter (hitsAtPosition p) (map Z.of_nat (seq 1 100))).

(** The probability model of the specification, in percent. *)
Definition specHitPercent (p : nat) : Z :=
  if (p <? 50)%nat then 2
  else if (p <? 99)%nat then Z.min 100 (2 + 2 * (Z.of_nat p - 49))
  else 100.

(** A list of rationals that never decreases. *)
Fixpoint nondecreasingb (l : list Q) : bool :=
  match l with
  | x :: t => match t with
              | y :: _ => Qle_bool x y && nondecreasingb t
              | [] => true
              end
  | [] => true
  end.

(** The draws value at which a cumulative-count walk over sorted bucket
    entries reaches the [k]-th element (as the specification words the
    weighted median and percentiles). *)
Fixpoint specWalk (k : Z) (currentCount : Z) (entries : list (Z * nat))
  : option Z :=
  match entries with
  | [] => None
  | (draws, c) :: entries' =>
      let currentCount := currentCount + Z.of_nat c in
      if k <=? currentCount then Some draws else specWalk k currentCount entries'
  end.

(** No two categories of a configuration have the same weight. *)
Definition distinctWeights (operatorConfig : OperatorConfig) : Prop :=
  NoDup operatorConfig /\
  forall a b, a ∈ operatorConfig -> b ∈ operatorConfig ->
              (weight a.2 == weight b.2)%Q -> a = b.

(** Sorted by ascending weight. *)
Definition weightLe (a b : string * OperatorEntry) : Prop :=
  (weight a.2 <= weight b.2)%Q.

(** The invariant of the worker-pool run of [N] trials: while the task is
    active its bucket sums to the number of completed trials, and the
    trials completed, in flight and pending (plus [slack]) do not exceed
    [N]; once the promise is resolved the bucket sums to [N]. *)
Definition cpuInvariant (N slack : nat) (m : Manager) : Prop :=
  (forall task, activeTask m = Some task ->
     task_totalSimulations task = N /\
     sumValues (task_drawsBucket task) = task_completedSimulations task /\
     (task_completedSimulations task + length (posted m)
      + length (task_pendingSimulations task) + slack <= N)%nat) /\
  (forall s, promise m = Resolved s ->
     sumValues (drawsBucket s) = N /\ totalSimulations s = N).

(** The invariant of the GPU driver loop: the bucket sums to [currentSim],
    which never exceeds [N], and results are only left to process while
    [currentSim < N]. *)
Definition gpuInvariant (N : nat) (results : list LaneResult)
    (st : GPUAggregate) : Prop :=
  sumValues (gpu_drawsBucket st) = currentSim st /\
  (currentSim st <= N)%nat /\
  (results <> [] -> (currentSim st < N)%nat).

(** The worker-pool run is under way with [c] trials folded, every message
    posted to a worker carrying the configuration of the task. *)
Definition underWay (N c : nat) (operatorConfig : OperatorConfig)
    (m : Manager) : Prop :=
  (exists task,
     activeTask m = Some task /\
     task_totalSimulations task = N /\
     task_completedSimulations task = c /\
     task_operatorConfig task = operatorConfig) /\
  Forall (fun wt => wt_operatorConfig wt = operatorConfig) (posted m).

(** The count a resolved run recorded for [draws]. *)
Definition bucketAt (draws : Z) (p : option Promise) : option nat :=
  match p with
  | Some (Resolved s) => drawsBucket s !! draws
  | _ => None
  end.



(** The workers that hold a posted message, and the simulations posted. *)
Definition busyWorkers (m : Manager) : list nat := map wt_workerId (posted m).
Definition inFlight (m : Manager) : list nat :=
  map wt_simulationIndex (posted m).

(** The bookkeeping of the pool: no worker is idle and busy at once or busy
    twice, no simulation is in flight twice; while the task is active the
    workers are those of the pool, no simulation is both in flight and
    pending, and every simulation is completed, in flight or pending. *)
Definition poolInvariant (workerCount : nat) (m : Manager) : Prop :=
  NoDup (availableWorkers m ++ busyWorkers m) /\
  NoDup (inFlight m) /\
  forall task, activeTask m = Some task ->
    Permutation (availableWorkers m ++ busyWorkers m) (seq 0 workerCount) /\
    NoDup (inFlight m ++ task_pendingSimulations task) /\
    (task_completedSimulations task + length (posted m)
     + length (task_pendingSimulations task)
     = task_totalSimulations task)%nat.

(** No worker is idle while a simulation is pending. *)
Definition saturated (m : Manager) : Prop :=
  forall task, activeTask m = Some task ->
    task_pendingSimulations task = [] \/ availableWorkers m = [].

(** A promise is settled only once its task has left [activeTasks]. *)
Definition settledOnce (m : Manager) : Prop :=
  promise m = Pending \/ activeTask m = None.

(** How many more assignments can be made at once. *)
Definition slack (m : Manager) : nat :=
  match activeTask m with
  | Some task =>
      Nat.min (length (task_pendingSimulations task))
              (length (availableWorkers m))
  | None => 0
  end.

(** [sum(map(totalDraws, results))] *)
Definition sumDraws (results : list SingleSimulationResult) : Z :=
  foldr (fun result acc => totalDraws result + acc) 0 results.


(** The number of trials of a list of entries. *)
Definition countSum (entries : list (Z * nat)) : nat :=
  foldr (fun e acc => (e.2 + acc)%nat) 0%nat entries.

(** The sum of a list of rationals. *)
Definition sumQ (l : list Q) : Q := foldr Qplus 0%Q l.

(** [valueCount] of [calculateFrequencyDistribution]. *)
Definition valueCountOf (l : list Z) (valueCount : gmap Z nat) : gmap Z nat :=
  foldl (fun valueCount val =>
           <[val := (default 0 (valueCount !! val) + 1)%nat]> valueCount)
        valueCount l.


(** ** Concrete configurations and inputs *)

(** One category, one copy wanted. *)
Definition singleConfig : OperatorConfig :=
  [("A"%string, {| weight := 1; target := 1 |})].

(** One category, nothing wanted. *)
Definition zeroQuotaConfig : OperatorConfig :=
  [("A"%string, {| weight := 1; target := 0 |})].

(** Two categories of equal weight, in the two insertion orders. *)
Definition tiedConfigAB : OperatorConfig :=
  [("A"%string, {| weight := 1; target := 1 |});
   ("B"%string, {| weight := 1; target := 0 |})].
Definition tiedConfigBA : OperatorConfig :=
  [("B"%string, {| weight := 1; target := 0 |});
   ("A"%string, {| weight := 1; target := 1 |})].

(** Two categories of different weights, in the two insertion orders. *)
Definition weightedConfigAB : OperatorConfig :=
  [("A"%string, {| weight := 1; target := 1 |});
   ("B"%string, {| weight := 3; target := 0 |})].
Definition weightedConfigBA : OperatorConfig :=
  [("B"%string, {| weight := 3; target := 0 |});
   ("A"%string, {| weight := 1; target := 1 |})].

(** A category whose name is an array index, heavier than the other. *)
Definition indexedConfig : OperatorConfig :=
  [("7"%string, {| weight := 3; target := 0 |});
   ("B"%string, {| weight := 1; target := 1 |})].

(** One category, two copies wanted. *)
Definition leakConfig : OperatorConfig :=
  [("A"%string, {| weight := 1; target := 2 |})].

(** Random numbers of a worker whose every draw is a reward. *)
Definition luckyRngs (simulationIndex : nat) : list Q := [0; 0]%Q.

(** Random numbers of a worker that misses once before its reward. *)
Definition secondDrawRngs (simulationIndex : nat) : list Q :=
  [missDraw; 0; 0]%Q.

(** Random numbers for the tied configurations: reward on every draw, the
    first selection falls on the first category, the second on the last. *)
Definition tiedRngs (simulationIndex : nat) : list Q := [0; 0; 0; 0.9]%Q.

(** A GPU lane that hits on the first position and selects the first
    category, and the result it decodes to with the category [A]. *)
Definition certainLane : Q * Q := (0, 0)%Q.
Definition firstDrawA : LaneResult := {| laneName := "A"; laneDraws := 1 |}.

(** Two dispatches of three lanes each. *)
Definition leakDevice : list (option (list (Q * Q))) :=
  [Some (repeat certainLane 3); Some (repeat certainLane 3)].


(** Buckets with an odd number of trials. *)
Definition oddBucket : gmap Z nat := {[1 := 1%nat; 2 := 1%nat; 3 := 1%nat]}.
Definition fiveBucket : gmap Z nat :=
  {[1 := 1%nat; 2 := 1%nat; 3 := 1%nat; 4 := 1%nat; 5 := 1%nat]}.


(** * Properties *)

(** ** The pity trial algorithm *)

Lemma chuhuoOf_range r : unitInterval r -> 1 <= chuhuoOf r <= 100.
Proof.
  intros [H0 H1]. unfold chuhuoOf.
  assert (Hlo : (0 <= Qfloor (r * 100))%Z).
  { change 0%Z with (Qfloor 0). apply Qfloor_resp_le.
    apply Qmult_le_0_compat; [exact H0 | discriminate]. }
  assert (Hhi : (Qfloor (r * 100) < 100)%Z).
  { apply Z.lt_nge. intros Hge.
    assert (H : (inject_Z 100 <= r * 100)%Q).
    { eapply Qle_trans; [| apply Qfloor_le]. rewrite <- Zle_Qle. exact Hge. }
    assert (H' : (r * 100 < inject_Z 100)%Q).
    { change (inject_Z 100) with (1 * 100)%Q.
      apply Qmult_lt_compat_r; [reflexivity | exact H1]. }
    exact (Qlt_not_le _ _ H' H). }
  lia.
Qed.

(** Once [currentProb + 2 * n] reaches 100 the second loop returns within
    [n] draws, and its result lies between [xunfang - basePity] and
    [xunfang - basePity + n - 1]. *)
Lemma softPityLoop_returns n : forall basePity xunfang currentProb rs,
  Forall unitInterval rs ->
  (1 <= n)%nat -> 100 <= currentProb + 2 * Z.of_nat n ->
  (n <= length rs)%nat ->
  exists d rs',
    Pity.softPityLoop basePity xunfang currentProb rs = Some (d, rs') /\
    xunfang - basePity <= d <= xunfang - basePity + Z.of_nat n - 1 /\
    (length rs' < length rs <= length rs' + n)%nat.
Proof.
  induction n as [|n IH]; intros basePity xunfang currentProb rs Hrs Hn Hcp Hlen;
    [lia|].
  destruct rs as [|r rs]; [simpl in Hlen; lia|].
  inversion Hrs as [|? ? Hr Hrs']; subst.
  pose proof (chuhuoOf_range r Hr) as Hc.
  cbn [Pity.softPityLoop].
  destruct (Z.leb_spec (chuhuoOf r) (currentProb + 2)) as [Hhit|Hmiss].
  - exists (xunfang - basePity), rs. split; [reflexivity|]. simpl. lia.
  - destruct n as [|n]; [lia|].
    destruct (IH basePity (xunfang + 1) (currentProb + 2) rs Hrs')
      as (d & rs' & Heq & Hd & Hl); [lia | lia | simpl in Hlen; lia |].
    exists d, rs'. split; [exact Heq|]. simpl. lia.
Qed.

(** With the guard [xunfang < 50] false, the first loop is skipped. *)
Lemma flatLoop_skipped basePity xunfang currentProb rs :
  50 <= xunfang ->
  Pity.flatLoop basePity xunfang currentProb rs
  = Pity.softPityLoop basePity xunfang currentProb rs.
Proof.
  intros Hx. destruct rs; cbn [Pity.flatLoop];
    destruct (Z.ltb_spec xunfang 50); try lia; reflexivity.
Qed.

(** The first loop either returns a positive number of draws, at most
    [50 - basePity], or hands over to the second loop at [xunfang = 50]. *)
Lemma flatLoop_returns n : forall basePity xunfang rs,
  Forall unitInterval rs ->
  basePity < 50 -> basePity <= xunfang -> xunfang + Z.of_nat n = 50 ->
  (n + 49 <= length rs)%nat ->
  exists d rs',
    Pity.flatLoop basePity xunfang 2 rs = Some (d, rs') /\
    1 <= d <= 98 - basePity /\
    (length rs' < length rs <= length rs' + (n + 49))%nat.
Proof.
  induction n as [|n IH]; intros basePity xunfang rs Hrs Hb50 Hb Hx Hlen.
  - assert (xunfang = 50) by lia. subst xunfang.
    destruct (softPityLoop_returns 49 basePity 50 2 rs Hrs)
      as (d & rs' & Heq & Hd & Hl); [lia | lia | lia |].
    exists d, rs'. rewrite flatLoop_skipped by lia. split; [exact Heq|]. lia.
  - destruct rs as [|r rs]; [simpl in Hlen; lia|].
    inversion Hrs as [|? ? Hr Hrs']; subst.
    cbn [Pity.flatLoop].
    destruct (Z.ltb_spec xunfang 50) as [_|?]; [|lia].
    destruct (Z.leb_spec (chuhuoOf r) 2) as [Hhit|Hmiss].
    + exists (xunfang + 1 - basePity), rs. split; [reflexivity|]. simpl. lia.
    + destruct (IH basePity (xunfang + 1) rs Hrs')
        as (d & rs' & Heq & Hd & Hl); [lia | lia | lia | simpl in Hlen; lia |].
      exists d, rs'. split; [exact Heq|]. simpl. lia.
Qed.

(** [gatcha] terminates: with at least [100 - basePity] random numbers
    at hand it returns after at most [100 - basePity] draws, and its result
    is at most [100 - basePity]. *)
Lemma gatcha_terminates basePity rs :
  0 <= basePity <= 99 -> Forall unitInterval rs ->
  (Z.to_nat (100 - basePity) <= length rs)%nat ->
  exists d rs',
    Pity.gatcha basePity rs = Some (d, rs') /\
    0 <= d <= 100 - basePity /\
    (length rs' < length rs <= length rs' + Z.to_nat (100 - basePity))%nat.
Proof.
  intros Hb Hrs Hlen. unfold Pity.gatcha.
  destruct (Z.ltb_spec basePity 50) as [Hlt|Hge].
  - destruct (flatLoop_returns (Z.to_nat (50 - basePity)) basePity basePity rs Hrs)
      as (d & rs' & Heq & Hd & Hl); [lia | lia | lia | lia |].
    exists d, rs'. split; [exact Heq|]. lia.
  - rewrite flatLoop_skipped by lia.
    destruct (softPityLoop_returns (Z.to_nat (100 - basePity)) basePity basePity
                (2 + (basePity - 50) * 2) rs Hrs)
      as (d & rs' & Heq & Hd & Hl); [lia | lia | lia |].
    exists d, rs'. split; [exact Heq|]. lia.
Qed.

(** Below the soft-pity threshold the result is positive. *)
Lemma gatcha_positive_below_50 basePity rs d rs' :
  0 <= basePity < 50 -> Forall unitInterval rs ->
  (Z.to_nat (99 - basePity) <= length rs)%nat ->
  Pity.gatcha basePity rs = Some (d, rs') -> 1 <= d <= 98 - basePity.
Proof.
  intros Hb Hrs Hlen Hg. unfold Pity.gatcha in Hg.
  destruct (Z.ltb_spec basePity 50) as [_|?]; [|lia].
  destruct (flatLoop_returns (Z.to_nat (50 - basePity)) basePity basePity rs Hrs)
    as (d0 & rs0 & Heq & Hd & _); [lia | lia | lia | lia |].
  rewrite Heq in Hg. inversion Hg; subst. exact Hd.
Qed.

(** From pity 99 the only possible result is 0. *)
Lemma gatcha_99_is_zero r rs :
  unitInterval r -> Pity.gatcha 99 (r :: rs) = Some (0, rs).
Proof.
  intros Hr. pose proof (chuhuoOf_range r Hr) as Hc.
  change (Pity.gatcha 99 (r :: rs))
    with (if chuhuoOf r <=? 102 then Some (0, rs)
          else Pity.softPityLoop 99 100 102 rs).
  destruct (Z.leb_spec (chuhuoOf r) 102); [reflexivity | lia].
Qed.

(** C1.  [gatcha] does return 0: from [basePity = 50], when the first
    draw is a reward ([Math.random()] = 0, so [chuhuo] = 1), and from
    [basePity = 99] whatever the draw.  The claim that the result lies in
    [[1, 100 - basePity]] for every [basePity] in [[0, 99]] fails there. *)
Theorem gatcha_returns_zero_in_soft_pity :
  Pity.gatcha 50 [0%Q] = Some (0, []) /\
  Pity.gatcha 99 [missDraw] = Some (0, []).
Proof. split; reflexivity. Qed.

Lemma chuhuoOf_missDraw : chuhuoOf missDraw = 100.
Proof. reflexivity. Qed.

Lemma chuhuoOf_percentile v : chuhuoOf (inject_Z (v - 1) / 100) = v.
Proof.
  unfold chuhuoOf.
  assert (H : (inject_Z (v - 1) / 100 * 100 == inject_Z (v - 1))%Q)
    by (field; discriminate).
  rewrite H, Qfloor_Z. lia.
Qed.

Lemma flatLoop_misses n : forall xunfang rs,
  xunfang + Z.of_nat n <= 50 ->
  Pity.flatLoop 0 xunfang 2 (repeat missDraw n ++ rs)
  = Pity.flatLoop 0 (xunfang + Z.of_nat n) 2 rs.
Proof.
  induction n as [|n IH]; intros xunfang rs Hx.
  - cbn [repeat app]. f_equal. lia.
  - cbn [repeat app Pity.flatLoop]. rewrite chuhuoOf_missDraw.
    destruct (Z.ltb_spec xunfang 50); [|lia].
    change (100 <=? 2) with false. cbv iota.
    rewrite IH by lia. f_equal. lia.
Qed.

Lemma softPityLoop_misses n : forall xunfang currentProb rs,
  currentProb + 2 * Z.of_nat n < 100 ->
  Pity.softPityLoop 0 xunfang currentProb (repeat missDraw n ++ rs)
  = Pity.softPityLoop 0 (xunfang + Z.of_nat n)
                      (currentProb + 2 * Z.of_nat n) rs.
Proof.
  induction n as [|n IH]; intros xunfang currentProb rs Hcp.
  - cbn [repeat app]. f_equal; lia.
  - cbn [repeat app Pity.softPityLoop]. rewrite chuhuoOf_missDraw.
    destruct (Z.leb_spec 100 (currentProb + 2)); [lia|].
    rewrite IH by lia. f_equal; lia.
Qed.

Lemma hitsAtPosition_spec (p : nat) v :
  (p <= 98)%nat -> hitsAtPosition p v = (v <=? specHitPercent p).
Proof.
  intros Hp. unfold hitsAtPosition, specHitPercent, Pity.gatcha.
  change (0 <? 50) with true. cbv iota.
  destruct (Nat.ltb_spec p 50) as [Hlt|Hge].
  - rewrite flatLoop_misses by lia. cbn [Pity.flatLoop].
    destruct (Z.ltb_spec (0 + Z.of_nat p) 50); [|lia].
    rewrite chuhuoOf_percentile.
    destruct (v <=? 2); [reflexivity|].
    destruct (0 + Z.of_nat p + 1 <? 50); reflexivity.
  - destruct (Nat.ltb_spec p 99); [|lia].
    replace p with (50 + (p - 50))%nat at 1 by lia.
    rewrite repeat_app, <- app_assoc.
    rewrite flatLoop_misses by lia.
    rewrite flatLoop_skipped by lia.
    rewrite softPityLoop_misses by lia.
    cbn [Pity.softPityLoop]. rewrite chuhuoOf_percentile.
    replace (2 + 2 * Z.of_nat (p - 50) + 2) with (2 + 2 * (Z.of_nat p - 49)) by lia.
    rewrite Z.min_r by lia.
    destruct (v <=? 2 + 2 * (Z.of_nat p - 49)); reflexivity.
Qed.

Lemma count_at_most k :
  0 <= k <= 100 ->
  length (List.filter (fun v => v <=? k) (map Z.of_nat (seq 1 100)))
  = Z.to_nat k.
Proof.
  intros Hk.
  assert (H : forallb (fun n =>
                Nat.eqb (length (List.filter (fun v => v <=? Z.of_nat n)
                                             (map Z.of_nat (seq 1 100)))) n)
                      (seq 0 101) = true) by (vm_compute; reflexivity).
  rewrite forallb_forall in H.
  specialize (H (Z.to_nat k)). rewrite Z2Nat.id in H by lia.
  apply Nat.eqb_eq, H, in_seq. lia.
Qed.

(** [gatcha] follows the probability model of the specification at every
    pity position it can reach: 2% up to position 49, then
    [2 + 2 * (p - 49)] percent, which is 100% at position 98. *)
Lemma gatcha_follows_model p :
  (p <= 98)%nat -> Z.of_nat (gatchaHitPercent p) = specHitPercent p.
Proof.
  intros Hp. unfold gatchaHitPercent.
  rewrite (List.filter_ext _ (fun v => v <=? specHitPercent p))
    by (intros v; apply hitsAtPosition_spec, Hp).
  assert (Hr : 0 <= specHitPercent p <= 100).
  { unfold specHitPercent. destruct (Nat.ltb_spec p 50); [lia|].
    destruct (Nat.ltb_spec p 99); lia. }
  rewrite count_at_most by exact Hr. lia.
Qed.

(** ** The probability lookup table *)

(** C2.  At pity position 50 the PMF construction of
    [buildProbabilityLookupTable] uses a reward probability of 6%
    ([0.02 + 0.02 * (50 - 48)]), where [gatcha] and the stated model
    use 4%; the table does not encode the per-draw probabilities of
    [gatcha]. *)
Theorem table_probability_differs_from_gatcha :
  (GPUManager.hitProbability 50 == 6 # 100)%Q /\
  gatchaHitPercent 50 = 4%nat /\
  specHitPercent 50 = 4 /\
  (nth 50 GPUManager.buildPMF 0 == (49 # 50) ^ 50 * (6 # 100))%Q.
Proof. vm_compute. repeat split. Qed.

(** Between positions 50 and 96 the table is two percentage points above
    [gatcha] throughout, and it guarantees the reward one position
    earlier (97 instead of 98). *)
Lemma table_probability_offset p :
  (50 <= p <= 96)%nat ->
  (GPUManager.hitProbability p
   == inject_Z (Z.of_nat (gatchaHitPercent p) + 2) / 100)%Q.
Proof.
  intros Hp. rewrite gatcha_follows_model by lia.
  assert (H : forallb (fun p =>
                Qeq_bool (GPUManager.hitProbability p)
                         (inject_Z (specHitPercent p + 2) / 100))
                      (seq 50 47) = true) by (vm_compute; reflexivity).
  rewrite forallb_forall in H.
  apply Qeq_bool_eq, H, in_seq. lia.
Qed.

Lemma nondecreasingb_spec (l : list Q) :
  nondecreasingb l = true <->
  forall i x y, l !! i = Some x -> l !! S i = Some y -> (x <= y)%Q.
Proof.
  induction l as [|a [|b t] IH].
  - split; [intros _ i x y Hx; destruct i; discriminate | reflexivity].
  - split; [intros _ i x y Hx Hy; destruct i; discriminate | reflexivity].
  - change (nondecreasingb (a :: b :: t))
      with (Qle_bool a b && nondecreasingb (b :: t)).
    rewrite andb_true_iff, Qle_bool_iff, IH. split.
    + intros [Hab Ht] [|i] x y Hx Hy.
      * cbn in Hx, Hy. congruence.
      * exact (Ht i x y Hx Hy).
    + intros H. split.
      * exact (H 0%nat a b eq_refl eq_refl).
      * intros i x y Hx Hy. exact (H (S i) x y Hx Hy).
Qed.

(** Dividing by a factor in (0, 1] does not decrease a non-negative cell
    and keeps the order of cells. *)
Lemma rescale_grows (x f : Q) :
  (0 <= x)%Q -> (0 < f)%Q -> (f <= 1)%Q -> (x <= GPUManager.cell (x / f))%Q.
Proof.
  intros Hx Hf Hf1. unfold GPUManager.cell. rewrite Qred_correct.
  apply Qle_shift_div_l; [exact Hf|].
  rewrite <- (Qmult_1_r x) at 2.
  rewrite (Qmult_comm x f), (Qmult_comm x 1).
  apply Qmult_le_compat_r; assumption.
Qed.

Lemma rescale_monotone (x y f : Q) :
  (0 < f)%Q -> (x <= y)%Q ->
  (GPUManager.cell (x / f) <= GPUManager.cell (y / f))%Q.
Proof.
  intros Hf Hxy. unfold GPUManager.cell. rewrite !Qred_correct.
  apply Qmult_le_compat_r; [exact Hxy|].
  apply Qinv_le_0_compat, Qlt_le_weak, Hf.
Qed.

(** Re-scaling the tail of a non-negative, non-decreasing table whose
    cells before [basePity] are below 1 leaves it non-decreasing. *)
Lemma rescaleTail_nondecreasing (T : list Q) basePity :
  0 < basePity -> (Z.to_nat basePity < length T)%nat ->
  nondecreasingb T = true ->
  forallb (Qle_bool 0) T = true ->
  forallb (fun c => negb (Qle_bool 1 c)) (take (Z.to_nat basePity) T) = true ->
  nondecreasingb (GPUManager.rescaleTail T basePity) = true.
Proof.
  intros Hb0 Hlen Hmono Hpos Hlt.
  unfold GPUManager.rescaleTail.
  destruct (Z.ltb_spec 0 basePity) as [_|?]; [|lia].
  rewrite nondecreasingb_spec in Hmono.
  rewrite forallb_forall in Hpos. rewrite forallb_forall in Hlt.
  set (b := Z.to_nat basePity) in *.
  assert (Hb1 : (1 <= b)%nat) by lia.
  clearbody b. clear Hb0.
  set (f := (1 - nth (b - 1) T 0)%Q).
  assert (Hnonneg : forall i x, T !! i = Some x -> (0 <= x)%Q).
  { intros i x Hx. apply Qle_bool_iff, Hpos, list_elem_of_In.
    eapply list_elem_of_lookup_2, Hx. }
  assert (Hf : (0 < f)%Q /\ (f <= 1)%Q).
  { unfold f. rewrite nth_lookup.
    destruct (lookup_lt_is_Some_2 T (b - 1)) as [c Hc]; [lia|].
    rewrite Hc. cbn [default]. split.
    - assert (Hc1 : negb (Qle_bool 1 c) = true).
      { apply Hlt, list_elem_of_In.
        apply (list_elem_of_lookup_2 _ (b - 1)).
        rewrite lookup_take_lt by lia. exact Hc. }
      apply negb_true_iff in Hc1.
      destruct (Qlt_le_dec c 1) as [Hl|Hl];
        [|apply Qle_bool_iff in Hl; congruence].
      apply Qlt_minus_iff in Hl. exact Hl.
    - pose proof (Hnonneg _ _ Hc) as H0.
      apply Qle_minus_iff. setoid_replace (1 + - (1 - c))%Q with c using relation Qeq by ring.
      exact H0. }
  destruct Hf as [Hf Hf1].
  apply nondecreasingb_spec. intros i x y Hx Hy.
  change (map ?g ?l) with (g <$> l) in Hx, Hy.
  destruct (Nat.lt_ge_cases (S i) b) as [Hi|Hi].
  - rewrite lookup_app_l in Hx by (rewrite length_take; lia).
    rewrite lookup_app_l in Hy by (rewrite length_take; lia).
    rewrite lookup_take_lt in Hx by lia.
    rewrite lookup_take_lt in Hy by lia.
    exact (Hmono i x y Hx Hy).
  - rewrite lookup_app_r in Hy by (rewrite length_take; lia).
    rewrite length_take, list_lookup_fmap, lookup_drop in Hy.
    replace (b + (S i - b `min` length T))%nat with (S i) in Hy by lia.
    destruct (T !! S i) as [y0|] eqn:Hy0; [|discriminate].
    cbn in Hy. injection Hy as <-.
    destruct (Nat.eq_dec (S i) b) as [Heq|Hne].
    + rewrite lookup_app_l in Hx by (rewrite length_take; lia).
      rewrite lookup_take_lt in Hx by lia.
      eapply Qle_trans; [exact (Hmono i x y0 Hx Hy0)|].
      apply rescale_grows; eauto.
    + rewrite lookup_app_r in Hx by (rewrite length_take; lia).
      rewrite length_take, list_lookup_fmap, lookup_drop in Hx.
      replace (b + (i - b `min` length T))%nat with i in Hx by lia.
      destruct (T !! i) as [x0|] eqn:Hx0; [|discriminate].
      cbn in Hx. injection Hx as <-.
      apply rescale_monotone; [exact Hf|]. exact (Hmono i x0 y0 Hx0 Hy0).
Qed.

(** What one evaluation of the normalised CDF establishes. *)
Lemma buildCDF_facts :
  length GPUManager.buildCDF = 100%nat /\
  nondecreasingb GPUManager.buildCDF = true /\
  forallb (Qle_bool 0) GPUManager.buildCDF = true /\
  forallb (fun c => negb (Qle_bool 1 c)) (take 97 GPUManager.buildCDF) = true /\
  nth 0 GPUManager.buildCDF 0%Q = (1 # 50)%Q /\
  nth 99 GPUManager.buildCDF 0%Q = 1%Q.
Proof. vm_compute. repeat split. Qed.

Lemma rescaleTail_without_basePity (T : list Q) : GPUManager.rescaleTail T 0 = T.
Proof. reflexivity. Qed.

Lemma rescaleTail_length (T : list Q) basePity :
  length (GPUManager.rescaleTail T basePity) = length T.
Proof.
  unfold GPUManager.rescaleTail. destruct (0 <? basePity); [|reflexivity].
  rewrite length_app, length_map, length_take, length_drop. lia.
Qed.

(** A cell at or after [basePity] holds the CDF cell divided by
    [1 - CDF(basePity - 1)]. *)
Lemma rescaleTail_nth (T : list Q) basePity (i : nat) :
  0 < basePity -> (Z.to_nat basePity <= i < length T)%nat ->
  nth i (GPUManager.rescaleTail T basePity) 0%Q
  = GPUManager.cell
      (nth i T 0 / (1 - nth (Z.to_nat basePity - 1) T 0))%Q.
Proof.
  intros Hb Hi. unfold GPUManager.rescaleTail.
  destruct (Z.ltb_spec 0 basePity); [|lia].
  set (b := Z.to_nat basePity) in *.
  rewrite !nth_lookup.
  change (map ?g ?l) with (g <$> l).
  rewrite lookup_app_r by (rewrite length_take; lia).
  rewrite length_take, list_lookup_fmap, lookup_drop.
  replace (b + (i - b `min` length T))%nat with i by lia.
  destruct (lookup_lt_is_Some_2 T i) as [x Hx]; [lia|].
  rewrite Hx. reflexivity.
Qed.

Lemma gachaTable_length basePity :
  length (GPUManager.buildGachaTable basePity) = 100%nat.
Proof.
  unfold GPUManager.buildGachaTable. rewrite rescaleTail_length.
  apply buildCDF_facts.
Qed.

Lemma gachaTable_normalised_without_basePity :
  nth 99 (GPUManager.buildGachaTable 0) 0%Q = 1%Q.
Proof.
  unfold GPUManager.buildGachaTable. rewrite rescaleTail_without_basePity.
  apply buildCDF_facts.
Qed.

(** The table never decreases, whatever the base pity (up to 97, beyond
    which the re-scaling divides by zero). *)
Lemma gachaTable_nondecreasing basePity :
  0 <= basePity <= 97 ->
  nondecreasingb (GPUManager.buildGachaTable basePity) = true.
Proof.
  intros Hb.
  destruct buildCDF_facts as (Hlen & Hmono & Hpos & Hlt & _).
  unfold GPUManager.buildGachaTable.
  revert Hlen Hmono Hpos Hlt. generalize GPUManager.buildCDF.
  intros T Hlen Hmono Hpos Hlt.
  destruct (Z.eq_dec basePity 0) as [->|Hne]; [exact Hmono|].
  apply rescaleTail_nondecreasing; [lia | lia | exact Hmono | exact Hpos |].
  rewrite forallb_forall in Hlt. apply forallb_forall. intros c Hc.
  apply Hlt. apply list_elem_of_In. apply list_elem_of_In in Hc.
  apply list_elem_of_lookup in Hc as [i Hi].
  apply (list_elem_of_lookup_2 _ i).
  pose proof (lookup_lt_Some _ _ _ Hi) as Hlt'. rewrite length_take in Hlt'.
  rewrite lookup_take_lt in Hi by lia. rewrite lookup_take_lt by lia. exact Hi.
Qed.

(** C5.  With [basePity = 1] the re-scaled table ends at
    [1 / (1 - 0.02) = 50/49], not at 1: dividing the tail by
    [1 - CDF(basePity - 1)] does not normalise it. *)
Theorem gachaTable_not_normalised_with_basePity :
  nth 99 (GPUManager.buildGachaTable 1) 0%Q = (50 # 49)%Q /\
  ~ (nth 99 (GPUManager.buildGachaTable 1) 0 == 1)%Q.
Proof.
  assert (H : nth 99 (GPUManager.buildGachaTable 1) 0%Q = (50 # 49)%Q).
  { destruct buildCDF_facts as (Hlen & _ & _ & _ & H0 & H99).
    unfold GPUManager.buildGachaTable.
    rewrite rescaleTail_nth by (rewrite ?Hlen; lia).
    change (Z.to_nat 1 - 1)%nat with 0%nat. rewrite H0, H99. reflexivity. }
  split; [exact H|]. rewrite H. discriminate.
Qed.

Lemma omap_repeat {A B} (f : A -> option B) x y n :
  f x = Some y -> omap f (repeat x n) = repeat y n.
Proof.
  intros Hf. induction n as [|n IH]; [reflexivity|].
  cbn [repeat]. change (omap f (x :: repeat x n))
    with (match f x with Some b => b :: omap f (repeat x n)
                       | None => omap f (repeat x n) end).
  rewrite Hf, IH. reflexivity.
Qed.

(** A lane whose first random number is 0 hits at the first pity position
    (the first cell of the table is 1/50), and with a single operator the
    operator CDF is the single cell 1. *)
Lemma runSimulation_certain_lanes target n :
  GPUManager.runSimulation
    (WorkerManager.newOperatorConfig
       [("A"%string, {| weight := 1; target := target |})] 0)
    (repeat certainLane n)
  = repeat firstDrawA n.
Proof.
  unfold GPUManager.runSimulation, GPUManager.buildProbabilityLookupTable,
    GPUManager.generateGachaDifferences, GPUManager.generateOperatorDifferences.
  cbn [gachaTable operatorWeights operatorCount gpuBasePity
       WorkerManager.newOperatorConfig].
  unfold GPUManager.buildGachaTable. rewrite rescaleTail_without_basePity.
  destruct buildCDF_facts as (Hlen & _ & _ & _ & H0 & _).
  revert Hlen H0. generalize GPUManager.buildCDF. intros T Hlen H0.
  destruct T as [|t0 rest]; [discriminate|]. cbn in H0. subst t0.
  apply omap_repeat. vm_compute. reflexivity.
Qed.

(** ** The trial runner *)

(** Every call of [gatcha] that returns has consumed a random number. *)
Lemma softPityLoop_consumes rs : forall basePity xunfang currentProb d rs',
  Pity.softPityLoop basePity xunfang currentProb rs = Some (d, rs') ->
  (length rs' < length rs)%nat.
Proof.
  induction rs as [|r rs IH]; intros basePity xunfang currentProb d rs';
    cbn [Pity.softPityLoop]; [discriminate|].
  destruct (chuhuoOf r <=? currentProb + 2).
  - intros [= _ <-]. cbn. lia.
  - intros H. apply IH in H. cbn. lia.
Qed.

Lemma flatLoop_consumes rs : forall basePity xunfang currentProb d rs',
  Pity.flatLoop basePity xunfang currentProb rs = Some (d, rs') ->
  (length rs' < length rs)%nat.
Proof.
  induction rs as [|r rs IH]; intros basePity xunfang currentProb d rs';
    cbn [Pity.flatLoop]; destruct (xunfang <? 50); try discriminate.
  - destruct (chuhuoOf r <=? currentProb).
    + intros [= _ <-]. cbn. lia.
    + intros H. apply IH in H. cbn. lia.
  - apply softPityLoop_consumes.
Qed.

Lemma gatcha_consumes basePity rs d rs' :
  Pity.gatcha basePity rs = Some (d, rs') -> (length rs' < length rs)%nat.
Proof. apply flatLoop_consumes. Qed.

(** The fuel given to the draw loop, the number of random numbers, is
    enough: more fuel does not change the result. *)
Lemma drawLoop_fuel_enough fuel :
  forall operatorConfig operators weights total currentPity statistic rs,
    (length rs <= fuel)%nat ->
    Gacha.drawLoop (S fuel) operatorConfig operators weights total currentPity
                   statistic rs
    = Gacha.drawLoop fuel operatorConfig operators weights total currentPity
                     statistic rs.
Proof.
  induction fuel as [|fuel IH];
    intros operatorConfig operators weights total currentPity statistic rs Hlen.
  - destruct rs; [|cbn in Hlen; lia].
    cbn [Gacha.drawLoop]. destruct (Gacha.checkCompletion _ _); [reflexivity|].
    unfold Pity.gatcha. cbn [Pity.flatLoop].
    destruct (currentPity <? 50); reflexivity.
  - change (Gacha.drawLoop (S (S fuel)) operatorConfig operators weights total
              currentPity statistic rs)
      with (if Gacha.checkCompletion operatorConfig statistic
            then Some {| total := total; statistic := statistic |}
            else match Pity.gatcha currentPity rs with
                 | None => None
                 | Some (drawsThisRound, rs1) =>
                     match rs1 with
                     | [] => None
                     | r :: rs2 =>
                         Gacha.drawLoop (S fuel) operatorConfig operators weights
                           (total + drawsThisRound) 0
                           match Gacha.weightedChoice operators weights r with
                           | Some selectedOperator =>
                               <[selectedOperator :=
                                   S (countOf statistic selectedOperator)]> statistic
                           | None => statistic
                           end rs2
                     end
                 end).
    cbn [Gacha.drawLoop].
    destruct (Gacha.checkCompletion _ _); [reflexivity|].
    destruct (Pity.gatcha currentPity rs) as [[d rs1]|] eqn:Hg; [|reflexivity].
    destruct rs1 as [|r rs2]; [reflexivity|].
    apply gatcha_consumes in Hg. cbn in Hg.
    apply IH. lia.
Qed.

(** On a non-empty array [weightedChoice] returns one of the items, so the
    loop never updates [statistic[undefined]]. *)
Lemma weightedChoice_nonempty {T} (items : list T) weights r :
  items <> [] -> is_Some (Gacha.weightedChoice items weights r).
Proof.
  intros Hne. unfold Gacha.weightedChoice.
  destruct (Gacha.weightedWalk _ _ _); [eexists; reflexivity|].
  destruct (last items) eqn:Hl; [eexists; reflexivity|].
  apply last_None in Hl. contradiction.
Qed.

Lemma checkCompletion_zero_quotas (operatorConfig : OperatorConfig) statistic :
  Forall (fun oe => target oe.2 = 0%nat) operatorConfig ->
  Gacha.checkCompletion operatorConfig statistic = true.
Proof.
  intros H. unfold Gacha.checkCompletion. apply forallb_forall.
  intros [op e] Hin. rewrite Forall_forall in H.
  apply list_elem_of_In in Hin. specialize (H _ Hin). cbn in H.
  rewrite H. reflexivity.
Qed.

(** When every target quota is 0 the completion check succeeds before the
    first draw: [chouShuTongJi] (in [gacha.ts] and in the worker script
    alike) does not enter its loop, consumes no random number and returns
    [total = 0] with every count at 0. *)
Lemma zero_quota_trial_draws_nothing (operatorConfig : OperatorConfig)
    (basePity : Z) (rs : list Q) :
  operatorConfig <> [] ->
  Forall (fun oe => target oe.2 = 0%nat) operatorConfig ->
  let result :=
    {| total := 0;
       statistic := Gacha.initStatistic (map fst operatorConfig) |} in
  Gacha.chouShuTongJi (Some operatorConfig) basePity rs = Some result /\
  SimulationWorker.chouShuTongJi operatorConfig basePity rs
  = Some (inr result).
Proof.
  intros Hne Hzero result.
  assert (Hrun : Gacha.runTrial operatorConfig basePity rs = Some result).
  { unfold Gacha.runTrial.
    destruct (length rs); cbn [Gacha.drawLoop];
      rewrite checkCompletion_zero_quotas by exact Hzero; reflexivity. }
  split.
  - exact Hrun.
  - unfold SimulationWorker.chouShuTongJi.
    destruct operatorConfig; [congruence|]. rewrite Hrun. reflexivity.
Qed.

(** With every quota 0 the trial returns no positive number of draws,
    however many random numbers it is given. *)
Lemma zero_quota_trial_has_no_draw :
  ~ (exists result,
       Gacha.chouShuTongJi (Some zeroQuotaConfig) 0 (repeat missDraw 200)
       = Some result /\ 1 <= total result).
Proof.
  intros (result & Hrun & Hpos).
  vm_compute in Hrun. injection Hrun as <-. cbn in Hpos. lia.
Qed.

(** ** Sums over buckets and counters *)
Section SumValues.
Context `{Countable K}.
Implicit Types m : gmap K nat.

Lemma sumValues_empty : sumValues (∅ : gmap K nat) = 0%nat.
Proof. apply map_fold_empty. Qed.

Lemma sumValues_insert_fresh m k v :
  m !! k = None -> sumValues (<[k := v]> m) = (v + sumValues m)%nat.
Proof.
  intros Hk. unfold sumValues.
  rewrite map_fold_insert_L; [reflexivity | intros; cbn; lia | exact Hk].
Qed.

Lemma sumValues_lookup m k c :
  m !! k = Some c -> sumValues m = (c + sumValues (delete k m))%nat.
Proof.
  intros Hk. unfold sumValues.
  rewrite (map_fold_delete_L _ _ k c m); [reflexivity | intros; cbn; lia | exact Hk].
Qed.

Lemma sumValues_insert m k v :
  (sumValues (<[k := v]> m) + default 0 (m !! k) = v + sumValues m)%nat.
Proof.
  destruct (m !! k) as [c|] eqn:Hk; cbn [default].
  - rewrite <- (insert_delete_eq m k v).
    rewrite sumValues_insert_fresh by apply lookup_delete_eq.
    rewrite (sumValues_lookup m k c Hk). unfold id. lia.
  - rewrite sumValues_insert_fresh by exact Hk. lia.
Qed.
End SumValues.

Lemma bumpBucket_insert (bucket : gmap Z nat) draws :
  WorkerManager.bumpBucket bucket draws
  = <[draws := S (default 0%nat (bucket !! draws))]> bucket.
Proof.
  unfold WorkerManager.bumpBucket.
  destruct (bucket !! draws) as [[|c]|]; reflexivity.
Qed.

Lemma sumValues_bumpBucket (bucket : gmap Z nat) draws :
  sumValues (WorkerManager.bumpBucket bucket draws) = S (sumValues bucket).
Proof.
  rewrite bumpBucket_insert.
  pose proof (sumValues_insert bucket draws (S (default 0%nat (bucket !! draws)))).
  lia.
Qed.


(** ** The worker-pool run keeps its invariant *)

Lemma foldOutcome_sum task result :
  sumValues (task_drawsBucket task) = task_completedSimulations task ->
  sumValues (task_drawsBucket (WorkerManager.foldOutcome task result))
  = task_completedSimulations (WorkerManager.foldOutcome task result).
Proof. intros H. cbn. rewrite sumValues_bumpBucket, H. reflexivity. Qed.

Lemma assignNextSimulation_invariant N m :
  cpuInvariant N 0 m -> cpuInvariant N 0 (WorkerManager.assignNextSimulation m).
Proof.
  intros [Htask Hres]. unfold WorkerManager.assignNextSimulation.
  destruct (activeTask m) as [task|] eqn:Ht; [|split; [rewrite Ht|]; assumption].
  destruct (task_pendingSimulations task) as [|i pending] eqn:Hp;
    [split; [rewrite Ht|]; assumption|].
  destruct (availableWorkers m) as [|w ws];
    [split; [rewrite Ht|]; assumption|].
  destruct (Htask task eq_refl) as (Htot & Hsum & Hroom).
  split; cbn.
  - intros task' [= <-]. cbn. rewrite length_app. rewrite Hp in Hroom.
    cbn in Hroom |- *. repeat split; [assumption | assumption | lia].
  - exact Hres.
Qed.

Lemma completeTask_invariant N m task :
  activeTask m = Some task ->
  task_totalSimulations task = N ->
  sumValues (task_drawsBucket task) = N ->
  cpuInvariant N 0 (WorkerManager.completeTask m).
Proof.
  intros Ht Htot Hsum. unfold WorkerManager.completeTask. rewrite Ht.
  split; cbn.
  - discriminate.
  - intros s [= <-]. cbn. split; assumption.
Qed.

(** [assignNextSimulation] only moves a pending index to a worker: the
    aggregate fields of the task and the promise are untouched. *)
Lemma assignNextSimulation_task m task :
  activeTask m = Some task ->
  exists task',
    activeTask (WorkerManager.assignNextSimulation m) = Some task' /\
    task_totalSimulations task' = task_totalSimulations task /\
    task_completedSimulations task' = task_completedSimulations task /\
    task_drawsBucket task' = task_drawsBucket task /\
    task_characterCounts task' = task_characterCounts task /\
    task_operatorConfig task' = task_operatorConfig task /\
    task_basePity task' = task_basePity task.
Proof.
  intros Ht. unfold WorkerManager.assignNextSimulation. rewrite Ht.
  destruct (task_pendingSimulations task); [exists task; tauto|].
  destruct (availableWorkers m); [exists task; tauto|].
  eexists. split; [reflexivity|]. cbn. tauto.
Qed.


Lemma handleWorkerComplete_invariant N workerId result m :
  cpuInvariant N 1 m ->
  cpuInvariant N 0 (WorkerManager.handleWorkerComplete workerId result m).
Proof.
  intros [Htask Hres]. unfold WorkerManager.handleWorkerComplete.
  destruct (activeTask m) as [task|] eqn:Ht.
  2:{ split; [rewrite Ht; discriminate | exact Hres]. }
  destruct (Htask task eq_refl) as (Htot & Hsum & Hroom).
  set (m1 := {| availableWorkers := _ |}).
  assert (Hinv1 : cpuInvariant N 0 m1).
  { split; cbn.
    - intros task' [= <-]. cbn. rewrite sumValues_bumpBucket.
      repeat split; [assumption | lia | lia].
    - exact Hres. }
  apply assignNextSimulation_invariant in Hinv1.
  destruct (Nat.leb_spec (task_totalSimulations (WorkerManager.foldOutcome task result))
              (task_completedSimulations (WorkerManager.foldOutcome task result)))
    as [Hdone|Hmore]; [|exact Hinv1].
  destruct (assignNextSimulation_task m1 _ eq_refl)
    as (task1 & Ht1 & Htot1 & Hcomp1 & Hb1 & _).
  destruct Hinv1 as [Htask1 _].
  destruct (Htask1 task1 Ht1) as (HtotN & Hsum1 & Hroom1).
  apply (completeTask_invariant N _ task1 Ht1 HtotN).
  cbn in Hdone, Hcomp1, Htot1. lia.
Qed.

Lemma handleWorkerError_invariant N slack error m :
  cpuInvariant N slack m ->
  cpuInvariant N 0 (WorkerManager.handleWorkerError error m).
Proof.
  intros [Htask Hres]. unfold WorkerManager.handleWorkerError.
  destruct (activeTask m) as [task|] eqn:Ht.
  - split; cbn; discriminate.
  - split; [rewrite Ht; discriminate | exact Hres].
Qed.

Lemma find_filter_shorter (workerId : nat) (l : list WorkerTask) wt :
  List.find (fun wt => (wt_workerId wt =? workerId)%nat) l = Some wt ->
  (length (filter (fun wt => wt_workerId wt ≠ workerId) l) < length l)%nat.
Proof.
  induction l as [|h t IH]; [discriminate|].
  cbn [List.find]. rewrite filter_cons.
  destruct (Nat.eqb_spec (wt_workerId h) workerId) as [Heq|Hne].
  - intros _. rewrite decide_False by (intros Hc; exact (Hc Heq)).
    cbn. pose proof (length_filter (fun wt => wt_workerId wt ≠ workerId) t). lia.
  - intros Hf. rewrite decide_True by exact Hne. cbn. specialize (IH Hf). lia.
Qed.

Lemma deliver_invariant N rngs workerId m m' :
  cpuInvariant N 0 m ->
  WorkerManager.deliver rngs workerId m = Some m' -> cpuInvariant N 0 m'.
Proof.
  intros [Htask Hres]. unfold WorkerManager.deliver.
  destruct (List.find _ (posted m)) as [wt|] eqn:Hfind; [|discriminate].
  destruct (SimulationWorker.onmessage _ _ _ _) as [msg|]; [|discriminate].
  intros [= <-].
  pose proof (find_filter_shorter _ _ _ Hfind) as Hshort.
  set (m1 := {| availableWorkers := _ |}).
  assert (Hinv1 : cpuInvariant N 1 m1).
  { split; cbn.
    - intros task Ht. destruct (Htask task Ht) as (Htot & Hsum & Hroom).
      repeat split; [assumption | assumption | lia].
    - exact Hres. }
  destruct msg as [w result|error]; cbn.
  - apply handleWorkerComplete_invariant, Hinv1.
  - eapply handleWorkerError_invariant, Hinv1.
Qed.

Lemma run_invariant N rngs schedule : forall m m',
  cpuInvariant N 0 m ->
  WorkerManager.run rngs schedule m = Some m' -> cpuInvariant N 0 m'.
Proof.
  induction schedule as [|w schedule IH]; intros m m' Hinv; cbn.
  - intros [= <-]. exact Hinv.
  - destruct (WorkerManager.deliver rngs w m) as [m1|] eqn:Hd; [|discriminate].
    apply IH. eapply deliver_invariant; eassumption.
Qed.

Lemma runCPUSimulation_invariant workerCount N operatorConfig basePity :
  cpuInvariant N 0
    (WorkerManager.runCPUSimulation workerCount N operatorConfig basePity).
Proof.
  unfold WorkerManager.runCPUSimulation.
  set (m := {| availableWorkers := _ |}).
  generalize (Nat.min (length (availableWorkers m)) N). intros n.
  induction n as [|n IH]; cbn [Nat.iter].
  - split; cbn.
    + intros task [= <-]. cbn. rewrite sumValues_empty, length_seq.
      repeat split; lia.
    + discriminate.
  - apply assignNextSimulation_invariant, IH.
Qed.

(** ** The GPU driver loop keeps its invariant *)

Lemma trialLoop_sum operatorConfig N : forall results operator totalDraws st,
  sumValues (gpu_drawsBucket st) = currentSim st ->
  sumValues (gpu_drawsBucket
               (WorkerManager.trialLoop operatorConfig N operator totalDraws
                                        results st).2)
  = currentSim (WorkerManager.trialLoop operatorConfig N operator totalDraws
                                        results st).2.
Proof.
  induction results as [|result results IH]; intros operator totalDraws st Hsum;
    cbn [WorkerManager.trialLoop]; [exact Hsum|].
  destruct (forallb _ operatorConfig).
  - cbn [fst snd gpu_drawsBucket currentSim].
    match goal with
    | |- sumValues (<[?k := ?v]> ?b) = _ =>
        pose proof (sumValues_insert b k v) as Hins
    end.
    lia.
  - apply IH. exact Hsum.
Qed.

Lemma trialLoop_invariant operatorConfig N : forall results operator totalDraws st,
  sumValues (gpu_drawsBucket st) = currentSim st ->
  (currentSim st < N)%nat ->
  gpuInvariant N
    (WorkerManager.trialLoop operatorConfig N operator totalDraws results st).1
    (WorkerManager.trialLoop operatorConfig N operator totalDraws results st).2
  /\ (length (WorkerManager.trialLoop operatorConfig N operator totalDraws
                                      results st).1
      <= pred (length results))%nat.
Proof.
  induction results as [|result results IH]; intros operator totalDraws st Hsum Hlt;
    cbn [WorkerManager.trialLoop].
  - cbn. split; [|lia]. split; [exact Hsum|]. split; [lia|]. congruence.
  - destruct (forallb _ operatorConfig).
    + unfold gpuInvariant. cbn [fst snd gpu_drawsBucket currentSim].
      match goal with
      | |- context [sumValues (<[?k := ?v]> ?b)] =>
          pose proof (sumValues_insert b k v) as Hins
      end.
      destruct (Nat.leb_spec N (S (currentSim st))) as [Hdone|Hmore];
        cbn [length pred].
      * split; [|lia]. split; [lia|]. split; [lia|]. congruence.
      * split; [|lia]. split; [lia|]. split; [lia|]. intros _. lia.
    + match goal with
      | |- context [WorkerManager.trialLoop _ _ ?op ?td _ ?st'] =>
          destruct (IH op td st' Hsum Hlt) as [Hinv Hlen]
      end.
      split; [exact Hinv|]. cbn. lia.
Qed.

Lemma batchLoop_invariant operatorConfig N : forall fuel results st,
  gpuInvariant N results st -> (length results <= fuel)%nat ->
  (WorkerManager.batchLoop fuel operatorConfig N results st).1 = [] /\
  gpuInvariant N []
    (WorkerManager.batchLoop fuel operatorConfig N results st).2.
Proof.
  induction fuel as [|fuel IH]; intros results st Hinv Hlen.
  - destruct results; [|cbn in Hlen; lia]. cbn. split; [reflexivity|exact Hinv].
  - cbn [WorkerManager.batchLoop].
    destruct results as [|result results].
    + cbn. split; [reflexivity|exact Hinv].
    + destruct Hinv as (Hsum & Hle & Hlt).
      specialize (Hlt ltac:(discriminate)).
      pose proof (trialLoop_invariant operatorConfig N (result :: results)
                    (WorkerManager.freshOperator operatorConfig) 0 st Hsum Hlt)
        as [Hinv' Hlen'].
      destruct (WorkerManager.trialLoop _ _ _ _ _ _) as [results' st'].
      cbn [fst snd] in Hinv', Hlen'.
      apply IH; [exact Hinv'|]. cbn in Hlen, Hlen'. lia.
Qed.

Lemma processResults_invariant operatorConfig N results st :
  sumValues (gpu_drawsBucket st) = currentSim st ->
  (currentSim st < N)%nat ->
  sumValues (gpu_drawsBucket
               (WorkerManager.processResults operatorConfig N results st))
  = currentSim (WorkerManager.processResults operatorConfig N results st) /\
  (currentSim (WorkerManager.processResults operatorConfig N results st) <= N)%nat.
Proof.
  intros Hsum Hlt. unfold WorkerManager.processResults.
  destruct (batchLoop_invariant operatorConfig N (length results) (rev results) st)
    as [_ (H1 & H2 & _)].
  - split; [exact Hsum|]. split; [lia|]. intros _. exact Hlt.
  - rewrite length_rev. lia.
  - split; assumption.
Qed.

(** The batch loop never leaves a result unprocessed: the fuel given to
    it (the number of results) is enough. *)
Lemma processResults_drains operatorConfig N results st :
  sumValues (gpu_drawsBucket st) = currentSim st ->
  (currentSim st < N)%nat ->
  (WorkerManager.batchLoop (length results) operatorConfig N (rev results) st).1
  = [].
Proof.
  intros Hsum Hlt.
  apply batchLoop_invariant; [|rewrite length_rev; lia].
  split; [exact Hsum|]. split; [lia|]. intros _. exact Hlt.
Qed.

Lemma gpuLoop_returns operatorConfig N basePity : forall device st s,
  sumValues (gpu_drawsBucket st) = currentSim st ->
  (currentSim st <= N)%nat ->
  WorkerManager.gpuLoop operatorConfig N basePity device st = Returned s ->
  sumValues (drawsBucket s) = N /\ totalSimulations s = N.
Proof.
  induction device as [|batch device IH]; intros st s Hsum Hle;
    cbn [WorkerManager.gpuLoop];
    destruct (Nat.ltb_spec (currentSim st) N) as [Hlt|Hge].
  - discriminate.
  - intros [= <-]. cbn. split; [lia|reflexivity].
  - destruct batch as [randomNumbers|]; [|discriminate].
    destruct (processResults_invariant operatorConfig N
                (GPUManager.runSimulation
                   (WorkerManager.newOperatorConfig operatorConfig basePity)
                   randomNumbers) st Hsum Hlt) as [Hsum' Hle'].
    apply IH; assumption.
  - intros [= <-]. cbn. split; [lia|reflexivity].
Qed.

Lemma gpuAttempt_returns N operatorConfig basePity device s :
  WorkerManager.gpuAttempt N operatorConfig basePity device = Returned s ->
  sumValues (drawsBucket s) = N /\ totalSimulations s = N.
Proof.
  apply gpuLoop_returns; cbn; [apply sumValues_empty | lia].
Qed.

Lemma cpuPromise_resolved workerCount N operatorConfig basePity rngs schedule s :
  WorkerManager.cpuPromise workerCount N operatorConfig basePity rngs schedule
  = Some (Resolved s) ->
  sumValues (drawsBucket s) = N /\ totalSimulations s = N.
Proof.
  unfold WorkerManager.cpuPromise.
  destruct (WorkerManager.run rngs schedule _) as [m|] eqn:Hrun; [|discriminate].
  cbn. intros [= Hp].
  eapply run_invariant in Hrun; [|apply runCPUSimulation_invariant].
  destruct Hrun as [_ Hres]. exact (Hres s Hp).
Qed.

Lemma runSimulation_resolved isGPUEnabled gpuIsAvailable workerCount N
    operatorConfig basePity device rngs schedule s :
  WorkerManager.runSimulation isGPUEnabled gpuIsAvailable workerCount N
    operatorConfig basePity device rngs schedule = Some (Resolved s) ->
  sumValues (drawsBucket s) = N /\ totalSimulations s = N.
Proof.
  unfold WorkerManager.runSimulation, WorkerManager.runGPUSimulation.
  destruct (isGPUEnabled && gpuIsAvailable).
  - destruct (WorkerManager.gpuAttempt _ _ _ _) as [s'| |] eqn:Hgpu.
    + intros [= <-]. eapply gpuAttempt_returns, Hgpu.
    + apply cpuPromise_resolved.
    + discriminate.
  - apply cpuPromise_resolved.
Qed.

(** One successful dispatch of the driver loop. *)
Lemma gpuLoop_step operatorConfig N basePity randomNumbers device st :
  (currentSim st < N)%nat ->
  WorkerManager.gpuLoop operatorConfig N basePity
                        (Some randomNumbers :: device) st
  = WorkerManager.gpuLoop operatorConfig N basePity device
      (WorkerManager.processResults operatorConfig N
         (GPUManager.runSimulation
            (WorkerManager.newOperatorConfig operatorConfig basePity)
            randomNumbers) st).
Proof.
  intros Hlt. cbn [WorkerManager.gpuLoop].
  destruct (Nat.ltb_spec (currentSim st) N); [reflexivity | lia].
Qed.

(** The run used below: two trials wanted, each needing two rewards, and
    batches of three lanes.  It resolves with both trials in the bucket at
    2 draws, and a counter of 5 for the only category. *)
Lemma leak_run rngs schedule :
  WorkerManager.runSimulation true true 1 2 leakConfig 0 leakDevice
                              rngs schedule
  = Some (Resolved (WorkerManager.buildStatistics
                      {[2 := 2%nat]} {["A"%string := 5%nat]} 2)).
Proof.
  unfold WorkerManager.runSimulation, WorkerManager.runGPUSimulation,
    WorkerManager.gpuAttempt.
  change (WorkerManager.sortedOperatorConfig leakConfig) with leakConfig.
  cbn [andb]. unfold leakDevice, leakConfig.
  rewrite gpuLoop_step by (cbn; lia).
  rewrite runSimulation_certain_lanes.
  rewrite gpuLoop_step by (vm_compute; lia).
  rewrite runSimulation_certain_lanes.
  vm_compute. reflexivity.
Qed.

(** ** The bucket invariant *)

(** C3.  The bucket sums to the number of completed trials: each fold of a
    worker's outcome keeps the equality, each pass of the GPU trial loop
    keeps it, every state the worker-pool run reaches satisfies it, and a
    run of [N] trials that resolves, on either path (with or without
    fallback), returns a bucket whose counts sum to exactly [N]. *)
Theorem bucket_sum_equals_completed_trials :
  (forall task result,
     sumValues (task_drawsBucket task) = task_completedSimulations task ->
     sumValues (task_drawsBucket (WorkerManager.foldOutcome task result))
     = task_completedSimulations (WorkerManager.foldOutcome task result)) /\
  (forall operatorConfig N operator totalDraws results st,
     sumValues (gpu_drawsBucket st) = currentSim st ->
     sumValues (gpu_drawsBucket
                  (WorkerManager.trialLoop operatorConfig N operator totalDraws
                                           results st).2)
     = currentSim (WorkerManager.trialLoop operatorConfig N operator totalDraws
                                           results st).2) /\
  (forall workerCount N operatorConfig basePity rngs schedule m task,
     WorkerManager.run rngs schedule
       (WorkerManager.runCPUSimulation workerCount N operatorConfig basePity)
     = Some m ->
     activeTask m = Some task ->
     sumValues (task_drawsBucket task) = task_completedSimulations task) /\
  (forall isGPUEnabled gpuIsAvailable workerCount N operatorConfig basePity
          device rngs schedule s,
     WorkerManager.runSimulation isGPUEnabled gpuIsAvailable workerCount N
       operatorConfig basePity device rngs schedule = Some (Resolved s) ->
     sumValues (drawsBucket s) = N).
Proof.
  split; [exact foldOutcome_sum|].
  split; [intros; apply trialLoop_sum; assumption|].
  split.
  - intros workerCount N operatorConfig basePity rngs schedule m task Hrun Ht.
    eapply run_invariant in Hrun; [|apply runCPUSimulation_invariant].
    destruct Hrun as [Htask _]. destruct (Htask task Ht) as (_ & Hsum & _).
    exact Hsum.
  - intros until s. intros Hres. eapply runSimulation_resolved, Hres.
Qed.

Lemma bucket_sum_equals_completed_trials_witness :
  (exists s,
     WorkerManager.runSimulation false false 2 3 singleConfig 0 [] luckyRngs
                                 [0; 1; 0]%nat = Some (Resolved s) /\
     sumValues (drawsBucket s) = 3%nat) /\
  (exists s,
     WorkerManager.runSimulation true true 1 2 leakConfig 0 leakDevice
                                 luckyRngs [] = Some (Resolved s) /\
     sumValues (drawsBucket s) = 2%nat).
Proof.
  destruct bucket_sum_equals_completed_trials as (_ & _ & _ & Hrun).
  split.
  - eexists. split; [vm_compute; reflexivity|].
    apply (Hrun false false 2%nat 3%nat singleConfig 0 [] luckyRngs [0; 1; 0]%nat).
    vm_compute. reflexivity.
  - eexists. split; [apply leak_run|].
    apply (Hrun true true 1%nat 2%nat leakConfig 0 leakDevice luckyRngs []).
    apply leak_run.
Defined.

(** ** The per-category counters *)

(** On the worker-pool path a fold adds exactly the reward events of the
    completed trial to the counters. *)
Lemma addCounts_sum (counts result : gmap string nat) :
  sumValues (WorkerManager.addCounts counts result)
  = (sumValues counts + sumValues result)%nat.
Proof.
  unfold WorkerManager.addCounts.
  apply (map_fold_weak_ind
           (fun r (m : gmap string nat) =>
              sumValues r = (sumValues counts + sumValues m)%nat)).
  - rewrite sumValues_empty. lia.
  - intros char v m r Hfresh IH.
    pose proof (sumValues_insert r char (countOf r char + v)%nat) as Hins.
    rewrite (sumValues_insert_fresh m char v Hfresh).
    unfold countOf in *. lia.
Qed.

(** C6.  On the GPU path the counters also keep the reward events of
    trials that were abandoned when a batch ran out.  Two trials are
    wanted, each needs two rewards of the only category, and the device
    returns batches of three lanes: the run resolves with two trials in
    the bucket (four reward events) and a counter of 5. *)
Theorem gpu_counters_include_abandoned_trials :
  exists s,
    WorkerManager.runSimulation true true 1 2 leakConfig 0 leakDevice
                                (fun _ => []) []
    = Some (Resolved s) /\
    totalSimulations s = 2%nat /\
    map_to_list (drawsBucket s) = [(2, 2%nat)] /\
    map_to_list (count <$> characterStats s) = [("A"%string, 5%nat)].
Proof.
  eexists. split; [apply leak_run|]. vm_compute. repeat split.
Qed.

(** ** Summary statistics *)

(** C7.  The median walk stops at the [floor(total / 2)]-th element, one
    element early when the number of trials is odd: for the bucket
    [{1: 1, 2: 1, 3: 1}] the mean is 2 and the variance 2/3, as stated,
    but the median returned is 1, while the [ceil(3 / 2)]-th element is 2.
    Likewise [p25] of [{1: 1, ..., 5: 1}] is 1, not the
    [ceil(5 * 0.25)]-th element 2. *)
Theorem median_walk_stops_one_element_early :
  (mean (WorkerManager.calculateStatisticalData oddBucket) == 2)%Q /\
  (variance (WorkerManager.calculateStatisticalData oddBucket) == 2 # 3)%Q /\
  median (WorkerManager.calculateStatisticalData oddBucket) = 1%Q /\
  specWalk (Qceiling (3 / 2)) 0 (WorkerManager.bucketEntries oddBucket) = Some 2 /\
  p25 (WorkerManager.calculateStatisticalData fiveBucket) = 1%Q /\
  specWalk (Qceiling (5 * 0.25)) 0 (WorkerManager.bucketEntries fiveBucket) = Some 2.
Proof. vm_compute. repeat split. Qed.

(** ** Order independence of the fold *)







(** ** Sorting by weight *)

Lemma insertByWeight_permutation e (l : OperatorConfig) :
  Permutation (WorkerManager.insertByWeight e l) (e :: l).
Proof.
  induction l as [|h t IH]; cbn; [reflexivity|].
  destruct (Qle_bool (weight e.2) (weight h.2)); [reflexivity|].
  rewrite IH. apply perm_swap.
Qed.

Lemma sortByWeight_permutation (l : OperatorConfig) :
  Permutation (WorkerManager.sortByWeight l) l.
Proof.
  induction l as [|h t IH]; cbn; [reflexivity|].
  unfold WorkerManager.sortByWeight in *. cbn.
  rewrite insertByWeight_permutation. constructor. exact IH.
Qed.

Lemma insertByWeight_sorted e (l : OperatorConfig) :
  StronglySorted weightLe l ->
  StronglySorted weightLe (WorkerManager.insertByWeight e l).
Proof.
  induction l as [|h t IH]; intros Hs; cbn.
  - repeat constructor.
  - inversion Hs as [|? ? Ht Hh]; subst.
    destruct (Qle_bool (weight e.2) (weight h.2)) eqn:Hle.
    + apply Qle_bool_iff in Hle. constructor; [exact Hs|].
      constructor; [exact Hle|].
      eapply Forall_impl; [exact Hh|]. intros x Hx. unfold weightLe in *.
      eapply Qle_trans; eassumption.
    + constructor; [apply IH, Ht|].
      assert (Hhe : weightLe h e).
      { unfold weightLe. destruct (Qlt_le_dec (weight h.2) (weight e.2)) as [Hl|Hl].
        - apply Qlt_le_weak, Hl.
        - apply Qle_bool_iff in Hl. congruence. }
      rewrite (insertByWeight_permutation e t). constructor; assumption.
Qed.

Lemma sortByWeight_sorted (l : OperatorConfig) :
  StronglySorted weightLe (WorkerManager.sortByWeight l).
Proof.
  induction l as [|h t IH]; [constructor|].
  apply insertByWeight_sorted, IH.
Qed.

Lemma distinctWeights_permutation (l1 l2 : OperatorConfig) :
  Permutation l1 l2 -> distinctWeights l1 -> distinctWeights l2.
Proof.
  intros Hp [Hnd Hw]. split.
  - rewrite <- Hp. exact Hnd.
  - intros a b Ha Hb. rewrite <- Hp in Ha, Hb. apply Hw; assumption.
Qed.

(** Two lists sorted by weight that hold the same entries, no two of equal
    weight, are the same list. *)
Lemma sorted_unique (l1 : OperatorConfig) : forall l2 : OperatorConfig,
  StronglySorted weightLe l1 -> StronglySorted weightLe l2 ->
  Permutation l1 l2 -> distinctWeights l1 -> l1 = l2.
Proof.
  induction l1 as [|a t1 IH]; intros l2 Hs1 Hs2 Hp Hd.
  - apply Permutation_nil in Hp. congruence.
  - destruct l2 as [|b t2]; [apply Permutation_sym, Permutation_nil in Hp; discriminate|].
    inversion Hs1 as [|? ? Hst1 Ha]; subst.
    inversion Hs2 as [|? ? Hst2 Hb]; subst.
    destruct Hd as [Hnd Hw].
    assert (Hab : a = b).
    { assert (Ha2 : a ∈ b :: t2) by (rewrite <- Hp; left).
      assert (Hb1 : b ∈ a :: t1) by (rewrite Hp; left).
      apply Hw; [left | exact Hb1 |].
      apply elem_of_cons in Ha2 as [->|Ha2]; [reflexivity|].
      apply elem_of_cons in Hb1 as [->|Hb1]; [reflexivity|].
      rewrite Forall_forall in Ha, Hb.
      apply Qle_antisym; [exact (Ha b Hb1) | exact (Hb a Ha2)]. }
    subst b. f_equal.
    apply IH; [assumption | assumption | eapply Permutation_cons_inv, Hp |].
    apply NoDup_cons in Hnd as [_ Hnd]. split; [exact Hnd|].
    intros x y Hx Hy. apply Hw; right; assumption.
Qed.

Lemma sortByWeight_insertion_order (c1 c2 : OperatorConfig) :
  Permutation c1 c2 -> distinctWeights c1 ->
  WorkerManager.sortByWeight c1 = WorkerManager.sortByWeight c2.
Proof.
  intros Hp Hd.
  apply sorted_unique; try apply sortByWeight_sorted.
  - rewrite !sortByWeight_permutation. exact Hp.
  - eapply distinctWeights_permutation; [|exact Hd].
    symmetry. apply sortByWeight_permutation.
Qed.

(** ** Objects rebuilt from entries *)

Section ObjectOrder.
Context {V : Type}.
Implicit Types obj entries : list (string * V).

Lemma setProperty_fresh key (value : V) obj :
  key ∉ map fst obj ->
  JSObject.setProperty key value obj = obj ++ [(key, value)].
Proof.
  induction obj as [|[k v] obj IH]; intros Hfresh; cbn; [reflexivity|].
  cbn in Hfresh. apply not_elem_of_cons in Hfresh as [Hne Hfresh].
  destruct (String.eqb_spec k key) as [->|_]; [congruence|].
  rewrite IH by exact Hfresh. reflexivity.
Qed.


(** Entries of distinct names create the properties in their order. *)
Lemma foldl_setProperty_fresh entries : forall obj,
  NoDup (map fst (obj ++ entries)) ->
  foldl (fun obj p => JSObject.setProperty p.1 p.2 obj) obj entries
  = obj ++ entries.
Proof.
  induction entries as [|[k v] entries IH]; intros obj Hnd; cbn [foldl].
  - rewrite app_nil_r. reflexivity.
  - cbn [fst snd].
    assert (Hfresh : k ∉ map fst obj).
    { rewrite map_app in Hnd. apply NoDup_app in Hnd as (_ & Hdisj & _).
      intros Hin. apply (Hdisj k Hin). cbn. left. }
    rewrite setProperty_fresh by exact Hfresh.
    rewrite IH; rewrite <- app_assoc; [reflexivity | exact Hnd].
Qed.


Lemma insertByIndex_permutation (p : N * (string * V)) l :
  Permutation (JSObject.insertByIndex p l) (p :: l).
Proof.
  induction l as [|h t IH]; cbn; [reflexivity|].
  destruct (p.1 <=? h.1)%N; [reflexivity|].
  rewrite IH. apply perm_swap.
Qed.

Lemma insertByIndex_sorted (p : N * (string * V)) l :
  StronglySorted (fun a b => (a.1 <= b.1)%N) l ->
  StronglySorted (fun a b => (a.1 <= b.1)%N) (JSObject.insertByIndex p l).
Proof.
  induction l as [|h t IH]; intros Hs; cbn.
  - repeat constructor.
  - inversion Hs as [|? ? Ht Hh]; subst.
    destruct (N.leb_spec p.1 h.1) as [Hle|Hgt].
    + constructor; [exact Hs|]. constructor; [exact Hle|].
      eapply Forall_impl; [exact Hh|]. cbn. intros x Hx. lia.
    + constructor; [apply IH, Ht|].
      rewrite (insertByIndex_permutation p t). constructor; [lia | exact Hh].
Qed.

Lemma sortByIndex_permutation (l : list (N * (string * V))) :
  Permutation (foldr JSObject.insertByIndex [] l) l.
Proof.
  induction l as [|h t IH]; cbn; [reflexivity|].
  rewrite insertByIndex_permutation, IH. reflexivity.
Qed.

Lemma sortByIndex_sorted (l : list (N * (string * V))) :
  StronglySorted (fun a b => (a.1 <= b.1)%N)
                 (foldr JSObject.insertByIndex [] l).
Proof.
  induction l as [|h t IH]; cbn; [constructor|].
  apply insertByIndex_sorted, IH.
Qed.

(** Every indexed property carries the index of its own name. *)
Lemma indexedProperties_index obj :
  Forall (fun ip => JSObject.arrayIndex ip.2.1 = Some ip.1)
         (JSObject.indexedProperties obj).
Proof.
  unfold JSObject.indexedProperties.
  induction obj as [|p obj IH]; cbn; [constructor|].
  destruct (JSObject.arrayIndex p.1) as [i|] eqn:Hi; cbn; [|exact IH].
  constructor; [exact Hi | exact IH].
Qed.

Lemma indexedProperties_permutation obj :
  Permutation
    (map snd (JSObject.indexedProperties obj)
     ++ filter (fun p => JSObject.arrayIndex p.1 = None) obj)
    obj.
Proof.
  unfold JSObject.indexedProperties.
  induction obj as [|p obj IH]; [reflexivity|].
  cbn [omap list_omap].
  destruct (JSObject.arrayIndex p.1) as [i|] eqn:Hi;
    cbn [fmap option_fmap option_map map snd app].
  - rewrite filter_cons_False by (rewrite Hi; discriminate).
    constructor. exact IH.
  - rewrite filter_cons_True by exact Hi.
    rewrite <- Permutation_middle. constructor. exact IH.
Qed.

(** The enumeration holds the properties of the object. *)
Lemma ownEntries_permutation obj : Permutation (JSObject.ownEntries obj) obj.
Proof.
  unfold JSObject.ownEntries.
  rewrite (Permutation_map snd (sortByIndex_permutation _)).
  apply indexedProperties_permutation.
Qed.

(** The enumeration is a block of array indices in ascending order
    followed by the other names in creation order. *)
Lemma ownEntries_order obj :
  exists indexed,
    JSObject.ownEntries obj
    = indexed ++ filter (fun p => JSObject.arrayIndex p.1 = None) obj /\
    Forall (fun p => is_Some (JSObject.arrayIndex p.1)) indexed /\
    StronglySorted N.le (omap (fun p => JSObject.arrayIndex p.1) indexed).
Proof.
  unfold JSObject.ownEntries.
  pose proof (sortByIndex_sorted (JSObject.indexedProperties obj)) as Hs.
  assert (Hidx : Forall (fun ip => JSObject.arrayIndex ip.2.1 = Some ip.1)
                   (foldr JSObject.insertByIndex []
                          (JSObject.indexedProperties obj))).
  { rewrite (sortByIndex_permutation _). apply indexedProperties_index. }
  revert Hs Hidx.
  generalize (foldr JSObject.insertByIndex [] (JSObject.indexedProperties obj)).
  intros l Hs Hidx. exists (map snd l). split; [reflexivity|]. split.
  - apply Forall_fmap. eapply Forall_impl; [exact Hidx|].
    intros ip Hip. cbn. rewrite Hip. eexists. reflexivity.
  - assert (Hmap : omap (fun p => JSObject.arrayIndex p.1) (map snd l)
                   = map fst l).
    { clear Hs. induction Hidx as [|ip l Hip _ IH]; [reflexivity|].
      cbn [map omap list_omap]. cbn in Hip. rewrite Hip.
      f_equal. exact IH. }
    rewrite Hmap. clear Hmap Hidx.
    induction Hs as [|ip l _ IH Hall]; cbn; constructor; [exact IH|].
    apply Forall_fmap. exact Hall.
Qed.

(** Without array indices the enumeration is the creation order. *)
Lemma ownEntries_names obj :
  Forall (fun p => JSObject.arrayIndex p.1 = None) obj ->
  JSObject.ownEntries obj = obj.
Proof.
  intros Hall. unfold JSObject.ownEntries, JSObject.indexedProperties.
  assert (Hnone : omap (fun p : string * V =>
                          (fun i => (i, p)) <$> JSObject.arrayIndex p.1) obj
                  = []).
  { induction Hall as [|p obj Hp _ IH]; [reflexivity|].
    cbn. rewrite Hp. cbn. exact IH. }
  rewrite Hnone. cbn.
  induction Hall as [|p obj Hp _ IH]; [reflexivity|].
  rewrite filter_cons_True by exact Hp. f_equal. apply IH.
  cbn in Hnone. rewrite Hp in Hnone. exact Hnone.
Qed.

Lemma fromEntries_ownEntries entries :
  NoDup (map fst entries) ->
  JSObject.fromEntries entries = JSObject.ownEntries entries.
Proof.
  intros Hnd. unfold JSObject.fromEntries.
  rewrite foldl_setProperty_fresh by exact Hnd. reflexivity.
Qed.


End ObjectOrder.

(** ** The worker pool resolves *)

Lemma assignNextSimulation_underWay N c operatorConfig m :
  underWay N c operatorConfig m ->
  underWay N c operatorConfig (WorkerManager.assignNextSimulation m).
Proof.
  intros [(task & Ht & Htot & Hc & Hcfg) Hposted].
  unfold WorkerManager.assignNextSimulation. rewrite Ht.
  destruct (task_pendingSimulations task);
    [split; [exists task; tauto | exact Hposted]|].
  destruct (availableWorkers m);
    [split; [exists task; tauto | exact Hposted]|].
  split; cbn.
  - eexists. split; [reflexivity|]. cbn. tauto.
  - apply Forall_app. split; [exact Hposted|]. repeat constructor. exact Hcfg.
Qed.




Lemma runCPUSimulation_underWay workerCount N operatorConfig basePity :
  underWay N 0 operatorConfig
    (WorkerManager.runCPUSimulation workerCount N operatorConfig basePity).
Proof.
  unfold WorkerManager.runCPUSimulation.
  set (m := {| availableWorkers := _ |}).
  generalize (Nat.min (length (availableWorkers m)) N). intros n.
  induction n as [|n IH]; cbn [Nat.iter].
  - split; cbn; [|constructor]. eexists. split; [reflexivity|]. cbn. tauto.
  - apply assignNextSimulation_underWay, IH.
Qed.



Lemma sortByWeight_nonempty (operatorConfig : OperatorConfig) :
  operatorConfig <> [] -> WorkerManager.sortByWeight operatorConfig <> [].
Proof.
  intros Hne Hs. apply Hne.
  apply Permutation_nil. rewrite <- Hs. apply sortByWeight_permutation.
Qed.



(** ** Completion order at the scheduler *)







(** ** Insertion order of the configuration *)

Lemma newOperatorConfig_names (operatorConfig : OperatorConfig) basePity :
  map opName (operators (WorkerManager.newOperatorConfig operatorConfig basePity))
  = map fst operatorConfig.
Proof.
  unfold WorkerManager.newOperatorConfig. cbn [operators].
  rewrite map_map. apply map_ext. intros [name e]. reflexivity.
Qed.

(** The sort is stable: the entries of one weight keep the order they
    had. *)
Lemma insertByWeight_stable (w : Q) e (l : OperatorConfig) :
  filter (fun oe => Qeq_bool (weight oe.2) w) (WorkerManager.insertByWeight e l)
  = filter (fun oe => Qeq_bool (weight oe.2) w) (e :: l).
Proof.
  induction l as [|h t IH]; cbn [WorkerManager.insertByWeight]; [reflexivity|].
  destruct (Qle_bool (weight e.2) (weight h.2)) eqn:Hle; [reflexivity|].
  destruct (Qeq_bool (weight h.2) w) eqn:Hh.
  - assert (He : Qeq_bool (weight e.2) w = false).
    { destruct (Qeq_bool (weight e.2) w) eqn:He; [|reflexivity].
      apply Qeq_bool_iff in He, Hh.
      assert (Hle' : Qle_bool (weight e.2) (weight h.2) = true)
        by (apply Qle_bool_iff; rewrite He, Hh; apply Qle_refl).
      congruence. }
    rewrite (filter_cons_True _ h) by (rewrite Hh; exact I).
    rewrite IH.
    rewrite !(filter_cons_False _ e) by (rewrite He; exact id).
    rewrite (filter_cons_True _ h) by (rewrite Hh; exact I). reflexivity.
  - rewrite (filter_cons_False _ h) by (rewrite Hh; exact id).
    rewrite IH.
    destruct (Qeq_bool (weight e.2) w) eqn:He.
    + rewrite !(filter_cons_True _ e) by (rewrite He; exact I).
      rewrite (filter_cons_False _ h) by (rewrite Hh; exact id). reflexivity.
    + rewrite !(filter_cons_False _ e) by (rewrite He; exact id).
      rewrite (filter_cons_False _ h) by (rewrite Hh; exact id). reflexivity.
Qed.

Lemma sortByWeight_stable (w : Q) (l : OperatorConfig) :
  filter (fun oe => Qeq_bool (weight oe.2) w) (WorkerManager.sortByWeight l)
  = filter (fun oe => Qeq_bool (weight oe.2) w) l.
Proof.
  induction l as [|h t IH]; [reflexivity|].
  change (WorkerManager.sortByWeight (h :: t))
    with (WorkerManager.insertByWeight h (WorkerManager.sortByWeight t)).
  rewrite insertByWeight_stable.
  destruct (Qeq_bool (weight h.2) w) eqn:Hh.
  - rewrite !(filter_cons_True _ h) by (rewrite Hh; exact I).
    rewrite IH. reflexivity.
  - rewrite !(filter_cons_False _ h) by (rewrite Hh; exact id). exact IH.
Qed.

Lemma sortByWeight_names (l : OperatorConfig) :
  NoDup (map fst l) -> NoDup (map fst (WorkerManager.sortByWeight l)).
Proof.
  intros Hnd.
  rewrite (Permutation_map fst (sortByWeight_permutation l)). exact Hnd.
Qed.

(** C10, as the code has it.  [runSimulation] sorts the entries of the
    configuration by ascending weight with a stable sort (entries of one
    weight keep the caller's order) and rebuilds the object from them.
    The rebuilt object holds the caller's entries and enumerates the names
    that are array indices first, in ascending numeric order, then the
    other names in the sorted order; without array indices it is the
    sorted list.  Both paths receive this object: every message posted to
    a worker carries it, and the GPU operator list follows its keys.  When
    no two categories have the same weight the object, and with it the
    result of the run for given random numbers, device behaviour and
    completion order, does not depend on the insertion order of the
    caller's configuration. *)
Theorem sorted_configuration_drives_both_paths (c1 c2 : OperatorConfig) :
  NoDup (map fst c1) -> Permutation c1 c2 ->
  let sortedEntries := WorkerManager.sortByWeight c1 in
  let operatorConfig := WorkerManager.sortedOperatorConfig c1 in
  (StronglySorted weightLe sortedEntries /\
   Permutation sortedEntries c1 /\
   forall w, filter (fun oe => Qeq_bool (weight oe.2) w) sortedEntries
             = filter (fun oe => Qeq_bool (weight oe.2) w) c1) /\
  (Permutation operatorConfig c1 /\
   (exists indexed,
      operatorConfig
      = indexed ++ filter (fun oe => JSObject.arrayIndex oe.1 = None)
                          sortedEntries /\
      Forall (fun oe => is_Some (JSObject.arrayIndex oe.1)) indexed /\
      StronglySorted N.le
        (omap (fun oe => JSObject.arrayIndex oe.1) indexed)) /\
   (Forall (fun oe => JSObject.arrayIndex oe.1 = None) c1 ->
    operatorConfig = sortedEntries)) /\
  (forall isGPUEnabled gpuIsAvailable workerCount N basePity device rngs
          schedule,
     WorkerManager.runSimulation isGPUEnabled gpuIsAvailable workerCount N c1
                                 basePity device rngs schedule
     = if isGPUEnabled && gpuIsAvailable
       then WorkerManager.runGPUSimulation workerCount N operatorConfig
                                           basePity device rngs schedule
       else WorkerManager.cpuPromise workerCount N operatorConfig basePity
                                     rngs schedule) /\
  (forall workerCount N basePity,
     Forall (fun wt => wt_operatorConfig wt = operatorConfig)
            (posted (WorkerManager.runCPUSimulation workerCount N
                       operatorConfig basePity))) /\
  (forall basePity,
     map opName (operators (WorkerManager.newOperatorConfig
                              operatorConfig basePity))
     = map fst operatorConfig) /\
  (distinctWeights c1 ->
   WorkerManager.sortedOperatorConfig c1 = WorkerManager.sortedOperatorConfig c2 /\
   forall isGPUEnabled gpuIsAvailable workerCount N basePity device rngs
          schedule,
     WorkerManager.runSimulation isGPUEnabled gpuIsAvailable workerCount N c1
                                 basePity device rngs schedule
     = WorkerManager.runSimulation isGPUEnabled gpuIsAvailable workerCount N c2
                                   basePity device rngs schedule).
Proof.
  intros Hnames Hperm sortedEntries operatorConfig.
  assert (Hobj : operatorConfig = JSObject.ownEntries sortedEntries).
  { apply fromEntries_ownEntries, sortByWeight_names, Hnames. }
  split; [|split; [|split; [|split; [|split]]]].
  - split; [apply sortByWeight_sorted|].
    split; [apply sortByWeight_permutation|].
    intros w. apply sortByWeight_stable.
  - split; [|split].
    + rewrite Hobj, ownEntries_permutation. apply sortByWeight_permutation.
    + rewrite Hobj. apply ownEntries_order.
    + intros Hnone. rewrite Hobj. apply ownEntries_names.
      unfold sortedEntries. rewrite (sortByWeight_permutation c1). exact Hnone.
  - reflexivity.
  - intros. apply runCPUSimulation_underWay.
  - intros. apply newOperatorConfig_names.
  - intros Hdistinct.
    assert (Hsame : WorkerManager.sortedOperatorConfig c1
                    = WorkerManager.sortedOperatorConfig c2).
    { unfold WorkerManager.sortedOperatorConfig.
      rewrite (sortByWeight_insertion_order c1 c2 Hperm Hdistinct).
      reflexivity. }
    split; [exact Hsame|].
    intros. unfold WorkerManager.runSimulation. rewrite Hsame. reflexivity.
Qed.

Lemma weightedConfigAB_distinct : distinctWeights weightedConfigAB.
Proof.
  split.
  - apply NoDup_cons. split; [|apply NoDup_singleton].
    intros H. apply list_elem_of_singleton in H. discriminate.
  - intros a b Ha Hb Hw. unfold weightedConfigAB in Ha, Hb.
    apply elem_of_cons in Ha as [->|Ha];
      [|apply list_elem_of_singleton in Ha as ->];
      (apply elem_of_cons in Hb as [->|Hb];
       [|apply list_elem_of_singleton in Hb as ->]);
      try reflexivity; discriminate Hw.
Qed.

Lemma weightedConfigAB_names : NoDup (map fst weightedConfigAB).
Proof.
  apply NoDup_cons. split; [|apply NoDup_singleton].
  intros H. apply list_elem_of_singleton in H. discriminate.
Qed.

Lemma sorted_configuration_drives_both_paths_witness :
  WorkerManager.sortedOperatorConfig weightedConfigAB
  = WorkerManager.sortedOperatorConfig weightedConfigBA /\
  WorkerManager.runSimulation false false 1 1 weightedConfigAB 0 [] tiedRngs
                              [0%nat]
  = WorkerManager.runSimulation false false 1 1 weightedConfigBA 0 [] tiedRngs
                                [0%nat].
Proof.
  destruct (sorted_configuration_drives_both_paths weightedConfigAB
              weightedConfigBA weightedConfigAB_names (perm_swap _ _ _))
    as (_ & _ & _ & _ & _ & Hinvariant).
  destruct (Hinvariant weightedConfigAB_distinct) as [Hsame Hrun].
  split; [exact Hsame | apply Hrun].
Defined.

(** C10 as stated fails when two categories have the same weight: the
    stable sort keeps their insertion order, and with the same random
    numbers the two insertion orders give different buckets (the trial
    takes one draw in one order, two in the other). *)
Lemma insertion_order_changes_results_on_ties :
  Permutation tiedConfigAB tiedConfigBA /\
  WorkerManager.runSimulation false false 1 1 tiedConfigAB 0 [] tiedRngs [0%nat]
  <> WorkerManager.runSimulation false false 1 1 tiedConfigBA 0 [] tiedRngs [0%nat].
Proof.
  split; [apply perm_swap|].
  intros H. apply (f_equal (bucketAt 1)) in H. vm_compute in H. discriminate.
Qed.

(** It also fails for names that are array indices: the sort puts the
    lighter category first, and the rebuilt object enumerates the index
    before it, so the paths receive the caller's order, heavier first. *)
Lemma array_index_names_undo_the_sort :
  WorkerManager.sortByWeight indexedConfig
  = [("B"%string, {| weight := 1; target := 1 |});
     ("7"%string, {| weight := 3; target := 0 |})] /\
  WorkerManager.sortedOperatorConfig indexedConfig = indexedConfig.
Proof. split; reflexivity. Qed.

(** * Further properties

    Bounds, invariants and agreements between the modules. *)

(** ** The trial, whenever it returns *)

(** ** Results of [gatcha], whenever it returns *)

Lemma softPityLoop_result rs : forall (n : nat) basePity xunfang currentProb d rs',
  Forall unitInterval rs ->
  100 <= currentProb + 2 * Z.of_nat n -> (1 <= n)%nat ->
  Pity.softPityLoop basePity xunfang currentProb rs = Some (d, rs') ->
  xunfang - basePity <= d <= xunfang - basePity + Z.of_nat n - 1.
Proof.
  induction rs as [|r rs IH]; intros n basePity xunfang currentProb d rs' Hrs Hcp Hn;
    cbn [Pity.softPityLoop]; [discriminate|].
  inversion Hrs as [|? ? Hr Hrs']; subst.
  pose proof (chuhuoOf_range r Hr) as Hc.
  destruct (Z.leb_spec (chuhuoOf r) (currentProb + 2)) as [Hhit|Hmiss].
  - intros [= <- _]. lia.
  - intros Hrec.
    apply (IH (n - 1)%nat) in Hrec; [lia | exact Hrs' | lia | lia].
Qed.

Lemma flatLoop_result rs : forall basePity xunfang d rs',
  Forall unitInterval rs ->
  basePity < 50 -> basePity <= xunfang <= 50 ->
  Pity.flatLoop basePity xunfang 2 rs = Some (d, rs') ->
  1 <= d <= 98 - basePity.
Proof.
  induction rs as [|r rs IH]; intros basePity xunfang d rs' Hrs Hb Hx;
    cbn [Pity.flatLoop]; destruct (Z.ltb_spec xunfang 50) as [Hlt|Hge];
    try discriminate.
  - inversion Hrs as [|? ? Hr Hrs']; subst.
    destruct (Z.leb_spec (chuhuoOf r) 2).
    + intros [= <- _]. lia.
    + intros Hrec. apply IH in Hrec; [lia | exact Hrs' | lia | lia].
  - intros Hrec.
    apply (softPityLoop_result (r :: rs) 49) in Hrec; [|exact Hrs|lia|lia].
    lia.
Qed.

(** Whenever [gatcha] returns, from a base pity below 50, it returns a
    positive number of draws, at most [98 - basePity]. *)
Lemma gatcha_result basePity rs d rs' :
  Forall unitInterval rs -> 0 <= basePity < 50 ->
  Pity.gatcha basePity rs = Some (d, rs') -> 1 <= d <= 98 - basePity.
Proof.
  intros Hrs Hb. unfold Pity.gatcha.
  destruct (Z.ltb_spec basePity 50); [|lia].
  apply flatLoop_result; [exact Hrs | lia | lia].
Qed.

(** ** What a finished trial guarantees *)

Lemma weightedWalk_elem {T} (items : list T) : forall weights random x,
  Gacha.weightedWalk items weights random = Some x -> x ∈ items.
Proof.
  induction items as [|it items IH]; intros [|w weights] random x; cbn;
    try discriminate.
  destruct (Qle_bool (random - w) 0).
  - intros [= ->]. left.
  - intros H. right. eapply IH, H.
Qed.

Lemma weightedChoice_elem {T} (items : list T) weights r x :
  Gacha.weightedChoice items weights r = Some x -> x ∈ items.
Proof.
  unfold Gacha.weightedChoice.
  destruct (Gacha.weightedWalk _ _ _) eqn:Hw.
  - intros [= <-]. eapply weightedWalk_elem, Hw.
  - intros Hl. apply last_Some in Hl as [l' ->]. set_solver.
Qed.

Lemma initStatistic_dom (operators : list string) :
  dom (Gacha.initStatistic operators) = list_to_set operators.
Proof.
  unfold Gacha.initStatistic.
  assert (H : forall (st : gmap string nat),
             dom (foldl (fun st op => <[op := 0%nat]> st) st operators)
             = dom st ∪ list_to_set operators).
  { induction operators as [|op ops IH]; intros st; cbn.
    - set_solver.
    - rewrite IH, dom_insert_L. set_solver. }
  rewrite H, dom_empty_L. set_solver.
Qed.

Lemma initStatistic_sum (operators : list string) :
  sumValues (Gacha.initStatistic operators) = 0%nat.
Proof.
  unfold Gacha.initStatistic.
  assert (H : forall (st : gmap string nat),
             sumValues st = 0%nat ->
             sumValues (foldl (fun st op => <[op := 0%nat]> st) st operators)
             = 0%nat).
  { induction operators as [|op ops IH]; intros st Hst; cbn; [exact Hst|].
    apply IH. pose proof (sumValues_insert st op 0%nat). lia. }
  apply H, sumValues_empty.
Qed.

Lemma softPityLoop_suffix rs : forall basePity xunfang currentProb d rs',
  Pity.softPityLoop basePity xunfang currentProb rs = Some (d, rs') ->
  exists pre, rs = pre ++ rs'.
Proof.
  induction rs as [|r rs IH]; intros basePity xunfang currentProb d rs';
    cbn [Pity.softPityLoop]; [discriminate|].
  destruct (chuhuoOf r <=? currentProb + 2).
  - intros [= _ <-]. exists [r]. reflexivity.
  - intros Hrec. apply IH in Hrec as [pre ->]. exists (r :: pre). reflexivity.
Qed.

Lemma flatLoop_suffix rs : forall basePity xunfang currentProb d rs',
  Pity.flatLoop basePity xunfang currentProb rs = Some (d, rs') ->
  exists pre, rs = pre ++ rs'.
Proof.
  induction rs as [|r rs IH]; intros basePity xunfang currentProb d rs';
    cbn [Pity.flatLoop]; destruct (xunfang <? 50); try discriminate.
  - destruct (chuhuoOf r <=? currentProb).
    + intros [= _ <-]. exists [r]. reflexivity.
    + intros Hrec. apply IH in Hrec as [pre ->]. exists (r :: pre). reflexivity.
  - apply softPityLoop_suffix.
Qed.

Lemma gatcha_rest_valid basePity rs d rs' :
  Forall unitInterval rs -> Pity.gatcha basePity rs = Some (d, rs') ->
  Forall unitInterval rs'.
Proof.
  intros Hrs Hg. apply flatLoop_suffix in Hg as [pre ->].
  apply Forall_app in Hrs. apply Hrs.
Qed.

(** The loop invariant of the draw loop: the keys stay, the quota check
    holds at exit, and every round adds one reward and between 1 and 98
    draws. *)
Lemma drawLoop_finished fuel :
  forall (operatorConfig : OperatorConfig) operators weights total0 currentPity
         statistic0 rs result,
    operators <> [] -> Forall unitInterval rs -> 0 <= currentPity < 50 ->
    list_to_set operators ⊆ dom statistic0 ->
    Gacha.drawLoop fuel operatorConfig operators weights total0 currentPity
                   statistic0 rs = Some result ->
    Gacha.checkCompletion operatorConfig (statistic result) = true /\
    dom (statistic result) = dom statistic0 /\
    (sumValues statistic0 <= sumValues (statistic result))%nat /\
    Z.of_nat (sumValues (statistic result))
      - Z.of_nat (sumValues statistic0)
    <= total result - total0
    <= 98 * (Z.of_nat (sumValues (statistic result))
             - Z.of_nat (sumValues statistic0)).
Proof.
  induction fuel as [|fuel IH];
    intros operatorConfig operators weights total0 currentPity statistic0 rs
           result Hne Hrs Hpity Hdom;
    cbn [Gacha.drawLoop];
    destruct (Gacha.checkCompletion operatorConfig statistic0) eqn:Hcheck;
    try discriminate;
    try (intros [= <-]; cbn; repeat split; try assumption; lia).
  destruct (Pity.gatcha currentPity rs) as [[d rs1]|] eqn:Hg; [|discriminate].
  destruct rs1 as [|r rs2]; [discriminate|].
  pose proof (gatcha_result _ _ _ _ Hrs Hpity Hg) as Hd.
  pose proof (gatcha_rest_valid _ _ _ _ Hrs Hg) as Hrs2.
  inversion Hrs2 as [|? ? _ Hrs2']; subst.
  destruct (weightedChoice_nonempty operators weights r Hne) as [op Hop].
  cbv zeta. rewrite Hop.
  pose proof (weightedChoice_elem _ _ _ _ Hop) as Hin.
  intros Hrec.
  apply IH in Hrec; [|exact Hne|exact Hrs2'|lia|rewrite dom_insert_L; set_solver].
  destruct Hrec as (Hdone & Hkeys & Hmono & Hrounds).
  pose proof (sumValues_insert statistic0 op (S (countOf statistic0 op))) as Hins.
  unfold countOf in *.
  split; [exact Hdone|]. split; [|split].
  - rewrite Hkeys, dom_insert_L.
    assert (op ∈ dom statistic0) by set_solver. set_solver.
  - lia.
  - lia.
Qed.

(** The quota part needs nothing of the random numbers. *)
Lemma drawLoop_quota fuel :
  forall (operatorConfig : OperatorConfig) operators weights total0 currentPity
         statistic0 rs result,
    list_to_set operators ⊆ dom statistic0 ->
    Gacha.drawLoop fuel operatorConfig operators weights total0 currentPity
                   statistic0 rs = Some result ->
    Gacha.checkCompletion operatorConfig (statistic result) = true /\
    dom (statistic result) = dom statistic0.
Proof.
  induction fuel as [|fuel IH];
    intros operatorConfig operators weights total0 currentPity statistic0 rs
           result Hdom;
    cbn [Gacha.drawLoop];
    destruct (Gacha.checkCompletion operatorConfig statistic0) eqn:Hcheck;
    try discriminate;
    try (intros [= <-]; cbn; split; [assumption | reflexivity]).
  destruct (Pity.gatcha currentPity rs) as [[d rs1]|]; [|discriminate].
  destruct rs1 as [|r rs2]; [discriminate|].
  cbv zeta.
  destruct (Gacha.weightedChoice operators weights r) as [op|] eqn:Hop.
  - pose proof (weightedChoice_elem _ _ _ _ Hop) as Hin.
    assert (Hop_dom : op ∈ dom statistic0).
    { apply Hdom. apply elem_of_list_to_set. exact Hin. }
    intros Hrec. apply IH in Hrec as [Hdone Hkeys].
    + split; [exact Hdone|]. rewrite Hkeys, dom_insert_L.
      apply set_eq. intros x. rewrite elem_of_union, elem_of_singleton.
      split; [intros [->|?]; assumption | intros ?; right; assumption].
    + rewrite dom_insert_L. intros x Hx. apply elem_of_union. right.
      apply Hdom, Hx.
  - apply IH. exact Hdom.
Qed.

Lemma checkCompletion_quota (operatorConfig : OperatorConfig) statistic name e :
  Gacha.checkCompletion operatorConfig statistic = true ->
  (name, e) ∈ operatorConfig -> (target e <= countOf statistic name)%nat.
Proof.
  unfold Gacha.checkCompletion. rewrite forallb_forall.
  intros Hall Hin. apply list_elem_of_In in Hin. apply Hall in Hin.
  cbn in Hin. apply orb_true_iff in Hin as [Hz|Hle].
  - apply Nat.eqb_eq in Hz. lia.
  - apply Nat.leb_le in Hle. exact Hle.
Qed.

Lemma runTrial_finished (operatorConfig : OperatorConfig) basePity rs result :
  Gacha.runTrial operatorConfig basePity rs = Some result ->
  Gacha.checkCompletion operatorConfig (statistic result) = true /\
  dom (statistic result) = list_to_set (map fst operatorConfig).
Proof.
  unfold Gacha.runTrial. intros Hrun.
  apply drawLoop_quota in Hrun as [Hdone Hkeys].
  - split; [exact Hdone|]. rewrite Hkeys. apply initStatistic_dom.
  - rewrite initStatistic_dom. reflexivity.
Qed.

(** X1.  a finished trial meets every quota and its statistic has exactly the
    configured names as keys. *)
Theorem finished_trial_meets_every_quota
    (operatorConfig : option OperatorConfig) basePity rs result :
  Gacha.chouShuTongJi operatorConfig basePity rs = Some result ->
  (forall name e, (name, e) ∈ default Gacha.defaultConfig operatorConfig ->
                  (target e <= countOf (statistic result) name)%nat) /\
  dom (statistic result)
  = list_to_set (map fst (default Gacha.defaultConfig operatorConfig)).
Proof.
  unfold Gacha.chouShuTongJi. intros Hrun.
  apply runTrial_finished in Hrun as [Hdone Hkeys].
  split; [|exact Hkeys].
  intros name e Hin. eapply checkCompletion_quota; eassumption.
Qed.

Lemma finished_trial_meets_every_quota_witness :
  (forall name e, (name, e) ∈ leakConfig ->
     (target e
      <= countOf (statistic {| total := 2;
                               statistic := {["A"%string := 2%nat]} |}) name)%nat) /\
  dom (statistic {| total := 2; statistic := {["A"%string := 2%nat]} |})
  = list_to_set (map fst leakConfig).
Proof.
  apply (finished_trial_meets_every_quota (Some leakConfig) 0 [0; 0; 0; 0]%Q).
  vm_compute. reflexivity.
Defined.

(** X2.  the message of a worker that completes reports at least one draw and
    at most 98 draws per reward obtained. *)
Theorem worker_reports_draws_within_bounds
    (operatorConfig : OperatorConfig) basePity workerId rs w result :
  Forall unitInterval rs -> 0 <= basePity < 50 ->
  SimulationWorker.onmessage operatorConfig basePity workerId rs
  = Some (Complete w result) ->
  w = workerId /\
  Z.of_nat (sumValues (characterCounts result)) <= totalDraws result
  <= 98 * Z.of_nat (sumValues (characterCounts result)).
Proof.
  intros Hrs Hpity. unfold SimulationWorker.onmessage, SimulationWorker.chouShuTongJi.
  destruct operatorConfig as [|oe operatorConfig]; [discriminate|].
  destruct (Gacha.runTrial (oe :: operatorConfig) basePity rs) as [res|] eqn:Hrun;
    cbn; [|discriminate].
  intros [= <- <-]. split; [reflexivity|]. cbn.
  unfold Gacha.runTrial in Hrun.
  apply drawLoop_finished in Hrun;
    [|discriminate|exact Hrs|exact Hpity|rewrite initStatistic_dom; reflexivity].
  destruct Hrun as (_ & _ & _ & Hbounds).
  rewrite initStatistic_sum in Hbounds. lia.
Qed.

Lemma worker_reports_draws_within_bounds_witness :
  let result :=
    {| totalDraws := 2; characterCounts := {["A"%string := 1%nat]} |} in
  7%nat = 7%nat /\
  Z.of_nat (sumValues (characterCounts result)) <= totalDraws result
  <= 98 * Z.of_nat (sumValues (characterCounts result)).
Proof.
  apply (worker_reports_draws_within_bounds singleConfig 0 7 (secondDrawRngs 0)).
  - repeat constructor; vm_compute; congruence.
  - lia.
  - vm_compute. reflexivity.
Defined.

(** ** The weighted selector *)

Lemma foldl_Qplus_acc (weights : list Q) : forall a,
  (foldl (fun sum weight => sum + weight) a weights
   == a + foldl (fun sum weight => sum + weight) 0 weights)%Q.
Proof.
  induction weights as [|w weights IH]; intros a; cbn.
  - ring.
  - rewrite (IH (a + w)%Q), (IH (0 + w)%Q). ring.
Qed.

Lemma weightedWalk_positive {T} (items : list T) : forall weights random,
  length items = length weights ->
  Forall (fun w => 0 <= w)%Q weights ->
  (0 < random)%Q ->
  (random <= foldl (fun sum weight => sum + weight) 0 weights)%Q ->
  exists (i : nat) x w,
    Gacha.weightedWalk items weights random = Some x /\
    items !! i = Some x /\ weights !! i = Some w /\ (0 < w)%Q.
Proof.
  induction items as [|it items IH]; intros [|w weights] random Hlen Hpos Hr Hle;
    try discriminate.
  - cbn in Hle. exfalso. apply (Qlt_irrefl 0). eapply Qlt_le_trans; eassumption.
  - cbn [Gacha.weightedWalk]. cbv zeta.
    inversion Hpos as [|? ? Hw Hpos']; subst.
    cbn [foldl] in Hle. rewrite foldl_Qplus_acc in Hle.
    destruct (Qle_bool (random - w) 0) eqn:Hhit.
    + apply Qle_bool_iff in Hhit. exists 0%nat, it, w. repeat split.
      apply Qlt_le_trans with random; [exact Hr|].
      apply Qplus_le_l with (z := (- w)%Q). 
      setoid_replace (w + - w)%Q with 0%Q using relation Qeq by ring.
      exact Hhit.
    + assert (Hgt : (0 < random - w)%Q).
      { apply Qnot_le_lt. intros Hc. apply Qle_bool_iff in Hc. congruence. }
      destruct (IH weights (random - w)%Q) as (i & x & w' & Hwalk & Hi & Hwi & Hw');
        [cbn in Hlen; lia | exact Hpos' | exact Hgt | |].
      * apply Qplus_le_l with (z := w).
        setoid_replace (random - w + w)%Q with random using relation Qeq by ring.
        setoid_replace (foldl (fun sum weight => sum + weight) 0 weights + w)%Q
          with (0 + w + foldl (fun sum weight => sum + weight) 0 weights)%Q
          using relation Qeq by ring.
        exact Hle.
      * exists (S i), x, w'. repeat split; assumption.
Qed.

(** X3.  with non-negative weights of positive sum and a random value in
    (0, 1], the selector returns an item of positive weight from its loop. *)
Theorem weightedChoice_selects_positive_weight {T} (items : list T) weights r :
  length items = length weights ->
  Forall (fun w => 0 <= w)%Q weights ->
  (0 < foldl (fun sum weight => sum + weight) 0 weights)%Q ->
  (0 < r)%Q -> (r <= 1)%Q ->
  exists (i : nat) x w,
    Gacha.weightedChoice items weights r = Some x /\
    Gacha.weightedWalk items weights
      (r * foldl (fun sum weight => sum + weight) 0 weights)%Q = Some x /\
    items !! i = Some x /\ weights !! i = Some w /\ (0 < w)%Q.
Proof.
  intros Hlen Hpos Htotal Hr0 Hr1.
  destruct (weightedWalk_positive items weights
              (r * foldl (fun sum weight => sum + weight) 0 weights)%Q)
    as (i & x & w & Hwalk & Hi & Hwi & Hw);
    [exact Hlen | exact Hpos | | |].
  - apply Qmult_lt_0_compat; assumption.
  - setoid_replace (foldl (fun sum weight => sum + weight) 0 weights)%Q
      with (1 * foldl (fun sum weight => sum + weight) 0 weights)%Q
      using relation Qeq at 2 by ring.
    apply Qmult_le_compat_r; [exact Hr1 | apply Qlt_le_weak, Htotal].
  - exists i, x, w. unfold Gacha.weightedChoice. rewrite Hwalk.
    repeat split; assumption.
Qed.

Lemma weightedChoice_selects_positive_weight_witness :
  exists (i : nat) x w,
    Gacha.weightedChoice ["A"; "B"]%string [0; 1]%Q (1 # 2) = Some x /\
    Gacha.weightedWalk ["A"; "B"]%string [0; 1]%Q
      ((1 # 2) * foldl (fun sum weight => sum + weight) 0 [0; 1])%Q = Some x /\
    ["A"; "B"]%string !! i = Some x /\ [0; 1]%Q !! i = Some w /\ (0 < w)%Q.
Proof.
  apply (weightedChoice_selects_positive_weight ["A"; "B"]%string [0; 1]%Q (1 # 2)).
  - reflexivity.
  - repeat constructor; vm_compute; congruence.
  - vm_compute. reflexivity.
  - vm_compute. reflexivity.
  - vm_compute. congruence.
Defined.

(** ** Bookkeeping of the worker pool *)

Lemma setDelete_head (w : nat) ws :
  w ∉ ws -> WorkerManager.setDelete w (w :: ws) = ws.
Proof.
  intros Hw. unfold WorkerManager.setDelete.
  rewrite filter_cons_False by (intros H; apply H; reflexivity).
  induction ws as [|x ws IH]; [reflexivity|].
  rewrite filter_cons_True.
  - f_equal. apply IH. intros H. apply Hw. right. exact H.
  - intros ->. apply Hw. left.
Qed.

Lemma assignNextSimulation_pool workerCount m :
  poolInvariant workerCount m ->
  poolInvariant workerCount (WorkerManager.assignNextSimulation m).
Proof.
  intros (Hworkers & Hflight & Hactive). unfold WorkerManager.assignNextSimulation.
  pose proof (conj Hworkers (conj Hflight Hactive)) as Hinv.
  fold (poolInvariant workerCount m) in Hinv.
  destruct (activeTask m) as [task|] eqn:Htask; [|exact Hinv].
  destruct (task_pendingSimulations task) as [|idx pending] eqn:Hpending;
    [exact Hinv|].
  destruct (availableWorkers m) as [|w ws] eqn:Havail; [exact Hinv|].
  clear Hinv.
  destruct (Hactive task eq_refl) as (Hperm & Hsims & Hcount).
  assert (Hw : w ∉ ws).
  { cbn in Hworkers. apply NoDup_cons in Hworkers as [Hw _].
    intros H. apply Hw. apply elem_of_app. left. exact H. }
  assert (Hbusy : Permutation (ws ++ map wt_workerId (posted m) ++ [w])
                              (w :: ws ++ map wt_workerId (posted m))).
  { rewrite app_assoc. rewrite <- Permutation_cons_append. reflexivity. }
  rewrite (setDelete_head w ws Hw).
  unfold poolInvariant, busyWorkers, inFlight.
  cbn [availableWorkers posted activeTask]. rewrite !map_app. cbn [map].
  split; [|split].
  - rewrite Hbusy. exact Hworkers.
  - unfold inFlight in Hsims. rewrite Hpending in Hsims.
    apply NoDup_app in Hsims as (H1 & H2 & H3).
    apply NoDup_app. split; [exact H1|]. split.
    + intros x Hx Hx'. apply list_elem_of_singleton in Hx' as ->.
      apply (H2 idx Hx). left.
    + apply NoDup_singleton.
  - intros task' [= <-]. cbn. split; [|split].
    + rewrite Hbusy. exact Hperm.
    + unfold inFlight in Hsims. rewrite Hpending in Hsims.
      rewrite <- app_assoc. exact Hsims.
    + rewrite Hpending in Hcount. rewrite length_app. cbn in *. lia.
Qed.

Lemma posted_of_worker (workerId : nat) (l : list WorkerTask) wt :
  NoDup (map wt_workerId l) ->
  List.find (fun wt => (wt_workerId wt =? workerId)%nat) l = Some wt ->
  wt_workerId wt = workerId /\
  Permutation l (wt :: filter (fun wt => wt_workerId wt ≠ workerId) l).
Proof.
  induction l as [|x l IH]; cbn [List.find]; [discriminate|].
  intros Hnd. cbn in Hnd. apply NoDup_cons in Hnd as [Hx Hnd].
  destruct (Nat.eqb_spec (wt_workerId x) workerId) as [Heq|Hne].
  - intros [= <-]. split; [exact Heq|].
    rewrite filter_cons_False by (intros H; apply H; exact Heq).
    constructor.
    assert (Hall : filter (fun wt => wt_workerId wt ≠ workerId) l = l).
    { clear IH Hnd. induction l as [|y l IHl]; [reflexivity|].
      rewrite filter_cons_True.
      - f_equal. apply IHl. intros H. apply Hx. cbn. right. exact H.
      - intros Hy. apply Hx. cbn. rewrite Heq, Hy. left. }
    rewrite Hall. reflexivity.
  - intros Hfind. destruct (IH Hnd Hfind) as [Hid Hperm]. split; [exact Hid|].
    rewrite filter_cons_True by exact Hne.
    rewrite Hperm at 1. apply perm_swap.
Qed.

Lemma NoDup_app_sublist {A} (l1 l1' l2 : list A) :
  l1' `sublist_of` l1 -> NoDup (l1 ++ l2) -> NoDup (l1' ++ l2).
Proof.
  intros Hsub Hnd. eapply sublist_NoDup; [exact Hnd|].
  apply sublist_app; [exact Hsub | reflexivity].
Qed.

Lemma filter_posted_sublist (f : WorkerTask -> nat) workerId l :
  map f (filter (fun wt => wt_workerId wt ≠ workerId) l) `sublist_of` map f l.
Proof. apply (fmap_sublist f). apply sublist_filter. Qed.

Lemma handleWorkerError_pool workerCount error m :
  poolInvariant workerCount m ->
  poolInvariant workerCount (WorkerManager.handleWorkerError error m).
Proof.
  intros Hinv. unfold WorkerManager.handleWorkerError.
  destruct (activeTask m); [|exact Hinv].
  destruct Hinv as (Hworkers & Hflight & _).
  split; [exact Hworkers|]. split; [exact Hflight|]. intros task. discriminate.
Qed.

Lemma completeTask_pool workerCount m :
  activeTask m <> None ->
  poolInvariant workerCount (WorkerManager.completeTask m).
Proof.
  unfold WorkerManager.completeTask. destruct (activeTask m); [|congruence].
  intros _. split; [constructor|]. split; [constructor|]. intros task. discriminate.
Qed.

Lemma assignNextSimulation_active m task :
  activeTask m = Some task ->
  exists task', activeTask (WorkerManager.assignNextSimulation m) = Some task'.
Proof.
  intros Htask. unfold WorkerManager.assignNextSimulation. rewrite Htask.
  destruct (task_pendingSimulations task); [eauto|].
  destruct (availableWorkers m); eauto.
Qed.

Lemma slack_saturated m : slack m = 0%nat -> saturated m.
Proof.
  unfold slack, saturated. intros Hs task Htask. rewrite Htask in Hs.
  destruct (task_pendingSimulations task); [left; reflexivity|].
  destruct (availableWorkers m); [right; reflexivity|]. cbn in Hs. lia.
Qed.

Lemma assignNextSimulation_slack workerCount m :
  poolInvariant workerCount m ->
  slack (WorkerManager.assignNextSimulation m) = pred (slack m).
Proof.
  intros (Hworkers & _ & _).
  unfold WorkerManager.assignNextSimulation, slack.
  destruct (activeTask m) as [task|] eqn:Htask; [|rewrite Htask; reflexivity].
  destruct (task_pendingSimulations task) as [|idx pending] eqn:Hpending.
  { rewrite Htask, Hpending. reflexivity. }
  destruct (availableWorkers m) as [|w ws] eqn:Havail.
  { rewrite Htask, Hpending, Havail. reflexivity. }
  assert (Hw : w ∉ ws).
  { cbn in Hworkers. apply NoDup_cons in Hworkers as [Hw _].
    intros H. apply Hw. apply elem_of_app. left. exact H. }
  rewrite (setDelete_head w ws Hw). cbn. lia.
Qed.

Lemma setAdd_length w s :
  (length (WorkerManager.setAdd w s) <= S (length s))%nat.
Proof.
  unfold WorkerManager.setAdd. destruct (bool_decide _); [lia|].
  rewrite length_app. cbn. lia.
Qed.

Lemma deliver_pool workerCount rngs workerId m m' :
  poolInvariant workerCount m ->
  WorkerManager.deliver rngs workerId m = Some m' ->
  poolInvariant workerCount m' /\ (slack m = 0%nat -> slack m' = 0%nat).
Proof.
  intros (Hworkers & Hflight & Hactive). unfold WorkerManager.deliver.
  destruct (List.find _ (posted m)) as [wt|] eqn:Hfind; [|discriminate].
  destruct (SimulationWorker.onmessage _ _ _ _) as [msg|] eqn:Hmsg;
    [|discriminate].
  intros [= <-].
  assert (Hbusy_nd : NoDup (map wt_workerId (posted m))).
  { apply NoDup_app in Hworkers. apply Hworkers. }
  destruct (posted_of_worker workerId (posted m) wt Hbusy_nd Hfind)
    as [Hid Hperm].
  set (rest := filter (fun wt => wt_workerId wt ≠ workerId) (posted m)) in *.
  assert (Hsub : forall f : WorkerTask -> nat, map f rest `sublist_of` map f (posted m)).
  { intros f. apply filter_posted_sublist. }
  assert (Hrest : forall p, poolInvariant workerCount
            {| availableWorkers := availableWorkers m; posted := rest;
               activeTask := None; promise := p |}).
  { intros p. split; [|split].
    - unfold busyWorkers. cbn. eapply sublist_NoDup; [exact Hworkers|].
      apply sublist_app; [reflexivity | apply Hsub].
    - unfold inFlight. cbn. eapply sublist_NoDup; [exact Hflight | apply Hsub].
    - intros task. discriminate. }
  destruct msg as [w result|error]; cbn [WorkerManager.handleWorkerMessage].
  2:{ unfold WorkerManager.handleWorkerError. cbn.
      destruct (activeTask m); (split; [apply Hrest | reflexivity]). }
  unfold WorkerManager.handleWorkerComplete. cbn [activeTask availableWorkers posted promise].
  destruct (activeTask m) as [task|] eqn:Htask;
    [|split; [apply Hrest | reflexivity]].
  destruct (Hactive task eq_refl) as (Hpool & Hsims & Hcount).
  cbv zeta.
  set (m1 := {| availableWorkers :=
                  WorkerManager.setAdd w (availableWorkers m);
                posted := rest;
                activeTask := Some (WorkerManager.foldOutcome task result);
                promise := promise m |}).
  assert (Hm1 : w = workerId -> poolInvariant workerCount m1).
  { intros ->.
    assert (Hnotin : workerId ∉ availableWorkers m).
    { apply NoDup_app in Hworkers as (_ & Hdisj & _). intros Hin.
      apply (Hdisj _ Hin). unfold busyWorkers. rewrite Hperm. cbn.
      rewrite Hid. left. }
    assert (Hadd : WorkerManager.setAdd workerId (availableWorkers m)
                   = availableWorkers m ++ [workerId]).
    { unfold WorkerManager.setAdd. rewrite bool_decide_eq_false_2 by exact Hnotin.
      reflexivity. }
    assert (Hsame : Permutation
              ((availableWorkers m ++ [workerId]) ++ map wt_workerId rest)
              (availableWorkers m ++ busyWorkers m)).
    { unfold busyWorkers. rewrite Hperm. cbn [map]. rewrite Hid.
      rewrite <- app_assoc. cbn. reflexivity. }
    unfold m1, poolInvariant, busyWorkers, inFlight. cbn. rewrite Hadd.
    split; [|split].
    - rewrite Hsame. exact Hworkers.
    - eapply sublist_NoDup; [exact Hflight | apply Hsub].
    - intros task' [= <-]. cbn. split; [|split].
      + rewrite Hsame. exact Hpool.
      + eapply NoDup_app_sublist; [apply Hsub | exact Hsims].
      + apply Permutation_length in Hperm. cbn in Hperm. lia. }
  assert (Hw : w = workerId).
  { unfold SimulationWorker.onmessage in Hmsg.
    destruct (SimulationWorker.chouShuTongJi _ _ _) as [[?|?]|];
      congruence. }
  specialize (Hm1 Hw).
  destruct (_ <=? _)%nat.
  - split.
    + apply completeTask_pool.
      destruct (assignNextSimulation_active m1 _ eq_refl) as [task' Ht].
      fold m1. rewrite Ht. discriminate.
    + intros _. unfold WorkerManager.completeTask.
      destruct (activeTask (WorkerManager.assignNextSimulation _)) eqn:Ht;
        [reflexivity | unfold slack; rewrite Ht; reflexivity].
  - split; [apply assignNextSimulation_pool; exact Hm1|].
    intros Hslack. fold m1.
    rewrite (assignNextSimulation_slack workerCount m1 Hm1).
    unfold slack in Hslack |- *. rewrite Htask in Hslack.
    unfold m1. cbn.
    pose proof (setAdd_length w (availableWorkers m)). lia.
Qed.

Lemma run_pool workerCount rngs schedule : forall m m',
  poolInvariant workerCount m -> slack m = 0%nat ->
  WorkerManager.run rngs schedule m = Some m' ->
  poolInvariant workerCount m' /\ slack m' = 0%nat.
Proof.
  induction schedule as [|w schedule IH]; intros m m' Hinv Hslack; cbn.
  - intros [= <-]. split; assumption.
  - destruct (WorkerManager.deliver rngs w m) as [m1|] eqn:Hd; [|discriminate].
    destruct (deliver_pool workerCount rngs w m m1 Hinv Hd) as [Hinv1 Hslack1].
    apply IH; [exact Hinv1 | apply Hslack1, Hslack].
Qed.

Lemma iter_assign_pool workerCount k m :
  poolInvariant workerCount m ->
  poolInvariant workerCount (Nat.iter k WorkerManager.assignNextSimulation m).
Proof.
  intros Hinv. induction k as [|k IH]; [exact Hinv|].
  cbn. apply assignNextSimulation_pool, IH.
Qed.

Lemma iter_assign_slack workerCount k : forall m,
  poolInvariant workerCount m ->
  slack (Nat.iter k WorkerManager.assignNextSimulation m) = (slack m - k)%nat.
Proof.
  induction k as [|k IH]; intros m Hinv; simpl Nat.iter.
  - lia.
  - rewrite (assignNextSimulation_slack workerCount)
      by (apply iter_assign_pool; exact Hinv).
    rewrite IH by exact Hinv. lia.
Qed.

Lemma initial_pool workerCount N operatorConfig basePity :
  poolInvariant workerCount
    {| availableWorkers := seq 0 workerCount;
       posted := [];
       activeTask :=
         Some {| task_totalSimulations := N;
                 task_completedSimulations := 0;
                 task_pendingSimulations := seq 0 N;
                 task_operatorConfig := operatorConfig;
                 task_basePity := basePity;
                 task_drawsBucket := ∅;
                 task_characterCounts := ∅ |};
       promise := Pending |}.
Proof.
  unfold poolInvariant, busyWorkers, inFlight. cbn. rewrite app_nil_r.
  split; [apply NoDup_seq|]. split; [constructor|].
  intros task [= <-]. cbn. split; [reflexivity|]. split; [apply NoDup_seq|].
  rewrite length_seq. lia.
Qed.

Lemma runCPUSimulation_pool workerCount N operatorConfig basePity :
  poolInvariant workerCount
    (WorkerManager.runCPUSimulation workerCount N operatorConfig basePity) /\
  slack (WorkerManager.runCPUSimulation workerCount N operatorConfig basePity)
  = 0%nat.
Proof.
  unfold WorkerManager.runCPUSimulation. split.
  - apply iter_assign_pool, initial_pool.
  - rewrite (iter_assign_slack workerCount) by apply initial_pool.
    unfold slack. cbn. rewrite !length_seq. lia.
Qed.

(** X4.  along a worker-pool run no worker is booked twice and no simulation is
    handed out twice. *)
Theorem pool_never_double_books workerCount N operatorConfig basePity
    rngs schedule m :
  WorkerManager.run rngs schedule
    (WorkerManager.runCPUSimulation workerCount N operatorConfig basePity)
  = Some m ->
  NoDup (busyWorkers m) /\
  (forall w, w ∈ availableWorkers m -> w ∉ busyWorkers m) /\
  NoDup (inFlight m) /\
  forall task, activeTask m = Some task ->
    Permutation (availableWorkers m ++ busyWorkers m) (seq 0 workerCount) /\
    (forall i, i ∈ inFlight m -> i ∉ task_pendingSimulations task).
Proof.
  intros Hrun.
  destruct (runCPUSimulation_pool workerCount N operatorConfig basePity)
    as [Hinv0 Hslack0].
  destruct (run_pool _ _ _ _ _ Hinv0 Hslack0 Hrun)
    as [(Hworkers & Hflight & Hactive) _].
  apply NoDup_app in Hworkers as (_ & Hdisj & Hbusy).
  split; [exact Hbusy|]. split; [exact Hdisj|]. split; [exact Hflight|].
  intros task Htask. destruct (Hactive task Htask) as (Hperm & Hsims & _).
  split; [exact Hperm|]. apply NoDup_app in Hsims. apply Hsims.
Qed.

(** X5.  while the task is active every simulation is completed, in flight or
    pending, and no worker is idle while a simulation is pending. *)
Theorem pool_accounts_for_every_simulation workerCount N operatorConfig
    basePity rngs schedule m task :
  WorkerManager.run rngs schedule
    (WorkerManager.runCPUSimulation workerCount N operatorConfig basePity)
  = Some m ->
  activeTask m = Some task ->
  (task_completedSimulations task + length (posted m)
   + length (task_pendingSimulations task) = N)%nat /\
  (task_pendingSimulations task = [] \/ availableWorkers m = []).
Proof.
  intros Hrun Htask.
  destruct (runCPUSimulation_pool workerCount N operatorConfig basePity)
    as [Hinv0 Hslack0].
  destruct (run_pool _ _ _ _ _ Hinv0 Hslack0 Hrun)
    as [(_ & _ & Hactive) Hslack].
  destruct (Hactive task Htask) as (_ & _ & Hcount).
  pose proof (run_invariant N rngs schedule _ _
                (runCPUSimulation_invariant workerCount N operatorConfig basePity)
                Hrun) as [Hcpu _].
  destruct (Hcpu task Htask) as (HN & _).
  split; [lia|]. apply slack_saturated; assumption.
Qed.

Lemma pool_never_double_books_witness :
  exists m,
    WorkerManager.run luckyRngs [0%nat]
      (WorkerManager.runCPUSimulation 2 3 singleConfig 0) = Some m /\
    NoDup (busyWorkers m) /\
    (forall w, w ∈ availableWorkers m -> w ∉ busyWorkers m) /\
    NoDup (inFlight m) /\
    forall task, activeTask m = Some task ->
      Permutation (availableWorkers m ++ busyWorkers m) (seq 0 2) /\
      (forall i, i ∈ inFlight m -> i ∉ task_pendingSimulations task).
Proof.
  eexists. split; [vm_compute; reflexivity|].
  apply (pool_never_double_books 2 3 singleConfig 0 luckyRngs [0%nat]).
  vm_compute. reflexivity.
Defined.

Lemma pool_accounts_for_every_simulation_witness :
  exists m task,
    WorkerManager.run luckyRngs [0%nat]
      (WorkerManager.runCPUSimulation 2 4 singleConfig 0) = Some m /\
    activeTask m = Some task /\
    (task_completedSimulations task + length (posted m)
     + length (task_pendingSimulations task) = 4)%nat /\
    (task_pendingSimulations task = [] \/ availableWorkers m = []).
Proof.
  eexists. eexists. split; [vm_compute; reflexivity|].
  split; [reflexivity|].
  apply (pool_accounts_for_every_simulation 2 4 singleConfig 0 luckyRngs [0%nat]).
  - vm_compute. reflexivity.
  - reflexivity.
Defined.

(** ** Settling the promise *)

Lemma assignNextSimulation_settled m :
  settledOnce m -> settledOnce (WorkerManager.assignNextSimulation m).
Proof.
  unfold settledOnce, WorkerManager.assignNextSimulation.
  intros [Hp|Hnone].
  - destruct (activeTask m) as [task|]; [|left; exact Hp].
    destruct (task_pendingSimulations task); [left; exact Hp|].
    destruct (availableWorkers m); left; exact Hp.
  - rewrite Hnone. right. exact Hnone.
Qed.

Lemma deliver_inactive rngs workerId m m' :
  activeTask m = None ->
  WorkerManager.deliver rngs workerId m = Some m' ->
  activeTask m' = None /\ promise m' = promise m.
Proof.
  intros Hnone. unfold WorkerManager.deliver.
  destruct (List.find _ (posted m)); [|discriminate].
  destruct (SimulationWorker.onmessage _ _ _ _) as [[w0 result|error]|];
    [| |discriminate]; intros [= <-];
    unfold WorkerManager.handleWorkerMessage, WorkerManager.handleWorkerComplete,
           WorkerManager.handleWorkerError;
    cbn; rewrite Hnone; cbn; split; reflexivity || exact Hnone.
Qed.

Lemma deliver_settled rngs workerId m m' :
  settledOnce m ->
  WorkerManager.deliver rngs workerId m = Some m' -> settledOnce m'.
Proof.
  intros Hs Hd. destruct (activeTask m) as [task|] eqn:Htask.
  2:{ right. eapply deliver_inactive; eassumption. }
  destruct Hs as [Hp|Hnone]; [|congruence].
  revert Hd. unfold WorkerManager.deliver.
  destruct (List.find _ (posted m)); [|discriminate].
  destruct (SimulationWorker.onmessage _ _ _ _) as [[w0 result|error]|];
    [| |discriminate]; intros [= <-].
  - unfold WorkerManager.handleWorkerMessage, WorkerManager.handleWorkerComplete.
    cbn [activeTask availableWorkers posted promise]. rewrite Htask. cbv zeta.
    match goal with
    | |- settledOnce (if _ then WorkerManager.completeTask ?x else _) =>
        assert (Hx : settledOnce x)
          by (apply assignNextSimulation_settled; left; exact Hp);
        destruct (_ <=? _)%nat; [|exact Hx];
        unfold WorkerManager.completeTask;
        destruct (activeTask x) eqn:Hax; [right; reflexivity | right; exact Hax]
    end.
  - unfold WorkerManager.handleWorkerMessage, WorkerManager.handleWorkerError.
    cbn. rewrite Htask. right. reflexivity.
Qed.

Lemma run_settled rngs schedule : forall m m',
  settledOnce m -> WorkerManager.run rngs schedule m = Some m' ->
  settledOnce m'.
Proof.
  induction schedule as [|w schedule IH]; intros m m' Hs; cbn.
  - intros [= <-]. exact Hs.
  - destruct (WorkerManager.deliver rngs w m) as [m1|] eqn:Hd; [|discriminate].
    apply IH. eapply deliver_settled; eassumption.
Qed.

Lemma run_inactive rngs schedule : forall m m',
  activeTask m = None -> WorkerManager.run rngs schedule m = Some m' ->
  promise m' = promise m.
Proof.
  induction schedule as [|w schedule IH]; intros m m' Hnone; cbn.
  - intros [= <-]. reflexivity.
  - destruct (WorkerManager.deliver rngs w m) as [m1|] eqn:Hd; [|discriminate].
    destruct (deliver_inactive _ _ _ _ Hnone Hd) as [Hnone1 Hp1].
    intros Hrun. rewrite (IH _ _ Hnone1 Hrun). exact Hp1.
Qed.

Lemma iter_assign_settled k m :
  settledOnce m ->
  settledOnce (Nat.iter k WorkerManager.assignNextSimulation m).
Proof.
  intros Hs. induction k as [|k IH]; [exact Hs|].
  cbn. apply assignNextSimulation_settled, IH.
Qed.

Lemma runCPUSimulation_settled workerCount N operatorConfig basePity :
  settledOnce
    (WorkerManager.runCPUSimulation workerCount N operatorConfig basePity).
Proof.
  unfold WorkerManager.runCPUSimulation. apply iter_assign_settled.
  left. reflexivity.
Qed.

(** X6.  the promise of a run is settled at most once: whatever the workers
    report after it has been resolved or rejected leaves it as it is. *)
Theorem settled_promise_never_changes workerCount N operatorConfig basePity
    rngs schedule later m m' :
  WorkerManager.run rngs schedule
    (WorkerManager.runCPUSimulation workerCount N operatorConfig basePity)
  = Some m ->
  promise m <> Pending ->
  WorkerManager.run rngs later m = Some m' ->
  promise m' = promise m.
Proof.
  intros Hrun Hsettled Hlater.
  pose proof (run_settled _ _ _ _
                (runCPUSimulation_settled workerCount N operatorConfig basePity)
                Hrun) as [Hp|Hnone]; [contradiction|].
  eapply run_inactive; eassumption.
Qed.

Lemma settled_promise_never_changes_witness :
  exists m m',
    WorkerManager.run (fun _ => []) [0%nat]
      (WorkerManager.runCPUSimulation 2 2 [] 0) = Some m /\
    promise m <> Pending /\
    WorkerManager.run (fun _ => []) [1%nat] m = Some m' /\
    promise m' = promise m.
Proof.
  eexists. eexists. split; [vm_compute; reflexivity|].
  split; [discriminate|]. split; [vm_compute; reflexivity|].
  apply (settled_promise_never_changes 2 2 [] 0 (fun _ => []) [0%nat] [1%nat]).
  - vm_compute. reflexivity.
  - discriminate.
  - vm_compute. reflexivity.
Defined.

(** ** An empty configuration *)

Lemma run_rejects_empty workerCount N basePity rngs schedule m :
  schedule <> [] ->
  WorkerManager.run rngs schedule
    (WorkerManager.runCPUSimulation workerCount N [] basePity) = Some m ->
  promise m = Rejected "干员配置不能为空".
Proof.
  intros Hne. destruct schedule as [|w schedule]; [congruence|]. clear Hne.
  cbn [WorkerManager.run].
  destruct (WorkerManager.deliver _ _ _) as [m1|] eqn:Hd; [|discriminate].
  intros Hrun.
  destruct (runCPUSimulation_underWay workerCount N [] basePity)
    as [(task & Htask & _) Hposted].
  assert (Hm1 : activeTask m1 = None /\ promise m1 = Rejected "干员配置不能为空").
  { revert Hd. unfold WorkerManager.deliver.
    destruct (List.find _ (posted _)) as [wt|] eqn:Hfind; [|discriminate].
    apply find_some in Hfind as [Hin _].
    rewrite Forall_forall in Hposted. apply list_elem_of_In in Hin.
    rewrite (Hposted wt Hin). cbn [SimulationWorker.onmessage
      SimulationWorker.chouShuTongJi].
    intros [= <-]. unfold WorkerManager.handleWorkerMessage,
      WorkerManager.handleWorkerError.
    cbn [activeTask availableWorkers posted promise]. rewrite Htask.
    split; reflexivity. }
  destruct Hm1 as [Hnone Hp].
  rewrite (run_inactive _ _ _ _ Hnone Hrun). exact Hp.
Qed.

(** X7.  a run with an empty configuration is rejected by the first worker
    that answers, with the worker script's message, whichever path the
    GPU switch selects first. *)
Theorem empty_configuration_rejects_run gpuIsAvailable workerCount N basePity
    device rngs schedule p :
  schedule <> [] ->
  WorkerManager.runSimulation false gpuIsAvailable workerCount N [] basePity
                              device rngs schedule = Some p ->
  p = Rejected "干员配置不能为空".
Proof.
  intros Hne. unfold WorkerManager.runSimulation. cbn [andb].
  change (WorkerManager.sortedOperatorConfig [])
    with (@nil (string * OperatorEntry)).
  unfold WorkerManager.cpuPromise.
  destruct (WorkerManager.run _ _ _) as [m|] eqn:Hrun; [|discriminate].
  cbn. intros [= <-]. eapply run_rejects_empty; eassumption.
Qed.

Lemma empty_configuration_rejects_run_witness :
  exists p,
    WorkerManager.runSimulation false false 2 5 [] 0 [] (fun _ => [])
                                [0%nat; 1%nat] = Some p /\
    p = Rejected "干员配置不能为空".
Proof.
  eexists. split; [vm_compute; reflexivity|].
  apply (empty_configuration_rejects_run false 2 5 0 [] (fun _ => [])
           [0%nat; 1%nat]).
  - discriminate.
  - vm_compute. reflexivity.
Defined.

(** ** The aggregate of a task *)

(** ** The bucket keeps the total number of draws *)

Lemma foldl_total_acc (l : list (Z * nat)) : forall a,
  foldl (fun total '(draws, c) => total + draws * Z.of_nat c) a l
  = a + foldr (fun '(draws, c) acc => draws * Z.of_nat c + acc) 0 l.
Proof.
  induction l as [|[d c] l IH]; intros a; cbn; [lia|]. rewrite IH. lia.
Qed.

Lemma getTotalDrawsFromBucket_fold (bucket : gmap Z nat) :
  WorkerManager.getTotalDrawsFromBucket bucket
  = map_fold (fun draws c acc => draws * Z.of_nat c + acc) 0 bucket.
Proof.
  unfold WorkerManager.getTotalDrawsFromBucket.
  rewrite foldl_total_acc, map_fold_foldr. cbn.
  f_equal.
Qed.

Lemma getTotalDrawsFromBucket_insert_fresh (bucket : gmap Z nat) draws c :
  bucket !! draws = None ->
  WorkerManager.getTotalDrawsFromBucket (<[draws := c]> bucket)
  = draws * Z.of_nat c + WorkerManager.getTotalDrawsFromBucket bucket.
Proof.
  intros Hk. rewrite !getTotalDrawsFromBucket_fold.
  rewrite map_fold_insert_L; [reflexivity | intros; lia | exact Hk].
Qed.

Lemma getTotalDrawsFromBucket_bumpBucket (bucket : gmap Z nat) draws :
  WorkerManager.getTotalDrawsFromBucket (WorkerManager.bumpBucket bucket draws)
  = WorkerManager.getTotalDrawsFromBucket bucket + draws.
Proof.
  rewrite bumpBucket_insert.
  destruct (bucket !! draws) as [c|] eqn:Hk; cbn [default].
  - rewrite <- (insert_delete_eq bucket draws (S c)).
    rewrite getTotalDrawsFromBucket_insert_fresh by apply lookup_delete_eq.
    rewrite <- (insert_id bucket draws c Hk) at 2.
    rewrite <- (insert_delete_eq bucket draws c).
    rewrite getTotalDrawsFromBucket_insert_fresh by apply lookup_delete_eq.
    lia.
  - rewrite getTotalDrawsFromBucket_insert_fresh by exact Hk. lia.
Qed.

(** X8.  the bucket of a task keeps the total number of draws of the outcomes
    folded into it. *)
Theorem bucket_keeps_total_draws (results : list SingleSimulationResult) :
  forall task,
    WorkerManager.getTotalDrawsFromBucket
      (task_drawsBucket (foldl WorkerManager.foldOutcome task results))
    = WorkerManager.getTotalDrawsFromBucket (task_drawsBucket task)
      + sumDraws results.
Proof.
  induction results as [|result results IH]; intros task; cbn [foldl sumDraws foldr].
  - lia.
  - rewrite IH. cbn [WorkerManager.foldOutcome task_drawsBucket].
    rewrite getTotalDrawsFromBucket_bumpBucket. unfold sumDraws. lia.
Qed.


(** ** The sorted entries of a bucket *)

Lemma insertEntry_permutation e l :
  Permutation (WorkerManager.insertEntry e l) (e :: l).
Proof.
  induction l as [|h t IH]; cbn; [reflexivity|].
  destruct (e.1 <=? h.1); [reflexivity|].
  rewrite IH. apply perm_swap.
Qed.

Lemma sortByDraws_permutation l : Permutation (WorkerManager.sortByDraws l) l.
Proof.
  induction l as [|e l IH]; cbn; [reflexivity|].
  rewrite insertEntry_permutation, IH. reflexivity.
Qed.

Lemma insertEntry_sorted e l :
  StronglySorted (fun a b : Z * nat => a.1 <= b.1) l ->
  StronglySorted (fun a b : Z * nat => a.1 <= b.1) (WorkerManager.insertEntry e l).
Proof.
  induction l as [|h t IH]; intros Hs; cbn.
  - repeat constructor.
  - apply StronglySorted_inv in Hs as [Hs Hh].
    destruct (Z.leb_spec e.1 h.1) as [Hle|Hgt].
    + constructor; [constructor; assumption|].
      constructor; [exact Hle|].
      eapply Forall_impl; [exact Hh|]. cbn. intros; lia.
    + constructor; [apply IH, Hs|].
      rewrite insertEntry_permutation. constructor; [lia | exact Hh].
Qed.

Lemma sortByDraws_sorted l :
  StronglySorted (fun a b : Z * nat => a.1 <= b.1) (WorkerManager.sortByDraws l).
Proof.
  induction l as [|e l IH]; cbn; [constructor|]. apply insertEntry_sorted, IH.
Qed.

Lemma sorted_strict (l : list (Z * nat)) :
  NoDup (map fst l) ->
  StronglySorted (fun a b : Z * nat => a.1 <= b.1) l ->
  StronglySorted (fun a b : Z * nat => a.1 < b.1) l.
Proof.
  induction l as [|h t IH]; intros Hnd Hs; [constructor|].
  cbn in Hnd. apply NoDup_cons in Hnd as [Hh Hnd].
  apply StronglySorted_inv in Hs as [Hs Hle].
  constructor; [apply IH; assumption|].
  rewrite Forall_forall in Hle |- *. intros x Hx.
  specialize (Hle x Hx). assert (h.1 <> x.1); [|lia].
  intros Heq. apply Hh. rewrite Heq. apply list_elem_of_In.
  apply in_map. apply list_elem_of_In. exact Hx.
Qed.

Lemma bucketEntries_permutation (bucket : gmap Z nat) :
  Permutation (WorkerManager.bucketEntries bucket) (map_to_list bucket).
Proof. apply sortByDraws_permutation. Qed.

Lemma bucketEntries_sorted (bucket : gmap Z nat) :
  StronglySorted (fun a b : Z * nat => a.1 < b.1)
                 (WorkerManager.bucketEntries bucket).
Proof.
  apply sorted_strict; [|apply sortByDraws_sorted].
  rewrite (Permutation_map fst (bucketEntries_permutation bucket)).
  apply (NoDup_fst_map_to_list bucket).
Qed.

Lemma bucketEntries_elem (bucket : gmap Z nat) draws c :
  (draws, c) ∈ WorkerManager.bucketEntries bucket <-> bucket !! draws = Some c.
Proof.
  rewrite bucketEntries_permutation. apply elem_of_map_to_list.
Qed.

Lemma foldr_count_permutation (l1 l2 : list (Z * nat)) :
  Permutation l1 l2 ->
  foldr (fun e acc => (e.2 + acc)%nat) 0%nat l1
  = foldr (fun e acc => (e.2 + acc)%nat) 0%nat l2.
Proof.
  induction 1; cbn; lia.
Qed.

Lemma sumValues_map_to_list (bucket : gmap Z nat) :
  sumValues bucket = countSum (map_to_list bucket).
Proof.
  unfold countSum, sumValues. rewrite map_fold_foldr.
  induction (map_to_list bucket) as [|[d c] l IH]; cbn; [reflexivity|].
  rewrite IH. reflexivity.
Qed.

Lemma bucketEntries_countSum (bucket : gmap Z nat) :
  countSum (WorkerManager.bucketEntries bucket) = sumValues bucket.
Proof.
  rewrite sumValues_map_to_list. unfold countSum.
  apply foldr_count_permutation, bucketEntries_permutation.
Qed.

(** ** The cumulative probability curve *)

Lemma probability_monotone (N k k' : nat) :
  (0 < N)%nat -> (k <= k')%nat ->
  (inject_Z (Z.of_nat k) / inject_Z (Z.of_nat N) * 100
   <= inject_Z (Z.of_nat k') / inject_Z (Z.of_nat N) * 100)%Q.
Proof.
  intros HN Hk.
  apply Qmult_le_compat_r; [|discriminate].
  unfold Qdiv. apply Qmult_le_compat_r.
  - rewrite <- Zle_Qle. lia.
  - apply Qinv_le_0_compat. change 0%Q with (inject_Z 0). rewrite <- Zle_Qle. lia.
Qed.

Lemma probability_full (N : nat) :
  (0 < N)%nat ->
  (inject_Z (Z.of_nat N) / inject_Z (Z.of_nat N) * 100 == 100)%Q.
Proof.
  intros HN. field. change 0%Q with (inject_Z 0). rewrite inject_Z_injective. lia.
Qed.

Lemma cumulativeWalk_keys N : forall entries acc,
  map fst (WorkerManager.cumulativeWalk N acc entries) = map fst entries.
Proof.
  induction entries as [|[d c] entries IH]; intros acc; cbn; [reflexivity|].
  rewrite IH. reflexivity.
Qed.

Lemma cumulativeWalk_bounds N : forall entries acc,
  (0 < N)%nat ->
  Forall (fun p =>
            inject_Z (Z.of_nat acc) / inject_Z (Z.of_nat N) * 100 <= p /\
            p <= inject_Z (Z.of_nat (acc + countSum entries))
                 / inject_Z (Z.of_nat N) * 100)%Q
         (map snd (WorkerManager.cumulativeWalk N acc entries)).
Proof.
  induction entries as [|[d c] entries IH]; intros acc HN; cbn; [constructor|].
  constructor.
  - split; apply probability_monotone; try exact HN; unfold countSum; cbn; lia.
  - eapply Forall_impl; [apply (IH (acc + c)%nat HN)|].
    cbn. intros p [Hlo Hhi]. split.
    + eapply Qle_trans; [|exact Hlo]. apply probability_monotone; [exact HN | lia].
    + eapply Qle_trans; [exact Hhi|].
      apply probability_monotone; [exact HN | unfold countSum; cbn; lia].
Qed.

Lemma cumulativeWalk_sorted N : forall entries acc,
  (0 < N)%nat ->
  StronglySorted Qle (map snd (WorkerManager.cumulativeWalk N acc entries)).
Proof.
  induction entries as [|[d c] entries IH]; intros acc HN; cbn; [constructor|].
  constructor; [apply IH, HN|].
  eapply Forall_impl; [apply (cumulativeWalk_bounds N entries (acc + c)%nat HN)|].
  cbn. intros p [Hlo _]. exact Hlo.
Qed.

Lemma cumulativeWalk_last N : forall entries acc,
  entries <> [] ->
  exists draws,
    last (WorkerManager.cumulativeWalk N acc entries)
    = Some (draws,
            (inject_Z (Z.of_nat (acc + countSum entries))
             / inject_Z (Z.of_nat N) * 100)%Q).
Proof.
  induction entries as [|[d c] entries IH]; intros acc Hne; [congruence|].
  destruct entries as [|e entries].
  - exists d. cbn. unfold countSum. cbn. rewrite Nat.add_0_r. reflexivity.
  - destruct (IH (acc + c)%nat) as [draws Hlast]; [discriminate|].
    exists draws. cbn [WorkerManager.cumulativeWalk]. destruct e as [d' c'].
    cbn [WorkerManager.cumulativeWalk] in Hlast |- *.
    rewrite last_cons_cons, Hlast. unfold countSum. cbn.
    rewrite !Nat.add_assoc. reflexivity.
Qed.

Lemma sorted_keys (entries : list (Z * nat)) :
  StronglySorted (fun a b : Z * nat => a.1 < b.1) entries ->
  StronglySorted Z.lt (map fst entries).
Proof.
  induction 1 as [|e l Hs IH Hall]; cbn; constructor; [exact IH|].
  apply Forall_fmap. exact Hall.
Qed.

(** X10.  the cumulative probability curve of a bucket holding [N] trials
    lists the observed draws in strictly ascending order, with probabilities
    that never decrease, stay within 0 and 100 and end at 100. *)
Theorem cumulative_probability_is_a_distribution (bucket : gmap Z nat) N :
  (0 < N)%nat -> sumValues bucket = N ->
  let curve := WorkerManager.calculateCumulativeProbability bucket N in
  StronglySorted Z.lt (map fst curve) /\
  (forall draws, draws ∈ map fst curve <-> is_Some (bucket !! draws)) /\
  StronglySorted Qle (map snd curve) /\
  Forall (fun p => 0 <= p /\ p <= 100)%Q (map snd curve) /\
  exists draws p, last curve = Some (draws, p) /\ (p == 100)%Q.
Proof.
  intros HN Hsum. cbv zeta. unfold WorkerManager.calculateCumulativeProbability.
  rewrite cumulativeWalk_keys.
  split; [|split; [|split; [|split]]].
  - apply sorted_keys, bucketEntries_sorted.
  - intros draws. split.
    + intros Hin. apply list_elem_of_In, in_map_iff in Hin as ([d c] & <- & Hin).
      apply list_elem_of_In, bucketEntries_elem in Hin. eexists. exact Hin.
    + intros [c Hc]. apply bucketEntries_elem in Hc.
      apply list_elem_of_In, in_map_iff. exists (draws, c).
      split; [reflexivity | apply list_elem_of_In, Hc].
  - apply cumulativeWalk_sorted, HN.
  - eapply Forall_impl; [apply (cumulativeWalk_bounds N _ 0%nat HN)|].
    cbn. rewrite bucketEntries_countSum, Hsum.
    intros p [Hlo Hhi]. split.
    + eapply Qle_trans; [|exact Hlo]. unfold Qdiv. rewrite !Qmult_0_l.
      apply Qle_refl.
    + eapply Qle_trans; [exact Hhi|]. rewrite probability_full by exact HN.
      apply Qle_refl.
  - destruct (cumulativeWalk_last N (WorkerManager.bucketEntries bucket) 0%nat)
      as [draws Hlast].
    + intros Hnil. pose proof (bucketEntries_countSum bucket) as Hc.
      rewrite Hnil in Hc. cbn in Hc. lia.
    + eexists _, _. split; [exact Hlast|].
      cbn. rewrite bucketEntries_countSum, Hsum. apply probability_full, HN.
Qed.

Lemma cumulative_probability_is_a_distribution_witness :
  let curve := WorkerManager.calculateCumulativeProbability oddBucket 3 in
  StronglySorted Z.lt (map fst curve) /\
  (forall draws, draws ∈ map fst curve <-> is_Some (oddBucket !! draws)) /\
  StronglySorted Qle (map snd curve) /\
  Forall (fun p => 0 <= p /\ p <= 100)%Q (map snd curve) /\
  exists draws p, last curve = Some (draws, p) /\ (p == 100)%Q.
Proof.
  apply (cumulative_probability_is_a_distribution oddBucket 3).
  - lia.
  - vm_compute. reflexivity.
Defined.

(** ** Median and quartiles *)

Lemma medianWalk_specWalk k : forall entries currentCount median,
  WorkerManager.medianWalk k currentCount median entries
  = match specWalk k currentCount entries with
    | Some draws => inject_Z draws
    | None => median
    end.
Proof.
  induction entries as [|[d c] entries IH]; intros currentCount median; cbn;
    [reflexivity|].
  destruct (k <=? currentCount + Z.of_nat c); [reflexivity | apply IH].
Qed.

Lemma specWalk_reaches k : forall entries currentCount,
  entries <> [] ->
  k <= currentCount + Z.of_nat (countSum entries) ->
  exists draws, specWalk k currentCount entries = Some draws /\
                draws ∈ map fst entries.
Proof.
  induction entries as [|[d c] entries IH]; intros currentCount Hne Hk;
    [congruence|].
  cbn [specWalk]. destruct (Z.leb_spec k (currentCount + Z.of_nat c)) as [Hle|Hgt].
  - exists d. split; [reflexivity | left].
  - destruct entries as [|e entries].
    + unfold countSum in Hk. cbn in Hk. lia.
    + destruct (IH (currentCount + Z.of_nat c)) as (draws & Hw & Hin);
        [discriminate | unfold countSum in Hk |- *; cbn in Hk |- *; lia |].
      exists draws. split; [exact Hw | right; exact Hin].
Qed.

Lemma specWalk_lower k : forall entries currentCount draws,
  specWalk k currentCount entries = Some draws -> draws ∈ map fst entries.
Proof.
  induction entries as [|[d c] entries IH]; intros currentCount draws;
    cbn [specWalk]; [discriminate|].
  destruct (k <=? currentCount + Z.of_nat c).
  - intros [= <-]. left.
  - intros Hw. right. eapply IH, Hw.
Qed.

Lemma specWalk_monotone k k' : forall entries currentCount draws draws',
  StronglySorted (fun a b : Z * nat => a.1 < b.1) entries ->
  k <= k' ->
  specWalk k currentCount entries = Some draws ->
  specWalk k' currentCount entries = Some draws' ->
  draws <= draws'.
Proof.
  induction entries as [|[d c] entries IH]; intros currentCount draws draws' Hs Hk;
    cbn [specWalk]; [discriminate|].
  apply StronglySorted_inv in Hs as [Hs Hd].
  destruct (Z.leb_spec k (currentCount + Z.of_nat c)) as [Hle|Hgt];
    destruct (Z.leb_spec k' (currentCount + Z.of_nat c)) as [Hle'|Hgt'].
  - intros [= <-] [= <-]. lia.
  - intros [= <-] Hw'. apply specWalk_lower in Hw'.
    apply list_elem_of_In, in_map_iff in Hw' as ([d' c'] & <- & Hin).
    rewrite Forall_forall in Hd. apply list_elem_of_In in Hin.
    specialize (Hd _ Hin). cbn in Hd |- *. lia.
  - lia.
  - apply IH; assumption.
Qed.

Lemma quartileWalk_spec mean p25Index p75Index :
  p25Index <= p75Index ->
  forall entries currentCount p25 p75 d75,
    StronglySorted (fun a b : Z * nat => a.1 < b.1) entries ->
    specWalk p75Index currentCount entries = Some d75 ->
    (Qeq_bool p25 mean = true \/
     exists d, p25 = inject_Z d /\ Forall (fun e : Z * nat => d < e.1) entries) ->
    exists d25,
      WorkerManager.quartileWalk mean p25Index p75Index currentCount p25 p75
                                 entries
      = (inject_Z d25, inject_Z d75) /\
      d25 <= d75 /\
      (d25 ∈ map fst entries \/
       (p25 = inject_Z d25 /\ Qeq_bool p25 mean = false)).
Proof.
  intros Hidx.
  induction entries as [|[d c] entries IH]; intros currentCount p25 p75 d75 Hs;
    cbn [specWalk WorkerManager.quartileWalk]; [discriminate|].
  apply StronglySorted_inv in Hs as [Hs Hd]. cbv zeta.
  destruct (Z.leb_spec p75Index (currentCount + Z.of_nat c)) as [Hle|Hgt].
  - intros [= <-] Hp25.
    destruct (Qeq_bool p25 mean) eqn:Hq.
    + exists d. replace (p25Index <=? currentCount + Z.of_nat c) with true
        by (symmetry; apply Z.leb_le; lia).
      cbn. split; [reflexivity|]. split; [lia | left; left].
    + destruct Hp25 as [Hp25|(d0 & -> & Hd0)]; [congruence|].
      exists d0. cbn. split; [reflexivity|].
      apply Forall_cons in Hd0 as [Hd0 _]. cbn in Hd0.
      split; [lia | right; split; reflexivity].
  - intros Hw Hp25.
    set (p25' := if Qeq_bool p25 mean && (p25Index <=? currentCount + Z.of_nat c)
                 then inject_Z d else p25).
    assert (Hp25' : Qeq_bool p25' mean = true \/
                    exists d0, p25' = inject_Z d0 /\
                               Forall (fun e : Z * nat => d0 < e.1) entries).
    { unfold p25'.
      destruct (Qeq_bool p25 mean && (p25Index <=? currentCount + Z.of_nat c))
        eqn:Hassign.
      - right. exists d. split; [reflexivity | exact Hd].
      - destruct Hp25 as [Hp25|(d0 & -> & Hd0)]; [left; exact Hp25|].
        right. exists d0. split; [reflexivity|].
        apply Forall_cons in Hd0 as [_ Hd0]. exact Hd0. }
    destruct (IH (currentCount + Z.of_nat c) p25' p75 d75 Hs Hw Hp25')
      as (d25 & Hwalk & Hle25 & Hin).
    exists d25. split; [exact Hwalk|]. split; [exact Hle25|].
    destruct Hin as [Hin|[Heq Hq]]; [left; right; exact Hin|].
    unfold p25' in Heq, Hq.
    destruct (Qeq_bool p25 mean && (p25Index <=? currentCount + Z.of_nat c)).
    + left. assert (d = d25) as <-; [|left].
      injection Heq. lia.
    + right. split; assumption.
Qed.

Lemma foldl_count_acc (entries : list (Z * nat)) : forall a,
  foldl (fun sum e => sum + Z.of_nat e.2) a entries
  = a + Z.of_nat (countSum entries).
Proof.
  induction entries as [|e entries IH]; intros a; unfold countSum; cbn.
  - lia.
  - rewrite IH. unfold countSum. lia.
Qed.

Lemma Qfloor_share (n : Z) (q : Q) :
  0 <= n -> (0 <= q)%Q -> (q <= 1)%Q -> 0 <= Qfloor (inject_Z n * q) <= n.
Proof.
  intros Hn Hq0 Hq1. split.
  - change 0 with (Qfloor 0). apply Qfloor_resp_le.
    apply Qmult_le_0_compat; [|exact Hq0].
    change 0%Q with (inject_Z 0). rewrite <- Zle_Qle. exact Hn.
  - rewrite <- (Qfloor_Z n) at 2. apply Qfloor_resp_le.
    setoid_replace (inject_Z n * q)%Q with (q * inject_Z n)%Q
      using relation Qeq by ring.
    setoid_replace (inject_Z n) with (1 * inject_Z n)%Q using relation Qeq at 2
      by ring.
    apply Qmult_le_compat_r; [exact Hq1|].
    change 0%Q with (inject_Z 0). rewrite <- Zle_Qle. exact Hn.
Qed.

Lemma Qfloor_share_monotone (n : Z) (q q' : Q) :
  0 <= n -> (q <= q')%Q ->
  Qfloor (inject_Z n * q) <= Qfloor (inject_Z n * q').
Proof.
  intros Hn Hq. apply Qfloor_resp_le.
  setoid_replace (inject_Z n * q)%Q with (q * inject_Z n)%Q
    using relation Qeq by ring.
  setoid_replace (inject_Z n * q')%Q with (q' * inject_Z n)%Q
    using relation Qeq by ring.
  apply Qmult_le_compat_r; [exact Hq|].
  change 0%Q with (inject_Z 0). rewrite <- Zle_Qle. exact Hn.
Qed.

(** X11.  for a bucket that holds at least one trial, the median and the two
    quartiles are draw counts the bucket holds, and neither the median nor
    the lower quartile exceeds the upper quartile. *)
Theorem quartiles_are_observed_draws (bucket : gmap Z nat) :
  (0 < sumValues bucket)%nat ->
  let data := WorkerManager.calculateStatisticalData bucket in
  exists dm d25 d75,
    median data = inject_Z dm /\ p25 data = inject_Z d25 /\
    p75 data = inject_Z d75 /\
    is_Some (bucket !! dm) /\ is_Some (bucket !! d25) /\
    is_Some (bucket !! d75) /\
    dm <= d75 /\ d25 <= d75.
Proof.
  intros Hpos. cbv zeta. unfold WorkerManager.calculateStatisticalData.
  set (entries := WorkerManager.bucketEntries bucket).
  rewrite (foldl_count_acc entries 0).
  assert (Hcount : countSum entries = sumValues bucket)
    by apply bucketEntries_countSum.
  rewrite Hcount, !Z.add_0_l.
  set (T := Z.of_nat (sumValues bucket)).
  assert (HT : 0 < T) by (unfold T; lia).
  match goal with
  | |- context [WorkerManager.quartileWalk ?mu _ _ _ _ _ _] => set (mean := mu)
  end.
  assert (Hne : entries <> []).
  { intros Hnil. rewrite Hnil in Hcount. cbn in Hcount. lia. }
  assert (Hsorted := bucketEntries_sorted bucket). fold entries in Hsorted.
  assert (Hkey : forall d, d ∈ map fst entries -> is_Some (bucket !! d)).
  { intros d Hin. apply list_elem_of_In, in_map_iff in Hin as ([d' c] & <- & Hin).
    apply list_elem_of_In, bucketEntries_elem in Hin. eexists. exact Hin. }
  set (medianIndex := Qfloor (inject_Z T / 2)).
  set (p25Index := Qfloor (inject_Z T * 0.25)).
  set (p75Index := Qfloor (inject_Z T * 0.75)).
  assert (Hm : 0 <= medianIndex <= T).
  { unfold medianIndex. apply (Qfloor_share T (/ 2)); [lia | | ]; discriminate. }
  assert (H75 : 0 <= p75Index <= T).
  { apply Qfloor_share; [lia | | ]; discriminate. }
  assert (H25 : p25Index <= p75Index).
  { apply Qfloor_share_monotone; [lia | discriminate]. }
  assert (Hm75 : medianIndex <= p75Index).
  { apply (Qfloor_share_monotone T (/ 2) 0.75); [lia | discriminate]. }
  destruct (specWalk_reaches medianIndex entries 0 Hne) as (dm & Hwm & Hinm);
    [rewrite Hcount; fold T; lia|].
  destruct (specWalk_reaches p75Index entries 0 Hne) as (d75 & Hw75 & Hin75);
    [rewrite Hcount; fold T; lia|].
  destruct (quartileWalk_spec mean p25Index p75Index H25 entries 0 mean mean d75
              Hsorted Hw75) as (d25 & Hq & Hle25 & Hin25).
  { left. apply Qeq_bool_iff. reflexivity. }
  rewrite Hq. cbn [median p25 p75]. rewrite medianWalk_specWalk, Hwm.
  exists dm, d25, d75. repeat split; try reflexivity; try (apply Hkey; assumption).
  - destruct Hin25 as [Hin25|[_ Hfalse]]; [apply Hkey, Hin25|].
    assert (Qeq_bool mean mean = true) by (apply Qeq_bool_iff; reflexivity).
    congruence.
  - eapply specWalk_monotone; [exact Hsorted | exact Hm75 | exact Hwm | exact Hw75].
  - exact Hle25.
Qed.

Lemma quartiles_are_observed_draws_witness :
  let data := WorkerManager.calculateStatisticalData fiveBucket in
  exists dm d25 d75,
    median data = inject_Z dm /\ p25 data = inject_Z d25 /\
    p75 data = inject_Z d75 /\
    is_Some (fiveBucket !! dm) /\ is_Some (fiveBucket !! d25) /\
    is_Some (fiveBucket !! d75) /\
    dm <= d75 /\ d25 <= d75.
Proof.
  apply (quartiles_are_observed_draws fiveBucket). vm_compute. lia.
Defined.

(** ** Decoding the lanes of a batch *)

Lemma firstIndex_finds (hit : Q -> bool) : forall group idx,
  (exists x, x ∈ group /\ hit x = true) ->
  exists i, GPUManager.firstIndex hit group idx = Some i /\
            (idx <= i < idx + length group)%nat.
Proof.
  induction group as [|d group IH]; intros idx (x & Hin & Hx).
  - inversion Hin.
  - cbn [GPUManager.firstIndex]. destruct (hit d) eqn:Hd.
    + exists idx. split; [reflexivity | cbn; lia].
    + apply elem_of_cons in Hin as [->|Hin]; [congruence|].
      destruct (IH (S idx)) as (i & Hi & Hrange); [exists x; split; assumption|].
      exists i. split; [exact Hi | cbn; lia].
Qed.

Lemma runningSum_length pmf : forall acc,
  length (GPUManager.runningSum acc pmf) = length pmf.
Proof.
  induction pmf as [|x pmf IH]; intros acc; cbn; [reflexivity|].
  rewrite IH. reflexivity.
Qed.

Lemma forceLast_length cdf : length (GPUManager.forceLast cdf) = length cdf.
Proof.
  destruct cdf as [|c cdf]; [reflexivity|].
  unfold GPUManager.forceLast. rewrite length_app.
  rewrite removelast_firstn_len, length_take. cbn. lia.
Qed.

Lemma forceLast_last cdf :
  cdf <> [] -> last (GPUManager.forceLast cdf) = Some 1%Q.
Proof.
  destruct cdf as [|c cdf]; [congruence|]. intros _.
  unfold GPUManager.forceLast. rewrite last_snoc. reflexivity.
Qed.

Lemma buildOperatorWeights_length (cfg : GPUOperatorConfig) :
  length (GPUManager.buildOperatorWeights (Some cfg)) = length (operators cfg).
Proof.
  unfold GPUManager.buildOperatorWeights.
  destruct (operators cfg) as [|op ops] eqn:Hops; [reflexivity|].
  rewrite forceLast_length, runningSum_length, length_map. reflexivity.
Qed.

Lemma buildOperatorWeights_last (cfg : GPUOperatorConfig) :
  operators cfg <> [] ->
  last (GPUManager.buildOperatorWeights (Some cfg)) = Some 1%Q.
Proof.
  intros Hne. unfold GPUManager.buildOperatorWeights.
  destruct (operators cfg) as [|op ops] eqn:Hops; [congruence|].
  apply forceLast_last. cbn. discriminate.
Qed.

Lemma gachaTable_last basePity :
  0 <= basePity <= 97 ->
  (1 <= nth 99 (GPUManager.buildGachaTable basePity) 0)%Q.
Proof.
  intros Hb.
  destruct buildCDF_facts as (Hlen & _ & Hpos & Hlt & _ & H99).
  unfold GPUManager.buildGachaTable.
  revert Hlen Hpos Hlt H99. generalize GPUManager.buildCDF.
  intros T Hlen Hpos Hlt H99.
  destruct (Z.eq_dec basePity 0) as [->|Hne].
  - rewrite rescaleTail_without_basePity, H99. apply Qle_refl.
  - rewrite rescaleTail_nth by lia. rewrite H99.
    destruct (lookup_lt_is_Some_2 T (Z.to_nat basePity - 1)) as [c Hc]; [lia|].
    rewrite (nth_lookup_Some _ _ _ _ Hc).
    assert (Hin : c ∈ take 97 T).
    { apply (list_elem_of_lookup_2 _ (Z.to_nat basePity - 1)).
      rewrite lookup_take_lt by lia. exact Hc. }
    assert (Hin' : c ∈ T) by (eapply list_elem_of_lookup_2; exact Hc).
    rewrite forallb_forall in Hlt, Hpos.
    apply list_elem_of_In in Hin, Hin'.
    specialize (Hlt _ Hin). specialize (Hpos _ Hin').
    apply Qle_bool_iff in Hpos. apply negb_true_iff in Hlt.
    assert (Hc1 : (c < 1)%Q).
    { apply Qnot_le_lt. intros Hle. apply Qle_bool_iff in Hle. congruence. }
    apply rescale_grows; [discriminate | |].
    + apply Qlt_minus_iff in Hc1. 
      setoid_replace (1 - c)%Q with (1 + - c)%Q using relation Qeq by ring.
      exact Hc1.
    + apply Qplus_le_l with (z := c).
      setoid_replace (1 - c + c)%Q with (1 + 0)%Q using relation Qeq by ring.
      apply Qplus_le_r. exact Hpos.
Qed.

Lemma decodeLane_decodes (cfg : GPUOperatorConfig) drawsGroup operatorGroup :
  0 <= gpuBasePity cfg ->
  (exists x, x ∈ drawsGroup /\ Qle_bool 0 x = true) ->
  (exists y, y ∈ operatorGroup /\ negb (Qle_bool y 0) = true) ->
  (length operatorGroup <= length (operators cfg))%nat ->
  Forall (fun op => opName op <> ""%string) (operators cfg) ->
  exists r,
    GPUManager.decodeLane cfg drawsGroup operatorGroup = Some r /\
    gpuBasePity cfg + 1 <= laneDraws r
      <= gpuBasePity cfg + Z.of_nat (length drawsGroup) /\
    laneName r ∈ map opName (operators cfg).
Proof.
  intros Hb Hdraw Hop Hlen Hnames. unfold GPUManager.decodeLane.
  destruct (firstIndex_finds (fun differenceValue => Qle_bool 0 differenceValue)
              drawsGroup 0%nat Hdraw) as (i & -> & Hi).
  destruct (firstIndex_finds (fun diffValue => negb (Qle_bool diffValue 0))
              operatorGroup 0%nat Hop) as (j & -> & Hj).
  cbv zeta.
  replace (0 <? gpuBasePity cfg + Z.of_nat i + 1) with true
    by (symmetry; apply Z.ltb_lt; lia).
  destruct (lookup_lt_is_Some_2 (operators cfg) j) as [op Hopj]; [lia|].
  rewrite Hopj.
  assert (Hin : op ∈ operators cfg) by (eapply list_elem_of_lookup_2; exact Hopj).
  rewrite Forall_forall in Hnames. specialize (Hnames op Hin).
  apply String.eqb_neq in Hnames. rewrite Hnames. cbn.
  eexists. split; [reflexivity|]. cbn. split; [lia|].
  apply list_elem_of_In, in_map, list_elem_of_In, Hin.
Qed.

Lemma firstIndex_none (hit : Q -> bool) : forall group idx,
  Forall (fun x => hit x = false) group ->
  GPUManager.firstIndex hit group idx = None.
Proof.
  induction group as [|d group IH]; intros idx Hall; [reflexivity|].
  apply Forall_cons in Hall as [Hd Hall].
  cbn [GPUManager.firstIndex]. rewrite Hd. apply IH, Hall.
Qed.

(** A lane none of whose operator differences is positive is dropped. *)
Lemma decodeLane_drops (cfg : GPUOperatorConfig) drawsGroup operatorGroup :
  Forall (fun y => negb (Qle_bool y 0) = false) operatorGroup ->
  GPUManager.decodeLane cfg drawsGroup operatorGroup = None.
Proof.
  intros Hall. unfold GPUManager.decodeLane.
  rewrite (firstIndex_none _ operatorGroup 0%nat Hall). cbv zeta.
  destruct (0 <? _); reflexivity.
Qed.

(** A lane whose first number is at most 1 and whose second number is
    below 1 decodes. *)
Lemma lane_decodes (operatorConfig : OperatorConfig) basePity (k1 k2 : Q) :
  operatorConfig <> [] ->
  Forall (fun oe => oe.1 <> ""%string /\ (0 <= weight oe.2)%Q) operatorConfig ->
  0 <= basePity <= 97 ->
  (k1 <= 1)%Q -> (k2 < 1)%Q ->
  let cfg := WorkerManager.newOperatorConfig operatorConfig basePity in
  let table :=
    GPUManager.buildProbabilityLookupTable (gpuBasePity cfg) (Some cfg) in
  exists r,
    GPUManager.decodeLane cfg
      (GPUManager.generateGachaDifferences table (gpuBasePity cfg) k1)
      (GPUManager.generateOperatorDifferences table k2)
    = Some r /\
    basePity + 1 <= laneDraws r <= 100 /\
    laneName r ∈ map fst operatorConfig.
Proof.
  intros Hne Hcfg Hb Hk1 Hk2 cfg table. unfold table. clear table.
  assert (Hops : operators cfg <> []).
  { unfold cfg. cbn. destruct operatorConfig; [congruence | discriminate]. }
  assert (Hnames : Forall (fun op => opName op <> ""%string) (operators cfg)).
  { unfold cfg. cbn. apply Forall_fmap. eapply Forall_impl; [exact Hcfg|].
    intros [name e] [Hname _]. exact Hname. }
  unfold GPUManager.generateGachaDifferences,
    GPUManager.generateOperatorDifferences,
    GPUManager.buildProbabilityLookupTable.
  cbn [gachaTable operatorWeights operatorCount].
  change (gpuBasePity cfg) with basePity.
  pose proof (gachaTable_length basePity) as Hlen.
  pose proof (gachaTable_last basePity Hb) as Hlast.
  pose proof (buildOperatorWeights_length cfg) as Hwlen.
  pose proof (buildOperatorWeights_last cfg Hops) as Hwlast.
  revert Hlen Hlast. generalize (GPUManager.buildGachaTable basePity).
  intros table Hlen Hlast.
  rewrite firstn_all2 by lia.
  destruct (decodeLane_decodes cfg
              (map (fun g => (g - k1)%Q) (drop (Z.to_nat basePity) table))
              (map (fun c => (c - k2)%Q)
                   (GPUManager.buildOperatorWeights (Some cfg))))
    as (r & Hr & Hdraws & Hname).
  - change (gpuBasePity cfg) with basePity. lia.
  - exists (nth 99 table 0 - k1)%Q. split.
    + apply list_elem_of_In, in_map_iff. exists (nth 99 table 0%Q).
      split; [reflexivity|]. apply list_elem_of_In.
      apply (list_elem_of_lookup_2 _ (99 - Z.to_nat basePity)).
      rewrite lookup_drop.
      replace (Z.to_nat basePity + (99 - Z.to_nat basePity))%nat with 99%nat
        by lia.
      destruct (lookup_lt_is_Some_2 table 99) as [c Hc]; [lia|].
      rewrite (nth_lookup_Some _ _ _ _ Hc). exact Hc.
    + apply Qle_bool_iff.
      apply Qplus_le_l with (z := k1).
      setoid_replace (nth 99 table 0 - k1 + k1)%Q with (nth 99 table 0)%Q
        using relation Qeq by ring.
      setoid_replace (0 + k1)%Q with k1 using relation Qeq by ring.
      eapply Qle_trans; [exact Hk1 | exact Hlast].
  - exists (1 - k2)%Q. split.
    + apply list_elem_of_In, in_map_iff. exists 1%Q. split; [reflexivity|].
      apply list_elem_of_In. apply last_Some in Hwlast as [l' ->].
      apply elem_of_app. right. left.
    + apply negb_true_iff. destruct (Qle_bool (1 - k2) 0) eqn:Hle;
        [|reflexivity].
      apply Qle_bool_iff in Hle. exfalso.
      apply (Qlt_irrefl 1). apply Qle_lt_trans with k2; [|exact Hk2].
      apply Qplus_le_l with (z := (- k2)%Q).
      setoid_replace (k2 + - k2)%Q with 0%Q using relation Qeq by ring.
      exact Hle.
  - rewrite length_map, Hwlen. lia.
  - exact Hnames.
  - exists r. split; [exact Hr|].
    change (gpuBasePity cfg) with basePity in Hdraws.
    rewrite length_map, length_drop, Hlen in Hdraws.
    split; [lia|].
    unfold cfg in Hname. rewrite newOperatorConfig_names in Hname.
    exact Hname.
Qed.

(** ** The operator table *)

Lemma cell_correct q : (GPUManager.cell q == q)%Q.
Proof. apply Qred_correct. Qed.

Lemma sumQ_nonneg (l : list Q) :
  Forall (fun x => 0 <= x)%Q l -> (0 <= sumQ l)%Q.
Proof.
  induction 1 as [|y l Hy _ IHl]; [apply Qle_refl|].
  cbn [sumQ foldr]. apply Qle_trans with (0 + 0)%Q; [apply Qle_refl|].
  apply Qplus_le_compat; assumption.
Qed.

Lemma runningSum_bounds pmf : forall acc,
  Forall (fun x => 0 <= x)%Q pmf ->
  Forall (fun c => acc <= c /\ c <= acc + sumQ pmf)%Q
         (GPUManager.runningSum acc pmf).
Proof.
  induction pmf as [|x pmf IH]; intros acc Hpos; cbn [GPUManager.runningSum];
    [constructor|].
  apply Forall_cons in Hpos as [Hx Hpos]. cbv zeta.
  assert (Hsum : (0 <= sumQ pmf)%Q) by apply sumQ_nonneg, Hpos.
  constructor.
  - rewrite cell_correct. cbn [sumQ foldr]. fold (sumQ pmf). split.
    + setoid_replace acc with (acc + 0)%Q using relation Qeq at 1 by ring.
      apply Qplus_le_r. exact Hx.
    + apply Qplus_le_r.
      setoid_replace x with (x + 0)%Q using relation Qeq at 1 by ring.
      apply Qplus_le_r. exact Hsum.
  - eapply Forall_impl; [apply (IH _ Hpos)|]. cbn beta.
    intros c [Hlo Hhi]. rewrite cell_correct in Hlo, Hhi.
    cbn [sumQ foldr]. fold (sumQ pmf). split.
    + eapply Qle_trans; [|exact Hlo].
      setoid_replace acc with (acc + 0)%Q using relation Qeq at 1 by ring.
      apply Qplus_le_r. exact Hx.
    + eapply Qle_trans; [exact Hhi|].
      setoid_replace (acc + x + sumQ pmf)%Q with (acc + (x + sumQ pmf))%Q
        using relation Qeq by ring.
      apply Qle_refl.
Qed.

Lemma runningSum_nondecreasing pmf : forall acc,
  Forall (fun x => 0 <= x)%Q pmf ->
  nondecreasingb (GPUManager.runningSum acc pmf) = true.
Proof.
  induction pmf as [|x pmf IH]; intros acc Hpos; cbn [GPUManager.runningSum];
    [reflexivity|].
  apply Forall_cons in Hpos as [Hx Hpos]. cbv zeta.
  pose proof (runningSum_bounds pmf (GPUManager.cell (acc + x)) Hpos) as Hb.
  specialize (IH (GPUManager.cell (acc + x)) Hpos).
  destruct (GPUManager.runningSum (GPUManager.cell (acc + x)) pmf) as [|y t]
    eqn:Hrun; [reflexivity|].
  change (Qle_bool (GPUManager.cell (acc + x)) y && nondecreasingb (y :: t) = true).
  rewrite IH.
  apply Forall_cons in Hb as [[Hy _] _].
  apply Qle_bool_iff in Hy. rewrite Hy. reflexivity.
Qed.

Lemma forceLast_nondecreasing cdf :
  nondecreasingb cdf = true -> Forall (fun c => c <= 1)%Q cdf ->
  nondecreasingb (GPUManager.forceLast cdf) = true.
Proof.
  destruct cdf as [|x cdf]; [reflexivity|]. unfold GPUManager.forceLast.
  change (GPUManager.cell 1.0) with 1%Q.
  revert x. induction cdf as [|y t IH]; intros x Hmono Hle; [reflexivity|].
  change (removelast (x :: y :: t)) with (x :: removelast (y :: t)).
  cbn [nondecreasingb] in Hmono. apply andb_true_iff in Hmono as [Hxy Hmono].
  apply Forall_cons in Hle as [Hx Hle].
  specialize (IH y Hmono Hle).
  cbn [app]. destruct t as [|z t].
  - cbn. apply Qle_bool_iff in Hx. rewrite Hx. reflexivity.
  - change (removelast (y :: z :: t)) with (y :: removelast (z :: t)) in IH |- *.
    cbn [app] in IH |- *.
    change (Qle_bool x y && nondecreasingb (y :: removelast (z :: t) ++ [1%Q])
            = true).
    rewrite Hxy. exact IH.
Qed.

Lemma forceLast_cells (P : Q -> Prop) cdf :
  Forall P cdf -> P 1%Q -> Forall P (GPUManager.forceLast cdf).
Proof.
  intros Hall H1. destruct cdf as [|x cdf]; [constructor|].
  unfold GPUManager.forceLast. apply Forall_app. split.
  - rewrite removelast_firstn_len. apply Forall_take. exact Hall.
  - constructor; [exact H1 | constructor].
Qed.

Lemma foldl_weight_acc (ops : list OperatorInfo) : forall a,
  (foldl (fun sum op => sum + opWeight op) a ops
   == a + sumQ (map opWeight ops))%Q.
Proof.
  induction ops as [|op ops IH]; intros a; cbn [foldl map sumQ foldr].
  - ring.
  - rewrite IH. fold (sumQ (map opWeight ops)). ring.
Qed.

Lemma sumQ_shares (ops : list OperatorInfo) (totalWeight : Q) :
  (sumQ (map (fun op => GPUManager.cell (opWeight op / totalWeight)) ops)
   == sumQ (map opWeight ops) / totalWeight)%Q.
Proof.
  induction ops as [|op ops IH]; cbn [map sumQ foldr].
  - unfold Qdiv. ring.
  - fold (sumQ (map (fun op => GPUManager.cell (opWeight op / totalWeight)) ops)).
    fold (sumQ (map opWeight ops)).
    rewrite IH, cell_correct. unfold Qdiv. ring.
Qed.

Lemma sumQ_positive (l : list Q) :
  l <> [] -> Forall (fun x => 0 < x)%Q l -> (0 < sumQ l)%Q.
Proof.
  intros Hne Hpos. destruct l as [|x l]; [congruence|].
  apply Forall_cons in Hpos as [Hx Hpos]. cbn [sumQ foldr].
  apply Qlt_le_trans with (x + 0)%Q.
  - setoid_replace (x + 0)%Q with x using relation Qeq by ring. exact Hx.
  - apply Qplus_le_r. apply sumQ_nonneg.
    eapply Forall_impl; [exact Hpos|]. intros; apply Qlt_le_weak; assumption.
Qed.

(** X13.  for positive weights the operator table is a cumulative
    distribution: one cell per operator, never decreasing, every cell within
    (0, 1], the last cell exactly 1. *)
Theorem operator_table_is_a_cdf (cfg : GPUOperatorConfig) :
  operators cfg <> [] ->
  Forall (fun op => 0 < opWeight op)%Q (operators cfg) ->
  let table := GPUManager.buildOperatorWeights (Some cfg) in
  length table = length (operators cfg) /\
  nondecreasingb table = true /\
  Forall (fun c => 0 < c /\ c <= 1)%Q table /\
  last table = Some 1%Q.
Proof.
  intros Hne Hpos. cbv zeta.
  split; [apply buildOperatorWeights_length|].
  split; [|split; [|apply buildOperatorWeights_last, Hne]].
  all: unfold GPUManager.buildOperatorWeights;
    destruct (operators cfg) as [|op ops] eqn:Hops; [congruence|];
    set (totalWeight := foldl (fun sum op => (sum + opWeight op)%Q) 0%Q (op :: ops));
    set (pmf := map (fun op => GPUManager.cell (opWeight op / totalWeight))
                    (op :: ops)).
  all: assert (Htotal : (totalWeight == sumQ (map opWeight (op :: ops)))%Q)
    by (unfold totalWeight; rewrite foldl_weight_acc; ring).
  all: assert (Htotal_pos : (0 < totalWeight)%Q)
    by (rewrite Htotal; apply sumQ_positive;
        [discriminate | apply Forall_fmap; exact Hpos]).
  all: assert (Hpmf : Forall (fun x => 0 < x)%Q pmf)
    by (unfold pmf; apply Forall_fmap; eapply Forall_impl; [exact Hpos|];
        cbn beta; intros o Ho; unfold compose; rewrite cell_correct;
        apply Qlt_shift_div_l; [exact Htotal_pos|];
        setoid_replace (0 * totalWeight)%Q with 0%Q using relation Qeq by ring;
        exact Ho).
  all: assert (Hpmf0 : Forall (fun x => 0 <= x)%Q pmf)
    by (eapply Forall_impl; [exact Hpmf|]; intros; apply Qlt_le_weak; assumption).
  all: assert (Hone : (sumQ pmf == 1)%Q)
    by (unfold pmf; rewrite sumQ_shares, <- Htotal; field;
        intros H0; rewrite H0 in Htotal_pos; apply (Qlt_irrefl 0), Htotal_pos).
  all: pose proof (runningSum_bounds pmf 0 Hpmf0) as Hbounds.
  - apply forceLast_nondecreasing.
    + apply runningSum_nondecreasing, Hpmf0.
    + eapply Forall_impl; [exact Hbounds|]. cbn beta. intros c [_ Hhi].
      rewrite Hone in Hhi.
      setoid_replace (0 + 1)%Q with 1%Q using relation Qeq in Hhi by ring.
      exact Hhi.
  - apply forceLast_cells; [|split; [reflexivity | apply Qle_refl]].
    unfold pmf in *. cbn [map GPUManager.runningSum] in Hbounds |- *.
    cbv zeta in Hbounds |- *.
    apply Forall_cons in Hpmf as [Hp0 _]. apply Forall_cons in Hpmf0 as [_ Hrest].
    apply Forall_cons in Hbounds as [[_ Hhi0] _].
    pose proof (runningSum_bounds _ (GPUManager.cell
                  (0 + GPUManager.cell (opWeight op / totalWeight))) Hrest)
      as Hb2.
    assert (Hfirst : (0 < GPUManager.cell
                          (0 + GPUManager.cell (opWeight op / totalWeight)))%Q).
    { rewrite cell_correct.
      setoid_replace (0 + GPUManager.cell (opWeight op / totalWeight))%Q
        with (GPUManager.cell (opWeight op / totalWeight))
        using relation Qeq by ring.
      exact Hp0. }
    cbn [map sumQ foldr] in Hone.
    constructor.
    + split; [exact Hfirst|].
      rewrite Hone in Hhi0.
      setoid_replace (0 + 1)%Q with 1%Q using relation Qeq in Hhi0 by ring.
      exact Hhi0.
    + eapply Forall_impl; [exact Hb2|]. cbn beta. intros c [Hlo Hhi]. split.
      * eapply Qlt_le_trans; [exact Hfirst | exact Hlo].
      * eapply Qle_trans; [exact Hhi|]. rewrite cell_correct.
        fold (sumQ (map (fun op => GPUManager.cell (opWeight op / totalWeight)) ops))
          in Hone.
        setoid_replace
          (0 + GPUManager.cell (opWeight op / totalWeight)
           + sumQ (map (fun op => GPUManager.cell (opWeight op / totalWeight)) ops))%Q
          with 1%Q using relation Qeq; [apply Qle_refl|].
        rewrite <- Hone. ring.
Qed.

Lemma operator_table_is_a_cdf_witness :
  let cfg := WorkerManager.newOperatorConfig weightedConfigAB 0 in
  let table := GPUManager.buildOperatorWeights (Some cfg) in
  length table = length (operators cfg) /\
  nondecreasingb table = true /\
  Forall (fun c => 0 < c /\ c <= 1)%Q table /\
  last table = Some 1%Q.
Proof.
  apply (operator_table_is_a_cdf (WorkerManager.newOperatorConfig weightedConfigAB 0)).
  - discriminate.
  - repeat constructor.
Defined.

(** ** Lanes the decoder keeps *)

Lemma newOperatorConfig_positive (operatorConfig : OperatorConfig) basePity :
  Forall (fun oe => (0 <= weight oe.2)%Q) operatorConfig ->
  Forall (fun op => (0 < opWeight op)%Q)
         (operators (WorkerManager.newOperatorConfig operatorConfig basePity)).
Proof.
  intros Hall. cbn [WorkerManager.newOperatorConfig operators].
  apply Forall_fmap. eapply Forall_impl; [exact Hall|].
  intros [name e] Hw. cbn in Hw |- *.
  destruct (Qeq_bool (weight e) 0) eqn:H0; [reflexivity|].
  apply Qeq_bool_neq in H0.
  destruct (Qlt_le_dec 0 (weight e)) as [Hlt|Hle]; [exact Hlt|].
  exfalso. apply H0. apply Qle_antisym; assumption.
Qed.

(** No cell of the operator table exceeds 1. *)
Lemma buildOperatorWeights_cells (cfg : GPUOperatorConfig) :
  Forall (fun op => 0 < opWeight op)%Q (operators cfg) ->
  Forall (fun c => c <= 1)%Q (GPUManager.buildOperatorWeights (Some cfg)).
Proof.
  intros Hpos. unfold GPUManager.buildOperatorWeights.
  destruct (operators cfg) as [|op ops] eqn:Hops; [constructor|].
  set (totalWeight := foldl (fun sum op => (sum + opWeight op)%Q) 0%Q (op :: ops)).
  set (pmf := map (fun op => GPUManager.cell (opWeight op / totalWeight))
                  (op :: ops)).
  assert (Htotal : (totalWeight == sumQ (map opWeight (op :: ops)))%Q)
    by (unfold totalWeight; rewrite foldl_weight_acc; ring).
  assert (Htotal_pos : (0 < totalWeight)%Q)
    by (rewrite Htotal; apply sumQ_positive;
        [discriminate | apply Forall_fmap; exact Hpos]).
  assert (Hpmf0 : Forall (fun x => 0 <= x)%Q pmf).
  { unfold pmf. apply Forall_fmap. eapply Forall_impl; [exact Hpos|].
    cbn beta. intros o Ho. unfold compose. rewrite cell_correct.
    apply Qlt_le_weak, Qlt_shift_div_l; [exact Htotal_pos|].
    setoid_replace (0 * totalWeight)%Q with 0%Q using relation Qeq by ring.
    exact Ho. }
  assert (Hone : (sumQ pmf == 1)%Q).
  { unfold pmf. rewrite sumQ_shares, <- Htotal. field.
    intros H0. rewrite H0 in Htotal_pos. apply (Qlt_irrefl 0), Htotal_pos. }
  apply forceLast_cells; [|apply Qle_refl].
  eapply Forall_impl; [apply (runningSum_bounds pmf 0 Hpmf0)|].
  cbn beta. intros c [_ Hhi]. rewrite Hone in Hhi.
  setoid_replace (0 + 1)%Q with 1%Q using relation Qeq in Hhi by ring.
  exact Hhi.
Qed.

(** A lane whose second number is 1 or more is dropped. *)
Lemma lane_dropped (operatorConfig : OperatorConfig) basePity (k1 k2 : Q) :
  Forall (fun oe => (0 <= weight oe.2)%Q) operatorConfig ->
  (1 <= k2)%Q ->
  let cfg := WorkerManager.newOperatorConfig operatorConfig basePity in
  let table :=
    GPUManager.buildProbabilityLookupTable (gpuBasePity cfg) (Some cfg) in
  GPUManager.decodeLane cfg
    (GPUManager.generateGachaDifferences table (gpuBasePity cfg) k1)
    (GPUManager.generateOperatorDifferences table k2)
  = None.
Proof.
  intros Hcfg Hk2 cfg table. apply decodeLane_drops.
  unfold GPUManager.generateOperatorDifferences, table,
    GPUManager.buildProbabilityLookupTable.
  cbn [operatorWeights operatorCount].
  apply Forall_fmap, Forall_take.
  eapply Forall_impl;
    [apply buildOperatorWeights_cells, newOperatorConfig_positive, Hcfg|].
  cbn beta. intros c Hc. unfold compose. apply negb_false_iff, Qle_bool_iff.
  apply Qplus_le_l with (z := k2).
  setoid_replace (c - k2 + k2)%Q with c using relation Qeq by ring.
  setoid_replace (0 + k2)%Q with k2 using relation Qeq by ring.
  eapply Qle_trans; [exact Hc | exact Hk2].
Qed.

(** Lanes with numbers in [[0, 1]]: the decoder keeps those whose second
    number is below 1. *)
Lemma runSimulation_keeps (operatorConfig : OperatorConfig)
    basePity (randomNumbers : list (Q * Q)) :
  operatorConfig <> [] ->
  Forall (fun oe => oe.1 <> ""%string /\ (0 <= weight oe.2)%Q) operatorConfig ->
  0 <= basePity <= 97 ->
  Forall (fun k => (0 <= k.1 <= 1)%Q /\ (0 <= k.2 <= 1)%Q) randomNumbers ->
  let results :=
    GPUManager.runSimulation
      (WorkerManager.newOperatorConfig operatorConfig basePity) randomNumbers in
  length results
  = length (filter (fun k => negb (Qle_bool 1 k.2)) randomNumbers) /\
  Forall (fun r => basePity + 1 <= laneDraws r <= 100 /\
                   laneName r ∈ map fst operatorConfig) results.
Proof.
  intros Hne Hcfg Hb Hrs. cbv zeta. unfold GPUManager.runSimulation.
  assert (Hweights : Forall (fun oe => (0 <= weight oe.2)%Q) operatorConfig).
  { eapply Forall_impl; [exact Hcfg|]. intros oe [_ Hw]. exact Hw. }
  induction Hrs as [|[k1 k2] rs [[_ Hk1] [_ Hk2]] Hrs IH];
    [split; [reflexivity | constructor]|].
  destruct IH as [IHlen IHall]. cbn [omap list_omap]. cbn [fst snd] in *.
  destruct (Qle_bool 1 k2) eqn:Hone.
  - apply Qle_bool_iff in Hone.
    rewrite (lane_dropped operatorConfig basePity k1 k2 Hweights Hone).
    rewrite filter_cons_False by (cbn; rewrite (proj2 (Qle_bool_iff 1 k2) Hone); exact id).
    split; [exact IHlen | exact IHall].
  - assert (Hlt : (k2 < 1)%Q).
    { apply Qnot_le_lt. intros Hle. apply Qle_bool_iff in Hle. congruence. }
    destruct (lane_decodes operatorConfig basePity k1 k2 Hne Hcfg Hb Hk1 Hlt)
      as (r & Hr & Hrange).
    cbv zeta in Hr. rewrite Hr.
    rewrite filter_cons_True by (cbn; rewrite Hone; exact I).
    split; [cbn [length]; rewrite IHlen; reflexivity|].
    constructor; [exact Hrange | exact IHall].
Qed.

(** X12.  with exact arithmetic, a base pity of at most 97, names that are
    not empty and lanes whose two numbers, as the kernel reads them from
    the [Float32Array], lie in [[0, 1]]: the decoder keeps exactly the
    lanes whose second number is below 1, each with a draw count between
    [basePity + 1] and 100 and the name of a configured category; a lane
    whose second number is 1 is dropped. *)
Theorem gpu_batch_keeps_lanes_below_one (operatorConfig : OperatorConfig)
    basePity (randomNumbers : list (Q * Q)) :
  operatorConfig <> [] ->
  Forall (fun oe => oe.1 <> ""%string /\ (0 <= weight oe.2)%Q) operatorConfig ->
  0 <= basePity <= 97 ->
  Forall (fun k => (0 <= k.1 <= 1)%Q /\ (0 <= k.2 <= 1)%Q) randomNumbers ->
  let results :=
    GPUManager.runSimulation
      (WorkerManager.newOperatorConfig operatorConfig basePity) randomNumbers in
  length results
  = length (filter (fun k => negb (Qle_bool 1 k.2)) randomNumbers) /\
  Forall (fun r => basePity + 1 <= laneDraws r <= 100 /\
                   laneName r ∈ map fst operatorConfig) results /\
  (Forall (fun k => (k.2 < 1)%Q) randomNumbers ->
   length results = length randomNumbers) /\
  (Forall (fun k => (k.2 == 1)%Q) randomNumbers -> results = []).
Proof.
  intros Hne Hcfg Hb Hrs results.
  destruct (runSimulation_keeps operatorConfig basePity randomNumbers
              Hne Hcfg Hb Hrs) as [Hlen Hall].
  fold results in Hlen, Hall.
  split; [exact Hlen|]. split; [exact Hall|]. split.
  - intros Hbelow. rewrite Hlen. f_equal.
    clear -Hbelow. induction Hbelow as [|k rs Hk _ IH]; [reflexivity|].
    rewrite filter_cons_True; [f_equal; exact IH|].
    destruct (Qle_bool 1 k.2) eqn:Hle; [|exact I].
    apply Qle_bool_iff in Hle. exfalso.
    apply (Qlt_irrefl 1). eapply Qle_lt_trans; eassumption.
  - intros Hones. apply length_zero_iff_nil. rewrite Hlen.
    clear -Hones. induction Hones as [|k rs Hk _ IH]; [reflexivity|].
    rewrite filter_cons_False; [exact IH|].
    assert (Hle : Qle_bool 1 k.2 = true)
      by (apply Qle_bool_iff; rewrite Hk; apply Qle_refl).
    rewrite Hle. exact id.
Qed.

Lemma gpu_batch_keeps_lanes_below_one_witness :
  let randomNumbers := [certainLane; (0, 1)%Q; certainLane] in
  let results :=
    GPUManager.runSimulation (WorkerManager.newOperatorConfig singleConfig 0)
                             randomNumbers in
  length results
  = length (filter (fun k => negb (Qle_bool 1 k.2)) randomNumbers) /\
  Forall (fun r => 0 + 1 <= laneDraws r <= 100 /\
                   laneName r ∈ map fst singleConfig) results /\
  (Forall (fun k => (k.2 < 1)%Q) randomNumbers ->
   length results = length randomNumbers) /\
  (Forall (fun k => (k.2 == 1)%Q) randomNumbers -> results = []).
Proof.
  apply (gpu_batch_keeps_lanes_below_one singleConfig 0
           [certainLane; (0, 1)%Q; certainLane]).
  - discriminate.
  - repeat constructor; cbn; discriminate.
  - lia.
  - repeat constructor; vm_compute; congruence.
Defined.

(** ** Trials and batch boundaries *)

Lemma countOf_insert_le (operator : gmap string nat) name name' :
  (countOf (<[name' := S (countOf operator name')]> operator) name
   <= S (countOf operator name))%nat.
Proof.
  unfold countOf. destruct (decide (name' = name)) as [->|Hne].
  - rewrite lookup_insert_eq. cbn. lia.
  - rewrite lookup_insert_ne by exact Hne. lia.
Qed.

Lemma trialLoop_starved (operatorConfig : OperatorConfig) N name e :
  (name, e) ∈ operatorConfig ->
  forall results operator totalDraws st,
    (countOf operator name + length results < target e)%nat ->
    let out := WorkerManager.trialLoop operatorConfig N operator totalDraws
                                       results st in
    out.1 = [] /\ currentSim out.2 = currentSim st /\
    gpu_drawsBucket out.2 = gpu_drawsBucket st.
Proof.
  intros Hin.
  induction results as [|result results IH]; intros operator totalDraws st Hlt;
    cbn [WorkerManager.trialLoop]; [repeat split|].
  cbv zeta.
  set (known := bool_decide (is_Some (operator !! laneName result))).
  set (operator' := if known
                    then <[laneName result := S (countOf operator (laneName result))]>
                           operator
                    else operator).
  assert (Hcount : (countOf operator' name <= S (countOf operator name))%nat).
  { unfold operator'. destruct known; [apply countOf_insert_le | lia]. }
  assert (Hcheck : forallb (fun '(n, e) => (target e <=? countOf operator' n)%nat)
                           operatorConfig = false).
  { apply not_true_is_false. intros Hall. rewrite forallb_forall in Hall.
    apply list_elem_of_In in Hin. specialize (Hall _ Hin). cbn in Hall.
    apply Nat.leb_le in Hall. cbn [length] in Hlt. lia. }
  rewrite Hcheck.
  match goal with
  | |- context [WorkerManager.trialLoop _ _ _ ?td results ?st'] =>
      destruct (IH operator' td st') as (H1 & H2 & H3)
  end.
  - cbn [length] in Hlt. lia.
  - cbv zeta in H1, H2, H3. rewrite H1, H2, H3. repeat split.
Qed.

Lemma freshOperator_count (operatorConfig : OperatorConfig) name :
  countOf (WorkerManager.freshOperator operatorConfig) name = 0%nat.
Proof.
  unfold countOf, WorkerManager.freshOperator.
  induction operatorConfig as [|[n e] cfg IH]; cbn; [reflexivity|].
  destruct (decide (n = name)) as [->|Hne].
  - rewrite lookup_insert_eq. reflexivity.
  - rewrite lookup_insert_ne by exact Hne. exact IH.
Qed.

Lemma processResults_starved (operatorConfig : OperatorConfig) N name e
    results st :
  (name, e) ∈ operatorConfig -> (length results < target e)%nat ->
  let st' := WorkerManager.processResults operatorConfig N results st in
  currentSim st' = currentSim st /\ gpu_drawsBucket st' = gpu_drawsBucket st.
Proof.
  intros Hin Hlt. cbv zeta. unfold WorkerManager.processResults.
  destruct results as [|r results]; [split; reflexivity|].
  rewrite <- length_rev in Hlt.
  rewrite <- (length_rev (r :: results)).
  destruct (rev (r :: results)) as [|r' rest] eqn:Hrev.
  { apply (f_equal length) in Hrev. rewrite length_rev in Hrev. discriminate. }
  cbn [length WorkerManager.batchLoop].
  destruct (trialLoop_starved operatorConfig N name e Hin (r' :: rest)
              (WorkerManager.freshOperator operatorConfig) 0 st)
    as (H1 & H2 & H3).
  { rewrite freshOperator_count. cbn [length] in Hlt |- *. lia. }
  cbv zeta in H1, H2, H3.
  destruct (WorkerManager.trialLoop _ _ _ _ _ _) as [results' st'].
  cbn [fst snd] in H1, H2, H3. subst results'.
  destruct (length rest); cbn; split; assumption.
Qed.

Lemma omap_length {A B} (f : A -> option B) l :
  (length (omap f l) <= length l)%nat.
Proof.
  induction l as [|x l IH]; [reflexivity|].
  cbn [omap list_omap]. destruct (f x); cbn [length]; lia.
Qed.

Lemma gpuLoop_starved (operatorConfig : OperatorConfig) N basePity name e :
  (name, e) ∈ operatorConfig ->
  forall device st,
    (currentSim st < N)%nat ->
    Forall (fun batch => forall randomNumbers,
              batch = Some randomNumbers ->
              (length randomNumbers < target e)%nat) device ->
    WorkerManager.gpuLoop operatorConfig N basePity device st = Waiting \/
    WorkerManager.gpuLoop operatorConfig N basePity device st = Threw.
Proof.
  intros Hin.
  induction device as [|batch device IH]; intros st Hsim Hsmall;
    cbn [WorkerManager.gpuLoop];
    (replace (currentSim st <? N)%nat with true
      by (symmetry; apply Nat.ltb_lt; exact Hsim)); [left; reflexivity|].
  apply Forall_cons in Hsmall as [Hbatch Hsmall].
  destruct batch as [randomNumbers|]; [|right; reflexivity].
  cbv zeta. apply IH; [|exact Hsmall].
  destruct (processResults_starved operatorConfig N name e
              (GPUManager.runSimulation
                 (WorkerManager.newOperatorConfig operatorConfig basePity)
                 randomNumbers) st Hin) as [H1 _].
  - eapply Nat.le_lt_trans; [apply omap_length | apply Hbatch; reflexivity].
  - cbv zeta in H1. rewrite H1. exact Hsim.
Qed.

(** X14.  a trial never spans two batches: when some category wants more
    copies than any batch has lanes, no trial completes and the GPU attempt
    does not return: it is left waiting for the device, or a dispatch
    throws. *)
Theorem gpu_trial_never_spans_batches (operatorConfig : OperatorConfig)
    N basePity device name e :
  (1 <= N)%nat -> (name, e) ∈ operatorConfig ->
  Forall (fun batch => forall randomNumbers,
            batch = Some randomNumbers ->
            (length randomNumbers < target e)%nat) device ->
  WorkerManager.gpuAttempt N operatorConfig basePity device = Waiting \/
  WorkerManager.gpuAttempt N operatorConfig basePity device = Threw.
Proof.
  intros HN Hin Hsmall. unfold WorkerManager.gpuAttempt.
  apply (gpuLoop_starved operatorConfig N basePity name e Hin); [cbn; lia|].
  exact Hsmall.
Qed.

Lemma gpu_trial_never_spans_batches_witness :
  WorkerManager.gpuAttempt 1 leakConfig 0
    [Some [certainLane]; Some [certainLane]] = Waiting \/
  WorkerManager.gpuAttempt 1 leakConfig 0
    [Some [certainLane]; Some [certainLane]] = Threw.
Proof.
  apply (gpu_trial_never_spans_batches leakConfig 1 0
           [Some [certainLane]; Some [certainLane]] "A"%string
           {| weight := 1; target := 2 |}).
  - lia.
  - left.
  - constructor; [intros rs [= <-]; cbn; lia|].
    constructor; [intros rs [= <-]; cbn; lia|]. constructor.
Defined.

(** ** Batch sizes *)

Lemma Qfloor_times_le (x : Q) (b : Z) :
  0 < b -> (inject_Z (Qfloor (x / inject_Z b) * b) <= x)%Q.
Proof.
  intros Hb.
  assert (Hb' : (0 < inject_Z b)%Q)
    by (change 0%Q with (inject_Z 0); rewrite <- Zlt_Qlt; exact Hb).
  rewrite inject_Z_mult.
  apply Qle_trans with (x / inject_Z b * inject_Z b)%Q.
  - apply Qmult_le_compat_r; [apply Qfloor_le | apply Qlt_le_weak, Hb'].
  - setoid_replace (x / inject_Z b * inject_Z b)%Q with x using relation Qeq;
      [apply Qle_refl|].
    field. intros H0. rewrite H0 in Hb'. apply (Qlt_irrefl 0), Hb'.
Qed.

(** X15.  a dispatched batch has at most 10000 lanes and at most the
    manager's [maxBatchSize], and its two result buffers together take at
    most 90% of the device's [maxStorageBufferBindingSize]. *)
Theorem batch_fits_the_storage_limit (maxStorageBufferBindingSize maxBatchSize : Z)
    (operatorConfig : GPUOperatorConfig) :
  0 <= maxStorageBufferBindingSize ->
  maxDraws operatorConfig = 100 ->
  0 < GPUBatch.bytesPerSimulation operatorConfig ->
  let lanes :=
    GPUBatch.lanes maxStorageBufferBindingSize maxBatchSize operatorConfig in
  lanes <= 10000 /\ lanes <= maxBatchSize /\
  (inject_Z (GPUBatch.drawsResultSize lanes (gpuBasePity operatorConfig)
             + GPUBatch.operatorResultSize lanes
                 (length (operators operatorConfig)))
   <= inject_Z maxStorageBufferBindingSize * 0.9)%Q.
Proof.
  intros Hlimit Hmax Hbytes. cbv zeta.
  unfold GPUBatch.lanes, GPUBatch.actualBatchSize, GPUBatch.targetBatchSize.
  cbv zeta.
  set (x := (inject_Z maxStorageBufferBindingSize * 0.9)%Q).
  set (b := GPUBatch.bytesPerSimulation operatorConfig) in *.
  set (n := Z.min (Z.min (Qfloor (x / inject_Z b)) 10000) maxBatchSize).
  split; [lia|]. split; [lia|].
  assert (Hsize : GPUBatch.drawsResultSize n (gpuBasePity operatorConfig)
                  + GPUBatch.operatorResultSize n
                      (length (operators operatorConfig))
                  = n * b).
  { unfold GPUBatch.drawsResultSize, GPUBatch.operatorResultSize, b,
      GPUBatch.bytesPerSimulation. cbv zeta. rewrite Hmax. ring. }
  rewrite Hsize.
  apply Qle_trans with (inject_Z (Qfloor (x / inject_Z b) * b)).
  - rewrite <- Zle_Qle. apply Z.mul_le_mono_nonneg_r; lia.
  - apply Qfloor_times_le. exact Hbytes.
Qed.

Lemma batch_fits_the_storage_limit_witness :
  let operatorConfig := WorkerManager.newOperatorConfig singleConfig 0 in
  let lanes := GPUBatch.lanes 134217728 25600 operatorConfig in
  lanes <= 10000 /\ lanes <= 25600 /\
  (inject_Z (GPUBatch.drawsResultSize lanes (gpuBasePity operatorConfig)
             + GPUBatch.operatorResultSize lanes
                 (length (operators operatorConfig)))
   <= inject_Z 134217728 * 0.9)%Q.
Proof.
  apply (batch_fits_the_storage_limit 134217728 25600
           (WorkerManager.newOperatorConfig singleConfig 0)).
  - lia.
  - reflexivity.
  - vm_compute. reflexivity.
Defined.

(** ** The GPU switch *)

Lemma setGPUEnabled_unavailable (calls : list bool) : forall st,
  isGPUAvailable st = false -> isGPUEnabled st = false ->
  foldl (fun st enabled => GPUSwitch.setGPUEnabled enabled st) st calls = st.
Proof.
  induction calls as [|enabled calls IH]; intros [available enabled0] Ha He;
    cbn in *; [reflexivity|].
  subst. unfold GPUSwitch.setGPUEnabled. cbn. rewrite andb_false_r.
  apply IH; reflexivity.
Qed.

Lemma setGPUEnabled_available (calls : list bool) : forall st,
  isGPUAvailable
    (foldl (fun st enabled => GPUSwitch.setGPUEnabled enabled st) st calls)
  = isGPUAvailable st.
Proof.
  induction calls as [|enabled calls IH]; intros st; cbn; [reflexivity|].
  rewrite IH. reflexivity.
Qed.

(** X16.  the GPU switch is never on while the GPU is unavailable: calls made
    before the initialisation has finished leave it off, it can only be on
    if the device is supported and was initialised, and otherwise a run
    takes the worker pool. *)
Theorem gpu_path_needs_an_available_gpu (before later : list bool)
    (supported initialized : bool) workerCount N operatorConfig basePity
    device rngs schedule :
  let st := GPUSwitch.history before supported initialized later in
  foldl (fun st enabled => GPUSwitch.setGPUEnabled enabled st)
        GPUSwitch.initial before = GPUSwitch.initial /\
  isGPUAvailable st = supported && initialized /\
  (isGPUEnabled st = true -> isGPUAvailable st = true) /\
  (supported && initialized = false ->
   WorkerManager.runSimulation (isGPUEnabled st) (isGPUAvailable st)
     workerCount N operatorConfig basePity device rngs schedule
   = WorkerManager.cpuPromise workerCount N
       (WorkerManager.sortedOperatorConfig operatorConfig) basePity rngs
       schedule).
Proof.
  cbv zeta. unfold GPUSwitch.history.
  assert (Hbefore : foldl (fun st enabled => GPUSwitch.setGPUEnabled enabled st)
                          GPUSwitch.initial before = GPUSwitch.initial)
    by (apply setGPUEnabled_unavailable; reflexivity).
  rewrite Hbefore. split; [reflexivity|].
  assert (Havail : isGPUAvailable
            (foldl (fun st enabled => GPUSwitch.setGPUEnabled enabled st)
               (GPUSwitch.initializeGPU supported initialized GPUSwitch.initial)
               later) = supported && initialized).
  { rewrite setGPUEnabled_available. destruct supported, initialized; reflexivity. }
  split; [exact Havail|].
  destruct (supported && initialized) eqn:Hboth.
  - split; [intros _; exact Havail | discriminate].
  - assert (Hoff : foldl (fun st enabled => GPUSwitch.setGPUEnabled enabled st)
               (GPUSwitch.initializeGPU supported initialized GPUSwitch.initial)
               later
             = GPUSwitch.initializeGPU supported initialized GPUSwitch.initial).
    { apply setGPUEnabled_unavailable;
        destruct supported, initialized; try reflexivity; discriminate. }
    rewrite Hoff. split.
    + destruct supported, initialized; cbn; congruence.
    + intros _. unfold WorkerManager.runSimulation.
      destruct supported, initialized; try discriminate; reflexivity.
Qed.

(** ** Sigma ranges over an array *)

Lemma mathRound_monotone (x y : Q) : (x <= y)%Q -> mathRound x <= mathRound y.
Proof.
  intros Hxy. unfold mathRound. apply Qfloor_resp_le.
  apply Qplus_le_l. exact Hxy.
Qed.

Lemma countWithin_monotone (data : list Z) lo hi lo' hi' :
  lo' <= lo -> hi <= hi' ->
  (GachaArrays.countWithin data lo hi
   <= GachaArrays.countWithin data lo' hi')%nat.
Proof.
  intros Hlo Hhi. unfold GachaArrays.countWithin.
  induction data as [|val data IH]; cbn [List.filter length]; [lia|].
  destruct ((lo <=? val) && (val <=? hi)) eqn:Hin.
  - apply andb_true_iff in Hin as [H1 H2].
    apply Z.leb_le in H1, H2.
    replace ((lo' <=? val) && (val <=? hi')) with true
      by (symmetry; apply andb_true_iff; split; apply Z.leb_le; lia).
    cbn [length]. lia.
  - destruct ((lo' <=? val) && (val <=? hi')); cbn [length]; lia.
Qed.

Lemma countWithin_length (data : list Z) lo hi :
  (GachaArrays.countWithin data lo hi <= length data)%nat.
Proof.
  unfold GachaArrays.countWithin. apply filter_length_le.
Qed.

(** X17.  for a standard deviation that is not negative the three sigma
    ranges are nested, and so are the numbers of values they cover. *)
Theorem sigma_ranges_are_nested (data : list Z) (mean std : Q) (min max : Z)
    r1 r2 r3 :
  (0 <= std)%Q ->
  GachaArrays.calculateSigmaAnalysis data (Some (mean, std, min, max))
  = Some (r1, r2, r3) ->
  (GachaArrays.range r3).1 <= (GachaArrays.range r2).1
    <= (GachaArrays.range r1).1 /\
  (GachaArrays.range r1).2 <= (GachaArrays.range r2).2
    <= (GachaArrays.range r3).2 /\
  (GachaArrays.inRange r1 <= GachaArrays.inRange r2)%nat /\
  (GachaArrays.inRange r2 <= GachaArrays.inRange r3)%nat /\
  (GachaArrays.inRange r3 <= length data)%nat.
Proof.
  intros Hstd. unfold GachaArrays.calculateSigmaAnalysis.
  destruct data as [|val data]; [discriminate|]. cbv zeta.
  intros [= <- <- <-]. cbn [GachaArrays.range GachaArrays.inRange fst snd].
  assert (Hlo21 : mathRound (mean - 2 * std) <= mathRound (mean - std)).
  { apply mathRound_monotone. apply Qplus_le_r. apply Qopp_le_compat.
    setoid_replace std with (1 * std)%Q using relation Qeq at 1 by ring.
    apply Qmult_le_compat_r; [discriminate | exact Hstd]. }
  assert (Hlo32 : mathRound (mean - 3 * std) <= mathRound (mean - 2 * std)).
  { apply mathRound_monotone. apply Qplus_le_r. apply Qopp_le_compat.
    apply Qmult_le_compat_r; [discriminate | exact Hstd]. }
  assert (Hhi12 : mathRound (mean + std) <= mathRound (mean + 2 * std)).
  { apply mathRound_monotone. apply Qplus_le_r.
    setoid_replace std with (1 * std)%Q using relation Qeq at 1 by ring.
    apply Qmult_le_compat_r; [discriminate | exact Hstd]. }
  assert (Hhi23 : mathRound (mean + 2 * std) <= mathRound (mean + 3 * std)).
  { apply mathRound_monotone. apply Qplus_le_r.
    apply Qmult_le_compat_r; [discriminate | exact Hstd]. }
  split; [lia|]. split; [lia|].
  split; [apply countWithin_monotone; lia|].
  split; [apply countWithin_monotone; lia|].
  apply countWithin_length.
Qed.

Lemma sigma_ranges_are_nested_witness :
  let r1 := {| GachaArrays.range := (8, 12); GachaArrays.inRange := 1 |} in
  let r2 := {| GachaArrays.range := (6, 14); GachaArrays.inRange := 1 |} in
  let r3 := {| GachaArrays.range := (4, 16); GachaArrays.inRange := 3 |} in
  (GachaArrays.range r3).1 <= (GachaArrays.range r2).1
    <= (GachaArrays.range r1).1 /\
  (GachaArrays.range r1).2 <= (GachaArrays.range r2).2
    <= (GachaArrays.range r3).2 /\
  (GachaArrays.inRange r1 <= GachaArrays.inRange r2)%nat /\
  (GachaArrays.inRange r2 <= GachaArrays.inRange r3)%nat /\
  (GachaArrays.inRange r3 <= length [4; 10; 16])%nat.
Proof.
  apply (sigma_ranges_are_nested [4; 10; 16] 10 2 4 16).
  - discriminate.
  - vm_compute. reflexivity.
Defined.

(** ** Rebuilding the array of totals *)

Lemma flat_repeat_length (entries : list (Z * nat)) :
  length (flat_map (fun '(drawsNum, c) => repeat drawsNum c) entries)
  = countSum entries.
Proof.
  induction entries as [|[d c] entries IH]; [reflexivity|].
  cbn [flat_map]. rewrite length_app, repeat_length, IH. reflexivity.
Qed.

Lemma flat_repeat_sum (entries : list (Z * nat)) :
  foldr Z.add 0 (flat_map (fun '(drawsNum, c) => repeat drawsNum c) entries)
  = foldr (fun '(draws, c) acc => draws * Z.of_nat c + acc) 0 entries.
Proof.
  induction entries as [|[d c] entries IH]; [reflexivity|].
  cbn [flat_map foldr]. rewrite foldr_app, IH.
  generalize (foldr (fun '(draws, c) acc => draws * Z.of_nat c + acc) 0 entries).
  intros z. induction c as [|c IHc]; cbn [repeat foldr]; [lia|].
  rewrite IHc. lia.
Qed.




(** ** The single-threaded loop *)

Lemma pushCounts_lookup (characterCounts : gmap string (list nat))
    (statistic : gmap string nat) char :
  GachaArrays.pushCounts characterCounts statistic !! char
  = match statistic !! char with
    | Some v => Some (default [] (characterCounts !! char) ++ [v])
    | None => characterCounts !! char
    end.
Proof.
  unfold GachaArrays.pushCounts.
  apply (map_fold_weak_ind
           (fun r (m : gmap string nat) =>
              r !! char = match m !! char with
                          | Some v =>
                              Some (default [] (characterCounts !! char) ++ [v])
                          | None => characterCounts !! char
                          end)).
  - rewrite lookup_empty. reflexivity.
  - intros i x m r Hi IH.
    destruct (decide (i = char)) as [->|Hne].
    + rewrite !lookup_insert_eq. rewrite IH, Hi. reflexivity.
    + rewrite !lookup_insert_ne by exact Hne. exact IH.
Qed.

Lemma simulationLoop_aligned operatorConfig basePity rngs (names : list string) :
  names = map fst (default Gacha.defaultConfig operatorConfig) ->
  forall k i acc res,
    GachaArrays.simulationLoop k i operatorConfig basePity rngs acc
    = Some res ->
    exists results,
      trials k operatorConfig basePity rngs i = Some results /\
      GachaArrays.totalDraws res
      = GachaArrays.totalDraws acc ++ map total results /\
      forall name, name ∈ names ->
        default [] (GachaArrays.characterCounts res !! name)
        = default [] (GachaArrays.characterCounts acc !! name)
          ++ map (fun r => countOf (statistic r) name) results.
Proof.
  intros Hnames.
  induction k as [|k IH]; intros i acc res;
    cbn [GachaArrays.simulationLoop].
  - intros [= <-]. exists []. split; [reflexivity|].
    split; [rewrite app_nil_r; reflexivity|].
    intros name _. rewrite app_nil_r. reflexivity.
  - destruct (Gacha.chouShuTongJi operatorConfig basePity (rngs i))
      as [result|] eqn:Htrial; [|discriminate].
    intros Hloop. destruct (IH _ _ _ Hloop) as (results & Htrials & Htotal & Hcounts).
    exists (result :: results). split; [|split].
    + unfold trials in *. cbn [seq mapM]. rewrite Htrial. cbn.
      rewrite Htrials. reflexivity.
    + rewrite Htotal. cbn [GachaArrays.totalDraws map].
      rewrite <- app_assoc. reflexivity.
    + intros name Hname. rewrite (Hcounts name Hname).
      cbn [GachaArrays.characterCounts map]. rewrite pushCounts_lookup.
      destruct (runTrial_finished _ _ _ _ Htrial) as [_ Hkeys].
      assert (Hin : name ∈ dom (statistic result)).
      { rewrite Hkeys. apply elem_of_list_to_set. rewrite <- Hnames. exact Hname. }
      apply elem_of_dom in Hin as [v Hv]. rewrite Hv. cbn [default].
      unfold countOf. rewrite Hv. cbn [default]. unfold id.
      rewrite <- app_assoc. reflexivity.
Qed.

(** X19.  the arrays returned by the single-threaded loop are aligned: entry
    [i] of the totals and of every configured category's array belongs to
    trial [i], and each array has [n] entries. *)
Theorem single_thread_arrays_are_aligned n operatorConfig basePity rngs res :
  GachaArrays.runSimulationMultipleTimes n operatorConfig basePity rngs
  = Some res ->
  exists results,
    trials n operatorConfig basePity rngs 0 = Some results /\
    length results = n /\
    GachaArrays.totalDraws res = map total results /\
    forall name,
      name ∈ map fst (default Gacha.defaultConfig operatorConfig) ->
      default [] (GachaArrays.characterCounts res !! name)
      = map (fun r => countOf (statistic r) name) results.
Proof.
  unfold GachaArrays.runSimulationMultipleTimes. cbv zeta. intros Hloop.
  destruct (simulationLoop_aligned operatorConfig basePity rngs _ eq_refl
              _ _ _ _ Hloop) as (results & Htrials & Htotal & Hcounts).
  exists results. split; [exact Htrials|]. split; [|split].
  - unfold trials in Htrials. apply length_mapM in Htrials.
    rewrite length_seq in Htrials. congruence.
  - exact Htotal.
  - intros name Hname. rewrite (Hcounts name Hname).
    cbn [GachaArrays.characterCounts].
    assert (Hempty : forall (names : list string) (cc : gmap string (list nat)),
              default [] (cc !! name) = [] ->
              default []
                (foldl (fun characterCounts char => <[char := []]> characterCounts)
                       cc names !! name) = []).
    { induction names as [|char names IHn]; intros cc Hcc; cbn [foldl];
        [exact Hcc|].
      apply IHn. destruct (decide (char = name)) as [->|Hne].
      - rewrite lookup_insert_eq. reflexivity.
      - rewrite lookup_insert_ne by exact Hne. exact Hcc. }
    rewrite Hempty by (rewrite lookup_empty; reflexivity). reflexivity.
Qed.

Lemma single_thread_arrays_are_aligned_witness :
  exists res results,
    GachaArrays.runSimulationMultipleTimes 2 (Some singleConfig) 0 secondDrawRngs
    = Some res /\
    trials 2 (Some singleConfig) 0 secondDrawRngs 0 = Some results /\
    length results = 2%nat /\
    GachaArrays.totalDraws res = map total results /\
    forall name,
      name ∈ map fst (default Gacha.defaultConfig (Some singleConfig)) ->
      default [] (GachaArrays.characterCounts res !! name)
      = map (fun r => countOf (statistic r) name) results.
Proof.
  eexists.
  destruct (single_thread_arrays_are_aligned 2 (Some singleConfig) 0
              secondDrawRngs _ eq_refl) as (results & H).
  exists results. split; [reflexivity | exact H].
Defined.

(** ** An empty configuration, end to end *)

Lemma simulationLoop_empty basePity rngs : forall k i acc,
  GachaArrays.simulationLoop k i (Some []) basePity rngs acc
  = Some {| GachaArrays.totalDraws :=
              GachaArrays.totalDraws acc ++ repeat 0 k;
            GachaArrays.characterCounts := GachaArrays.characterCounts acc |}.
Proof.
  induction k as [|k IH]; intros i [totals counts];
    cbn [GachaArrays.simulationLoop].
  - cbn. rewrite app_nil_r. reflexivity.
  - assert (Htrial : Gacha.chouShuTongJi (Some []) basePity (rngs i)
                     = Some {| total := 0; statistic := ∅ |}).
    { unfold Gacha.chouShuTongJi, Gacha.runTrial. cbn.
      destruct (length (rngs i)); reflexivity. }
    rewrite Htrial, IH. cbn. rewrite <- app_assoc. reflexivity.
Qed.

(** X20.  with an empty configuration the worker pool rejects the run and the
    fallback, which does not validate the configuration, returns [n]
    trials of 0 draws. *)
Theorem empty_configuration_falls_back_to_zero_draws gpuIsAvailable
    workerCount n basePity device rngs schedule fallbackRngs :
  schedule <> [] ->
  is_Some (WorkerManager.run rngs schedule
             (WorkerManager.runCPUSimulation workerCount n [] basePity)) ->
  GachaArrays.runSimulationMultipleTimesWithWorkers false gpuIsAvailable
    workerCount n (Some []) basePity device rngs schedule fallbackRngs
  = Some (Some {| GachaArrays.totalDraws := repeat 0 n;
                  GachaArrays.characterCounts := ∅ |}).
Proof.
  intros Hne [m Hrun].
  unfold GachaArrays.runSimulationMultipleTimesWithWorkers. cbv zeta.
  cbn [default]. unfold id. unfold WorkerManager.runSimulation. cbn [andb].
  change (WorkerManager.sortedOperatorConfig [])
    with (@nil (string * OperatorEntry)).
  unfold WorkerManager.cpuPromise. rewrite Hrun. cbn [fmap option_fmap option_map].
  rewrite (run_rejects_empty _ _ _ _ _ _ Hne Hrun).
  unfold GachaArrays.runSimulationMultipleTimes. cbv zeta. cbn [default map foldl].
  rewrite simulationLoop_empty. reflexivity.
Qed.

Lemma empty_configuration_falls_back_to_zero_draws_witness :
  GachaArrays.runSimulationMultipleTimesWithWorkers false false
    2 3 (Some []) 0 [] (fun _ => []) [0%nat] (fun _ => [])
  = Some (Some {| GachaArrays.totalDraws := repeat 0 3;
                  GachaArrays.characterCounts := ∅ |}).
Proof.
  apply (empty_configuration_falls_back_to_zero_draws false 2 3 0 []
           (fun _ => []) [0%nat] (fun _ => [])).
  - discriminate.
  - vm_compute. eexists. reflexivity.
Defined.

(** ** Sorting an array *)

Lemma insertSorted_permutation x l :
  Permutation (GachaArrays.insertSorted x l) (x :: l).
Proof.
  induction l as [|h t IH]; cbn; [reflexivity|].
  destruct (x <=? h); [reflexivity|]. rewrite IH. apply perm_swap.
Qed.

Lemma sortAscending_permutation data :
  Permutation (GachaArrays.sortAscending data) data.
Proof.
  induction data as [|x data IH]; cbn; [reflexivity|].
  rewrite insertSorted_permutation, IH. reflexivity.
Qed.

Lemma insertSorted_sorted x l :
  StronglySorted Z.le l -> StronglySorted Z.le (GachaArrays.insertSorted x l).
Proof.
  induction l as [|h t IH]; intros Hs; cbn.
  - repeat constructor.
  - apply StronglySorted_inv in Hs as [Hs Hh].
    destruct (Z.leb_spec x h) as [Hle|Hgt].
    + constructor; [constructor; assumption|].
      constructor; [exact Hle|].
      eapply Forall_impl; [exact Hh|]. cbn. intros; lia.
    + constructor; [apply IH, Hs|].
      rewrite insertSorted_permutation. constructor; [lia | exact Hh].
Qed.

Lemma sortAscending_sorted data :
  StronglySorted Z.le (GachaArrays.sortAscending data).
Proof.
  induction data as [|x data IH]; cbn; [constructor|].
  apply insertSorted_sorted, IH.
Qed.

Lemma sortAscending_length data :
  length (GachaArrays.sortAscending data) = length data.
Proof. apply Permutation_length, sortAscending_permutation. Qed.

Lemma sorted_nth (l : list Z) :
  StronglySorted Z.le l ->
  forall i j, (i <= j < length l)%nat -> nth i l 0 <= nth j l 0.
Proof.
  induction 1 as [|x l Hs IH Hall]; intros i j Hij; [cbn in Hij; lia|].
  destruct i as [|i], j as [|j]; cbn [nth]; try lia.
  - rewrite Forall_forall in Hall. apply Hall.
    apply list_elem_of_In, nth_In. cbn in Hij. lia.
  - apply IH. cbn in Hij. lia.
Qed.

Lemma sorted_strictly (l : list Z) :
  NoDup l -> StronglySorted Z.le l -> StronglySorted Z.lt l.
Proof.
  induction l as [|h t IH]; intros Hnd Hs; [constructor|].
  apply NoDup_cons in Hnd as [Hh Hnd].
  apply StronglySorted_inv in Hs as [Hs Hle].
  constructor; [apply IH; assumption|].
  rewrite Forall_forall in Hle |- *. intros x Hx.
  specialize (Hle x Hx). assert (h <> x); [|lia].
  intros ->. apply Hh, Hx.
Qed.

(** ** The frequency distribution of an array *)

Lemma valueCountOf_sum l : forall valueCount,
  sumValues (valueCountOf l valueCount)
  = (sumValues valueCount + length l)%nat.
Proof.
  induction l as [|val l IH]; intros valueCount; cbn [valueCountOf foldl length].
  - lia.
  - fold (valueCountOf l (<[val := (default 0 (valueCount !! val) + 1)%nat]>
                            valueCount)).
    rewrite IH.
    pose proof (sumValues_insert valueCount val
                  (default 0 (valueCount !! val) + 1)%nat).
    lia.
Qed.

Lemma valueCountOf_dom l : forall valueCount draws,
  is_Some (valueCountOf l valueCount !! draws)
  <-> draws ∈ l \/ is_Some (valueCount !! draws).
Proof.
  induction l as [|val l IH]; intros valueCount draws;
    cbn [valueCountOf foldl].
  - split; [intros H; right; exact H | intros [H|H]; [inversion H | exact H]].
  - fold (valueCountOf l (<[val := (default 0 (valueCount !! val) + 1)%nat]>
                            valueCount)).
    rewrite IH, elem_of_cons. destruct (decide (val = draws)) as [->|Hne].
    + rewrite lookup_insert_eq. split; [intros _; left; left; reflexivity|].
      intros _. right. eexists. reflexivity.
    + rewrite lookup_insert_ne by exact Hne. split.
      * intros [H|H]; [left; right; exact H | right; exact H].
      * intros [[H|H]|H]; [congruence | left; exact H | right; exact H].
Qed.

Lemma distributionWalk_draws n valueCount : forall uniqueValues acc,
  map GachaArrays.draws
      (GachaArrays.distributionWalk n valueCount acc uniqueValues)
  = uniqueValues.
Proof.
  induction uniqueValues as [|d l IH]; intros acc; cbn; [reflexivity|].
  rewrite IH. reflexivity.
Qed.

Lemma distributionWalk_cumulative n valueCount : forall uniqueValues acc,
  Forall (fun c => (acc <= c)%nat)
         (map GachaArrays.cumulative
              (GachaArrays.distributionWalk n valueCount acc uniqueValues)) /\
  StronglySorted le
    (map GachaArrays.cumulative
         (GachaArrays.distributionWalk n valueCount acc uniqueValues)).
Proof.
  induction uniqueValues as [|d l IH]; intros acc; cbn; [split; constructor|].
  destruct (IH (acc + default 0 (valueCount !! d))%nat) as [Hlo Hs].
  split.
  - constructor; [lia|]. eapply Forall_impl; [exact Hlo|]. cbn. intros; lia.
  - constructor; [exact Hs | exact Hlo].
Qed.

Lemma distributionWalk_last n valueCount : forall uniqueValues acc,
  uniqueValues <> [] ->
  exists item,
    last (GachaArrays.distributionWalk n valueCount acc uniqueValues)
    = Some item /\
    GachaArrays.cumulative item
    = (acc + foldr (fun u s => (default 0 (valueCount !! u) + s)%nat) 0%nat
                   uniqueValues)%nat /\
    GachaArrays.percentage item
    = (inject_Z (mathRound
                   (inject_Z (Z.of_nat (GachaArrays.cumulative item))
                    / inject_Z (Z.of_nat n) * 100 * 100)) / 100)%Q.
Proof.
  induction uniqueValues as [|d l IH]; intros acc Hne; [congruence|].
  destruct l as [|d' l].
  - eexists. split; [reflexivity|]. cbn. split; [lia | reflexivity].
  - destruct (IH (acc + default 0 (valueCount !! d))%nat) as (item & Hlast & Hc & Hp);
      [discriminate|].
    exists item. split; [|split; [|exact Hp]].
    + cbn [GachaArrays.distributionWalk] in Hlast |- *. cbv zeta in Hlast |- *.
      rewrite last_cons_cons. exact Hlast.
    + rewrite Hc. cbn [foldr]. lia.
Qed.

Lemma keys_sum (valueCount : gmap Z nat) (l : list (Z * nat)) :
  Forall (fun e => valueCount !! e.1 = Some e.2) l ->
  foldr (fun u s => (default 0 (valueCount !! u) + s)%nat) 0%nat (map fst l)
  = foldr (fun e acc => (e.2 + acc)%nat) 0%nat l.
Proof.
  induction 1 as [|[k v] l Hk _ IH]; cbn [map foldr fst snd]; [reflexivity|].
  cbn in Hk. rewrite Hk, IH. reflexivity.
Qed.

Lemma foldr_keys_permutation (valueCount : gmap Z nat) (l1 l2 : list Z) :
  Permutation l1 l2 ->
  foldr (fun u s => (default 0 (valueCount !! u) + s)%nat) 0%nat l1
  = foldr (fun u s => (default 0 (valueCount !! u) + s)%nat) 0%nat l2.
Proof. induction 1; cbn; lia. Qed.

(** X21.  the frequency distribution of a non-empty array lists the values
    that occur, in strictly ascending order, with cumulative counts that
    never decrease and end at the length of the array, where the
    percentage is 100. *)
Theorem frequency_distribution_is_cumulative (data : list Z) :
  data <> [] ->
  let distribution := GachaArrays.calculateFrequencyDistribution data in
  StronglySorted Z.lt (map GachaArrays.draws distribution) /\
  (forall draws, draws ∈ map GachaArrays.draws distribution <-> draws ∈ data) /\
  StronglySorted le (map GachaArrays.cumulative distribution) /\
  exists item,
    last distribution = Some item /\
    GachaArrays.cumulative item = length data /\
    (GachaArrays.percentage item == 100)%Q.
Proof.
  intros Hne. cbv zeta. unfold GachaArrays.calculateFrequencyDistribution.
  destruct data as [|x data]; [congruence|]. clear Hne. cbv zeta.
  set (data' := x :: data).
  fold (valueCountOf (GachaArrays.sortAscending data') ∅).
  set (valueCount := valueCountOf (GachaArrays.sortAscending data') ∅).
  set (uniqueValues := GachaArrays.sortAscending (map fst (map_to_list valueCount))).
  assert (Hperm : Permutation uniqueValues (map fst (map_to_list valueCount)))
    by apply sortAscending_permutation.
  assert (Hkeys : forall draws, draws ∈ uniqueValues <-> draws ∈ data').
  { intros draws. rewrite Hperm. unfold valueCount.
    rewrite <- (sortAscending_permutation data') at 2.
    pose proof (valueCountOf_dom (GachaArrays.sortAscending data') ∅ draws) as Hd.
    rewrite lookup_empty in Hd.
    assert (Hnone : ~ is_Some (@None nat)) by (intros [? ?]; discriminate).
    split.
    - intros Hin. apply list_elem_of_In, in_map_iff in Hin as ([k v] & <- & Hin).
      apply list_elem_of_In, elem_of_map_to_list in Hin.
      destruct (proj1 Hd) as [H|H]; [eexists; exact Hin | exact H | contradiction].
    - intros Hin. destruct (proj2 Hd (or_introl Hin)) as [v Hv].
      apply list_elem_of_In, in_map_iff. exists (draws, v).
      split; [reflexivity|]. apply list_elem_of_In, elem_of_map_to_list, Hv. }
  rewrite distributionWalk_draws.
  split; [|split; [exact Hkeys|split]].
  - apply sorted_strictly; [|apply sortAscending_sorted].
    rewrite Hperm. apply (NoDup_fst_map_to_list valueCount).
  - apply distributionWalk_cumulative.
  - destruct (distributionWalk_last (length data') valueCount uniqueValues 0%nat)
      as (item & Hlast & Hc & Hp).
    { intros Hnil. assert (Hx : x ∈ uniqueValues) by (apply Hkeys; left).
      rewrite Hnil in Hx. inversion Hx. }
    assert (Hfull : GachaArrays.cumulative item = length data').
    { rewrite Hc, Nat.add_0_l.
      rewrite (foldr_keys_permutation valueCount _ _ Hperm).
      rewrite keys_sum.
      - fold (countSum (map_to_list valueCount)).
        rewrite <- sumValues_map_to_list.
        unfold valueCount. rewrite valueCountOf_sum, sumValues_empty.
        rewrite sortAscending_length. reflexivity.
      - apply Forall_forall. intros [k v] Hin.
        apply elem_of_map_to_list in Hin. exact Hin. }
    exists item. split; [exact Hlast|]. split; [exact Hfull|].
    rewrite Hp, Hfull.
    assert (Hround : mathRound (inject_Z (Z.of_nat (length data'))
                                / inject_Z (Z.of_nat (length data')) * 100 * 100)
                     = 10000).
    { unfold mathRound.
      assert (Heq : (inject_Z (Z.of_nat (length data'))
                     / inject_Z (Z.of_nat (length data')) * 100 * 100 + (1 # 2)
                     == 10000 + (1 # 2))%Q).
      { apply Qplus_inj_r. field. change 0%Q with (inject_Z 0).
        rewrite inject_Z_injective. cbn. lia. }
      rewrite Heq. reflexivity. }
    rewrite Hround. reflexivity.
Qed.

Lemma frequency_distribution_is_cumulative_witness :
  let distribution := GachaArrays.calculateFrequencyDistribution [3; 1; 3] in
  StronglySorted Z.lt (map GachaArrays.draws distribution) /\
  (forall draws, draws ∈ map GachaArrays.draws distribution
                 <-> draws ∈ [3; 1; 3]) /\
  StronglySorted le (map GachaArrays.cumulative distribution) /\
  exists item,
    last distribution = Some item /\
    GachaArrays.cumulative item = length [3; 1; 3] /\
    (GachaArrays.percentage item == 100)%Q.
Proof.
  apply (frequency_distribution_is_cumulative [3; 1; 3]). discriminate.
Defined.

(** ** Order statistics of an array *)

Lemma index_floor (p N : Z) :
  Qfloor (inject_Z p / 100 * (inject_Z N - 1)) = (p * (N - 1)) / 100.
Proof.
  unfold Qfloor, Qdiv, Qmult, Qminus, Qplus, Qopp, Qinv, inject_Z. cbn.
  f_equal. ring.
Qed.

Lemma index_ceiling (p N : Z) :
  Qceiling (inject_Z p / 100 * (inject_Z N - 1)) = - ((- (p * (N - 1))) / 100).
Proof.
  unfold Qceiling, Qfloor, Qdiv, Qmult, Qminus, Qplus, Qopp, Qinv, inject_Z. cbn.
  f_equal. f_equal. ring.
Qed.

Lemma interpolation_between (a b : Z) (w : Q) :
  a <= b -> (0 <= w)%Q -> (w <= 1)%Q ->
  (inject_Z a <= inject_Z a * (1 - w) + inject_Z b * w)%Q /\
  (inject_Z a * (1 - w) + inject_Z b * w <= inject_Z b)%Q.
Proof.
  intros Hab Hw0 Hw1.
  assert (Hd : (0 <= inject_Z b - inject_Z a)%Q).
  { unfold Qminus. rewrite <- inject_Z_opp, <- inject_Z_plus.
    change 0%Q with (inject_Z 0). rewrite <- Zle_Qle. lia. }
  assert (Hw : (0 <= 1 - w)%Q).
  { apply (Qplus_le_l _ _ w).
    setoid_replace (1 - w + w)%Q with 1%Q using relation Qeq by ring.
    setoid_replace (0 + w)%Q with w using relation Qeq by ring.
    exact Hw1. }
  split; apply Qle_minus_iff.
  - setoid_replace (inject_Z a * (1 - w) + inject_Z b * w + - inject_Z a)%Q
      with (w * (inject_Z b - inject_Z a))%Q using relation Qeq by ring.
    apply Qmult_le_0_compat; assumption.
  - setoid_replace (inject_Z b + - (inject_Z a * (1 - w) + inject_Z b * w))%Q
      with ((1 - w) * (inject_Z b - inject_Z a))%Q using relation Qeq by ring.
    apply Qmult_le_0_compat; assumption.
Qed.

(** A percentile lies between the elements at the floor and at the ceiling
    of its index. *)
Lemma percentile_between (sortedData : list Z) (p : Z) :
  StronglySorted Z.le sortedData -> sortedData <> [] -> 0 <= p <= 100 ->
  let N := Z.of_nat (length sortedData) in
  let lower := (p * (N - 1)) / 100 in
  let upper := - ((- (p * (N - 1))) / 100) in
  0 <= lower <= upper /\ upper <= N - 1 /\
  (inject_Z (nth (Z.to_nat lower) sortedData 0%Z)
   <= GachaArrays.percentile sortedData (inject_Z p))%Q /\
  (GachaArrays.percentile sortedData (inject_Z p)
   <= inject_Z (nth (Z.to_nat upper) sortedData 0%Z))%Q.
Proof.
  intros Hs Hne Hp. cbv zeta.
  set (N := Z.of_nat (length sortedData)).
  assert (HN : 1 <= N).
  { unfold N. destruct sortedData; [congruence | cbn [length]; lia]. }
  unfold GachaArrays.percentile. cbv zeta. fold N.
  set (index := (inject_Z p / 100 * (inject_Z N - 1))%Q).
  assert (Hfloor : Qfloor index = (p * (N - 1)) / 100) by apply index_floor.
  assert (Hceil : Qceiling index = - ((- (p * (N - 1))) / 100))
    by apply index_ceiling.
  rewrite Hfloor, Hceil.
  set (lower := (p * (N - 1)) / 100) in *.
  set (upper := - ((- (p * (N - 1))) / 100)) in *.
  assert (Hrange : 0 <= lower <= upper /\ upper <= N - 1).
  { unfold lower, upper. split; [split|].
    - apply Z.div_pos; nia.
    - pose proof (Z.div_mod (p * (N - 1)) 100 ltac:(lia)).
      pose proof (Z.mod_pos_bound (p * (N - 1)) 100 ltac:(lia)).
      pose proof (Z.div_mod (- (p * (N - 1))) 100 ltac:(lia)).
      pose proof (Z.mod_pos_bound (- (p * (N - 1))) 100 ltac:(lia)).
      lia.
    - pose proof (Z.div_mod (- (p * (N - 1))) 100 ltac:(lia)).
      pose proof (Z.mod_pos_bound (- (p * (N - 1))) 100 ltac:(lia)).
      nia. }
  destruct Hrange as [[Hl0 Hlu] HuN].
  split; [split; assumption|]. split; [exact HuN|].
  assert (Hnth : nth (Z.to_nat lower) sortedData 0
                 <= nth (Z.to_nat upper) sortedData 0).
  { apply sorted_nth; [exact Hs | unfold N in *; lia]. }
  destruct (Z.eqb_spec lower upper) as [Heq|Hneq].
  - rewrite <- Heq. split; apply Qle_refl.
  - apply interpolation_between; [exact Hnth | |].
    + rewrite <- Hfloor. apply (Qplus_le_l _ _ (inject_Z (Qfloor index))).
      setoid_replace (index - inject_Z (Qfloor index) + inject_Z (Qfloor index))%Q
        with index using relation Qeq by ring.
      setoid_replace (0 + inject_Z (Qfloor index))%Q
        with (inject_Z (Qfloor index)) using relation Qeq by ring.
      apply Qfloor_le.
    + rewrite <- Hfloor. apply (Qplus_le_l _ _ (inject_Z (Qfloor index))).
      setoid_replace (index - inject_Z (Qfloor index) + inject_Z (Qfloor index))%Q
        with index using relation Qeq by ring.
      change 1%Q with (inject_Z 1). rewrite <- inject_Z_plus.
      apply Qlt_le_weak.
      replace (1 + Qfloor index) with (Qfloor index + 1) by lia.
      apply Qlt_floor.
Qed.

Lemma interpolation_low (a b : Z) (w : Q) :
  a <= b -> (w <= 1 # 2)%Q ->
  (inject_Z a * (1 - w) + inject_Z b * w <= (inject_Z a + inject_Z b) / 2)%Q.
Proof.
  intros Hab Hw.
  assert (Hd : (0 <= inject_Z b - inject_Z a)%Q).
  { unfold Qminus. rewrite <- inject_Z_opp, <- inject_Z_plus.
    change 0%Q with (inject_Z 0). rewrite <- Zle_Qle. lia. }
  apply Qle_minus_iff.
  setoid_replace ((inject_Z a + inject_Z b) / 2
                  + - (inject_Z a * (1 - w) + inject_Z b * w))%Q
    with (((1 # 2) - w) * (inject_Z b - inject_Z a))%Q
    using relation Qeq by field.
  apply Qmult_le_0_compat; [|exact Hd].
  apply (Qplus_le_l _ _ w).
  setoid_replace ((1 # 2) - w + w)%Q with (1 # 2)%Q using relation Qeq by ring.
  setoid_replace (0 + w)%Q with w using relation Qeq by ring.
  exact Hw.
Qed.

Lemma interpolation_high (a b : Z) (w : Q) :
  a <= b -> (1 # 2 <= w)%Q ->
  ((inject_Z a + inject_Z b) / 2 <= inject_Z a * (1 - w) + inject_Z b * w)%Q.
Proof.
  intros Hab Hw.
  assert (Hd : (0 <= inject_Z b - inject_Z a)%Q).
  { unfold Qminus. rewrite <- inject_Z_opp, <- inject_Z_plus.
    change 0%Q with (inject_Z 0). rewrite <- Zle_Qle. lia. }
  apply Qle_minus_iff.
  setoid_replace (inject_Z a * (1 - w) + inject_Z b * w
                  + - ((inject_Z a + inject_Z b) / 2))%Q
    with ((w - (1 # 2)) * (inject_Z b - inject_Z a))%Q
    using relation Qeq by field.
  apply Qmult_le_0_compat; [|exact Hd].
  apply (Qplus_le_l _ _ (1 # 2)).
  setoid_replace (w - (1 # 2) + (1 # 2))%Q with w using relation Qeq by ring.
  setoid_replace (0 + (1 # 2))%Q with (1 # 2)%Q using relation Qeq by ring.
  exact Hw.
Qed.

Lemma midpoint_between (a b : Z) :
  a <= b ->
  (inject_Z a <= (inject_Z a + inject_Z b) / 2)%Q /\
  ((inject_Z a + inject_Z b) / 2 <= inject_Z b)%Q.
Proof.
  intros Hab.
  destruct (interpolation_between a b (1 # 2) Hab) as [H1 H2];
    [discriminate | discriminate |].
  assert (Heq : (inject_Z a * (1 - (1 # 2)) + inject_Z b * (1 # 2)
                 == (inject_Z a + inject_Z b) / 2)%Q) by field.
  rewrite Heq in H1, H2. split; assumption.
Qed.

Lemma sorted_sum_bounds (l : list Z) :
  StronglySorted Z.le l -> l <> [] ->
  Z.of_nat (length l) * nth 0 l 0 <= foldr Z.add 0 l
  <= Z.of_nat (length l) * nth (length l - 1) l 0.
Proof.
  intros Hs Hne.
  assert (Hall : Forall (fun x => nth 0 l 0 <= x <= nth (length l - 1) l 0) l).
  { apply Forall_forall. intros x Hx.
    apply list_elem_of_lookup in Hx as [i Hi].
    pose proof (lookup_lt_Some _ _ _ Hi) as Hlt.
    rewrite <- (nth_lookup_Some _ _ 0 _ Hi).
    split; apply sorted_nth; try exact Hs; lia. }
  revert Hall. generalize (nth 0 l 0) (nth (length l - 1) l 0). clear.
  intros lo hi. induction 1 as [|x l Hx _ IH]; cbn [length foldr]; [lia|].
  nia.
Qed.

Lemma foldl_add_foldr (l : list Z) : forall a,
  foldl Z.add a l = a + foldr Z.add 0 l.
Proof.
  induction l as [|x l IH]; intros a; cbn; [lia|]. rewrite IH. lia.
Qed.

Lemma foldr_add_permutation (l1 l2 : list Z) :
  Permutation l1 l2 -> foldr Z.add 0 l1 = foldr Z.add 0 l2.
Proof. induction 1; cbn; lia. Qed.

Lemma two_values (a0 a1 : Z) :
  a0 <= a1 ->
  (GachaArrays.percentile [a0; a1] (inject_Z 25)
   <= (if (2 mod 2 =? 0)%nat
       then (inject_Z (nth (2 / 2 - 1)%nat [a0; a1] 0%Z)
             + inject_Z (nth (2 / 2)%nat [a0; a1] 0%Z)) / 2
       else inject_Z (nth (2 / 2)%nat [a0; a1] 0%Z)))%Q /\
  ((if (2 mod 2 =? 0)%nat
    then (inject_Z (nth (2 / 2 - 1)%nat [a0; a1] 0%Z)
          + inject_Z (nth (2 / 2)%nat [a0; a1] 0%Z)) / 2
    else inject_Z (nth (2 / 2)%nat [a0; a1] 0%Z))
   <= GachaArrays.percentile [a0; a1] (inject_Z 75))%Q.
Proof.
  intros Ha.
  change (if (2 mod 2 =? 0)%nat
          then (inject_Z (nth (2 / 2 - 1)%nat [a0; a1] 0%Z)
                + inject_Z (nth (2 / 2)%nat [a0; a1] 0%Z)) / 2
          else inject_Z (nth (2 / 2)%nat [a0; a1] 0%Z))%Q
    with ((inject_Z a0 + inject_Z a1) / 2)%Q.
  unfold GachaArrays.percentile. cbv zeta. cbn [length].
  rewrite !index_floor, !index_ceiling.
  change ((25 * (Z.of_nat 2 - 1)) / 100) with 0.
  change (- ((- (25 * (Z.of_nat 2 - 1))) / 100)) with 1.
  change ((75 * (Z.of_nat 2 - 1)) / 100) with 0.
  change (- ((- (75 * (Z.of_nat 2 - 1))) / 100)) with 1.
  change (0 =? 1) with false. cbv iota.
  change (nth (Z.to_nat 0) [a0; a1] 0) with a0.
  change (nth (Z.to_nat 1) [a0; a1] 0) with a1.
  split; [apply interpolation_low | apply interpolation_high];
    try exact Ha; discriminate.
Qed.

(** X22.  the statistics of a non-empty array are ordered: minimum, lower
    quartile, median, upper quartile and maximum never decrease, and the
    mean lies between the minimum and the maximum. *)
Theorem array_statistics_are_ordered (data : list Z) stats :
  GachaArrays.calculateStatistics data = Some stats ->
  (inject_Z (GachaArrays.min stats) <= GachaArrays.p25 stats)%Q /\
  (GachaArrays.p25 stats <= GachaArrays.median stats)%Q /\
  (GachaArrays.median stats <= GachaArrays.p75 stats)%Q /\
  (GachaArrays.p75 stats <= inject_Z (GachaArrays.max stats))%Q /\
  (inject_Z (GachaArrays.min stats) <= GachaArrays.mean stats)%Q /\
  (GachaArrays.mean stats <= inject_Z (GachaArrays.max stats))%Q.
Proof.
  unfold GachaArrays.calculateStatistics.
  destruct data as [|x data0]; [discriminate|].
  set (data := x :: data0). cbv zeta. intros Heq.
  apply (inj Some) in Heq. subst stats.
  cbn [GachaArrays.min GachaArrays.max GachaArrays.p25 GachaArrays.p75
       GachaArrays.median GachaArrays.mean].
  set (s := GachaArrays.sortAscending data).
  set (n := length data).
  assert (Hs : StronglySorted Z.le s) by apply sortAscending_sorted.
  assert (Hlen : length s = n) by apply sortAscending_length.
  assert (Hn : (1 <= n)%nat) by (unfold n, data; cbn [length]; lia).
  assert (Hne : s <> []).
  { intros Hnil. rewrite Hnil in Hlen. cbn in Hlen. lia. }
  change 25%Q with (inject_Z 25). change 75%Q with (inject_Z 75).
  destruct (percentile_between s 25 Hs Hne ltac:(lia))
    as ([Hl25 Hlu25] & Hu25 & Hp25lo & Hp25hi).
  destruct (percentile_between s 75 Hs Hne ltac:(lia))
    as ([Hl75 Hlu75] & Hu75 & Hp75lo & Hp75hi).
  rewrite Hlen in *.
  set (N := Z.of_nat n) in *.
  set (l25 := (25 * (N - 1)) / 100) in *.
  set (u25 := - ((- (25 * (N - 1))) / 100)) in *.
  set (l75 := (75 * (N - 1)) / 100) in *.
  set (u75 := - ((- (75 * (N - 1))) / 100)) in *.
  pose proof (Z.div_mod (25 * (N - 1)) 100 ltac:(lia)) as E1.
  pose proof (Z.mod_pos_bound (25 * (N - 1)) 100 ltac:(lia)) as B1.
  pose proof (Z.div_mod (- (25 * (N - 1))) 100 ltac:(lia)) as E2.
  pose proof (Z.mod_pos_bound (- (25 * (N - 1))) 100 ltac:(lia)) as B2.
  pose proof (Z.div_mod (75 * (N - 1)) 100 ltac:(lia)) as E3.
  pose proof (Z.mod_pos_bound (75 * (N - 1)) 100 ltac:(lia)) as B3.
  pose proof (Z.div_mod (- (75 * (N - 1))) 100 ltac:(lia)) as E4.
  pose proof (Z.mod_pos_bound (- (75 * (N - 1))) 100 ltac:(lia)) as B4.
  fold l25 in E1. fold l75 in E3.
  pose proof (Nat.div_mod_eq n 2) as En.
  pose proof (Nat.mod_upper_bound n 2 ltac:(lia)) as Bn.
  assert (Hmedian :
    (n <> 2)%nat ->
    exists mlo mhi : nat,
      (Z.to_nat u25 <= mlo <= mhi)%nat /\ (mhi <= Z.to_nat l75)%nat /\
      (mhi < n)%nat /\
      (inject_Z (nth mlo s 0%Z)
       <= (if (n mod 2 =? 0)%nat
           then (inject_Z (nth (n / 2 - 1)%nat s 0%Z)
                 + inject_Z (nth (n / 2)%nat s 0%Z)) / 2
           else inject_Z (nth (n / 2)%nat s 0%Z)))%Q /\
      ((if (n mod 2 =? 0)%nat
        then (inject_Z (nth (n / 2 - 1)%nat s 0%Z)
              + inject_Z (nth (n / 2)%nat s 0%Z)) / 2
        else inject_Z (nth (n / 2)%nat s 0%Z))
       <= inject_Z (nth mhi s 0%Z))%Q).
  { intros Hn2. destruct (Nat.eqb_spec (n mod 2) 0) as [Heven|Hodd].
    - exists (n / 2 - 1)%nat, (n / 2)%nat.
      split; [unfold u25 in *; lia|]. split; [lia|]. split; [lia|].
      apply midpoint_between. apply sorted_nth; [exact Hs | lia].
    - exists (n / 2)%nat, (n / 2)%nat.
      split; [unfold u25 in *; lia|]. split; [lia|]. split; [lia|].
      split; apply Qle_refl. }
  assert (Hmin : (inject_Z (nth 0 s 0%Z) <= GachaArrays.percentile s (inject_Z 25))%Q).
  { eapply Qle_trans; [|exact Hp25lo]. rewrite <- Zle_Qle.
    apply sorted_nth; [exact Hs | lia]. }
  assert (Hmax : (GachaArrays.percentile s (inject_Z 75)
                  <= inject_Z (nth (n - 1) s 0%Z))%Q).
  { eapply Qle_trans; [exact Hp75hi|]. rewrite <- Zle_Qle.
    apply sorted_nth; [exact Hs | unfold u75 in *; lia]. }
  assert (Hsum : foldl Z.add 0 data = foldr Z.add 0 s).
  { rewrite foldl_add_foldr, Z.add_0_l.
    apply foldr_add_permutation. symmetry. apply sortAscending_permutation. }
  pose proof (sorted_sum_bounds s Hs Hne) as Hbounds.
  rewrite Hlen in Hbounds. fold N in Hbounds. rewrite <- Hsum in Hbounds.
  assert (HNpos : (0 < inject_Z N)%Q).
  { change 0%Q with (inject_Z 0). rewrite <- Zlt_Qlt. unfold N. lia. }
  split; [exact Hmin|].
  split; [|split; [|split; [exact Hmax|split]]].
  - destruct (Nat.eq_dec n 2%nat) as [Hn2|Hn2].
    + clearbody s. destruct s as [|a0 [|a1 [|? ?]]]; cbn [length] in Hlen; try lia.
      rewrite Hn2.
      assert (Ha : a0 <= a1).
      { apply StronglySorted_inv in Hs as [_ Hall].
        apply Forall_cons in Hall as [Ha _]. exact Ha. }
      apply (two_values a0 a1 Ha).
    + destruct (Hmedian Hn2) as (mlo & mhi & [Hu Hmm] & Hl & Hlt & Hlo & Hhi).
      eapply Qle_trans; [exact Hp25hi|]. eapply Qle_trans; [|exact Hlo].
      rewrite <- Zle_Qle. apply sorted_nth; [exact Hs | lia].
  - destruct (Nat.eq_dec n 2%nat) as [Hn2|Hn2].
    + clearbody s. destruct s as [|a0 [|a1 [|? ?]]]; cbn [length] in Hlen; try lia.
      rewrite Hn2.
      assert (Ha : a0 <= a1).
      { apply StronglySorted_inv in Hs as [_ Hall].
        apply Forall_cons in Hall as [Ha _]. exact Ha. }
      apply (two_values a0 a1 Ha).
    + destruct (Hmedian Hn2) as (mlo & mhi & [Hu Hmm] & Hl & Hlt & Hlo & Hhi).
      eapply Qle_trans; [exact Hhi|]. eapply Qle_trans; [|exact Hp75lo].
      rewrite <- Zle_Qle. apply sorted_nth; [exact Hs | lia].
  - apply Qle_shift_div_l; [exact HNpos|].
    rewrite <- inject_Z_mult, <- Zle_Qle. lia.
  - apply Qle_shift_div_r; [exact HNpos|].
    rewrite <- inject_Z_mult, <- Zle_Qle. lia.
Qed.

Lemma array_statistics_are_ordered_witness :
  exists stats,
    GachaArrays.calculateStatistics [7; 3; 5; 9] = Some stats /\
    (inject_Z (GachaArrays.min stats) <= GachaArrays.p25 stats)%Q /\
    (GachaArrays.p25 stats <= GachaArrays.median stats)%Q /\
    (GachaArrays.median stats <= GachaArrays.p75 stats)%Q /\
    (GachaArrays.p75 stats <= inject_Z (GachaArrays.max stats))%Q /\
    (inject_Z (GachaArrays.min stats) <= GachaArrays.mean stats)%Q /\
    (GachaArrays.mean stats <= inject_Z (GachaArrays.max stats))%Q.
Proof.
  eexists. split; [reflexivity|].
  apply (array_statistics_are_ordered [7; 3; 5; 9]). reflexivity.
Defined.

(** ** Base pity on the GPU path *)







(** ** A configuration that wants nothing *)

Lemma freshOperator_keys (operatorConfig : OperatorConfig) name :
  name ∈ map fst operatorConfig ->
  is_Some (WorkerManager.freshOperator operatorConfig !! name).
Proof.
  unfold WorkerManager.freshOperator.
  induction operatorConfig as [|[n e] cfg IH]; cbn; intros Hin;
    [inversion Hin|].
  destruct (decide (n = name)) as [->|Hne].
  - rewrite lookup_insert_eq. eexists. reflexivity.
  - rewrite lookup_insert_ne by exact Hne. apply IH.
    apply elem_of_cons in Hin as [Heq|Hin]; [congruence | exact Hin].
Qed.

(** The trial loop of [runGPUSimulation] adds the draws of the reward it
    has popped before it tests completion: a total it records holds the
    draws of at least one reward. *)
Lemma trialLoop_positive (operatorConfig : OperatorConfig) N basePity :
  0 <= basePity ->
  forall results operator totalDraws st,
    Forall (fun r => basePity + 1 <= laneDraws r /\
                     laneName r ∈ map fst operatorConfig) results ->
    (forall n, n ∈ map fst operatorConfig -> is_Some (operator !! n)) ->
    0 <= totalDraws ->
    (forall draws c, gpu_drawsBucket st !! draws = Some c ->
                     basePity + 1 <= draws) ->
    let out := WorkerManager.trialLoop operatorConfig N operator totalDraws
                                       results st in
    Forall (fun r => basePity + 1 <= laneDraws r /\
                     laneName r ∈ map fst operatorConfig) out.1 /\
    (forall draws c, gpu_drawsBucket out.2 !! draws = Some c ->
                     basePity + 1 <= draws).
Proof.
  intros Hb.
  induction results as [|result results IH];
    intros operator totalDraws st Hlanes Hkeys Htotal Hbucket;
    cbn [WorkerManager.trialLoop]; [split; [constructor | exact Hbucket]|].
  apply Forall_cons in Hlanes as [[Hdraws Hname] Hlanes]. cbv zeta.
  rewrite (bool_decide_eq_true_2 _ (Hkeys _ Hname)).
  destruct (forallb _ operatorConfig).
  - cbn [fst snd gpu_drawsBucket]. split.
    + destruct (_ <=? _)%nat; [constructor | exact Hlanes].
    + intros draws c Hlookup.
      destruct (decide (totalDraws + laneDraws result = draws)) as [<-|Hne];
        [lia|].
      rewrite lookup_insert_ne in Hlookup by exact Hne.
      eapply Hbucket; eassumption.
  - apply IH; [exact Hlanes | | lia | exact Hbucket].
    intros n Hn. apply lookup_insert_is_Some'. right. apply Hkeys, Hn.
Qed.

Lemma batchLoop_positive (operatorConfig : OperatorConfig) N basePity :
  0 <= basePity ->
  forall fuel results st,
    Forall (fun r => basePity + 1 <= laneDraws r /\
                     laneName r ∈ map fst operatorConfig) results ->
    (forall draws c, gpu_drawsBucket st !! draws = Some c ->
                     basePity + 1 <= draws) ->
    forall draws c,
      gpu_drawsBucket
        (WorkerManager.batchLoop fuel operatorConfig N results st).2 !! draws
      = Some c ->
      basePity + 1 <= draws.
Proof.
  intros Hb. induction fuel as [|fuel IH]; intros results st Hlanes Hbucket;
    cbn [WorkerManager.batchLoop]; [exact Hbucket|].
  destruct results as [|r results]; [exact Hbucket|].
  destruct (trialLoop_positive operatorConfig N basePity Hb (r :: results)
              (WorkerManager.freshOperator operatorConfig) 0 st Hlanes)
    as [Hrest Hbucket'].
  - apply freshOperator_keys.
  - lia.
  - exact Hbucket.
  - cbv zeta in Hrest, Hbucket'.
    destruct (WorkerManager.trialLoop _ _ _ _ _ _) as [results' st'].
    apply IH; assumption.
Qed.

Lemma gpuLoop_positive (operatorConfig : OperatorConfig) N basePity :
  operatorConfig <> [] ->
  Forall (fun oe => oe.1 <> ""%string /\ (0 <= weight oe.2)%Q) operatorConfig ->
  0 <= basePity <= 97 ->
  forall device st s,
    Forall (fun batch => forall randomNumbers,
              batch = Some randomNumbers ->
              Forall (fun k => (0 <= k.1 <= 1)%Q /\ (0 <= k.2 <= 1)%Q)
                     randomNumbers) device ->
    (forall draws c, gpu_drawsBucket st !! draws = Some c ->
                     basePity + 1 <= draws) ->
    WorkerManager.gpuLoop operatorConfig N basePity device st = Returned s ->
    forall draws c, drawsBucket s !! draws = Some c -> basePity + 1 <= draws.
Proof.
  intros Hne Hcfg Hb.
  induction device as [|batch device IH]; intros st s Hdevice Hbucket;
    cbn [WorkerManager.gpuLoop]; destruct (currentSim st <? N)%nat;
    try discriminate; try (intros [= <-]; exact Hbucket).
  destruct batch as [randomNumbers|]; [|discriminate].
  apply Forall_cons in Hdevice as [Hbatch Hdevice]. cbv zeta.
  apply IH; [exact Hdevice|].
  unfold WorkerManager.processResults.
  apply batchLoop_positive; [lia | | exact Hbucket].
  apply Forall_rev.
  destruct (runSimulation_keeps operatorConfig basePity randomNumbers
              Hne Hcfg Hb (Hbatch _ eq_refl)) as [_ Hlanes].
  eapply Forall_impl; [exact Hlanes|]. cbn beta. intros r [[Hlo _] Hname].
  split; assumption.
Qed.

(** C4.  The two trial loops disagree on a configuration whose every
    target quota is 0.  The completion check of [chouShuTongJi] (in
    [gacha.ts] and in the worker script alike) succeeds before the first
    draw: the trial consumes no random number and returns [total = 0], not
    the positive number of draws of a loop executed at least once.  The
    trial loop of [runGPUSimulation] pops a reward before it tests
    completion: on the same configuration every trial the GPU path
    records took at least [basePity + 1] draws. *)
Theorem zero_quota_paths_disagree (operatorConfig : OperatorConfig)
    (basePity : Z) (rs : list Q) N device s :
  operatorConfig <> [] ->
  Forall (fun oe => target oe.2 = 0%nat) operatorConfig ->
  Forall (fun oe => oe.1 <> ""%string /\ (0 <= weight oe.2)%Q) operatorConfig ->
  0 <= basePity <= 97 ->
  Forall (fun batch => forall randomNumbers,
            batch = Some randomNumbers ->
            Forall (fun k => (0 <= k.1 <= 1)%Q /\ (0 <= k.2 <= 1)%Q)
                   randomNumbers) device ->
  WorkerManager.gpuAttempt N operatorConfig basePity device = Returned s ->
  let result :=
    {| total := 0;
       statistic := Gacha.initStatistic (map fst operatorConfig) |} in
  Gacha.chouShuTongJi (Some operatorConfig) basePity rs = Some result /\
  SimulationWorker.chouShuTongJi operatorConfig basePity rs
  = Some (inr result) /\
  sumValues (drawsBucket s) = N /\
  forall draws c, drawsBucket s !! draws = Some c -> basePity + 1 <= draws.
Proof.
  intros Hne Hzero Hcfg Hb Hdevice Hrun result.
  destruct (zero_quota_trial_draws_nothing operatorConfig basePity rs Hne Hzero)
    as [Hcpu Hworker].
  split; [exact Hcpu|]. split; [exact Hworker|]. split.
  - eapply gpuAttempt_returns, Hrun.
  - unfold WorkerManager.gpuAttempt in Hrun.
    refine (gpuLoop_positive operatorConfig N basePity Hne Hcfg Hb _ _ _
              Hdevice _ Hrun).
    intros draws c Hlookup. cbn in Hlookup. rewrite lookup_empty in Hlookup.
    discriminate.
Qed.

Lemma zero_quota_attempt :
  WorkerManager.gpuAttempt 2 zeroQuotaConfig 0 [Some (repeat certainLane 2)]
  = Returned (WorkerManager.buildStatistics
                {[1 := 2%nat]} {["A"%string := 2%nat]} 2).
Proof.
  unfold WorkerManager.gpuAttempt, zeroQuotaConfig.
  rewrite gpuLoop_step by (cbn; lia).
  rewrite runSimulation_certain_lanes.
  vm_compute. reflexivity.
Qed.

(** The worker pool, on the same configuration, records both trials at 0
    draws. *)
Lemma zero_quota_pool_records_no_draw :
  bucketAt 0 (WorkerManager.runSimulation false false 1 2 zeroQuotaConfig 0 []
                                          (fun _ => []) [0%nat; 0%nat])
  = Some 2%nat.
Proof. vm_compute. reflexivity. Qed.

Lemma zero_quota_paths_disagree_witness :
  let statistics :=
    WorkerManager.buildStatistics {[1 := 2%nat]} {["A"%string := 2%nat]} 2 in
  let result := {| total := 0; statistic := {["A"%string := 0%nat]} |} in
  WorkerManager.gpuAttempt 2 zeroQuotaConfig 0 [Some (repeat certainLane 2)]
  = Returned statistics /\
  Gacha.chouShuTongJi (Some zeroQuotaConfig) 0 [0%Q; 0%Q] = Some result /\
  SimulationWorker.chouShuTongJi zeroQuotaConfig 0 [0%Q; 0%Q]
  = Some (inr result) /\
  sumValues (drawsBucket statistics) = 2%nat /\
  forall draws c, drawsBucket statistics !! draws = Some c -> 0 + 1 <= draws.
Proof.
  split; [exact zero_quota_attempt|].
  apply (zero_quota_paths_disagree zeroQuotaConfig 0 [0%Q; 0%Q] 2
           [Some (repeat certainLane 2)]).
  - discriminate.
  - repeat constructor.
  - repeat constructor; cbn; discriminate.
  - lia.
  - constructor; [|constructor].
    intros rs [= <-]. repeat constructor; vm_compute; congruence.
  - exact zero_quota_attempt.
Defined.

(** ** The two means *)

Lemma foldl_weighted_acc (entries : list (Z * nat)) : forall a,
  foldl (fun sum e => sum + e.1 * Z.of_nat e.2) a entries
  = a + foldr (fun '(draws, c) acc => draws * Z.of_nat c + acc) 0 entries.
Proof.
  induction entries as [|[d c] l IH]; intros a; cbn [foldl foldr fst snd];
    [lia|].
  rewrite IH. lia.
Qed.

Lemma foldr_weighted_permutation (l1 l2 : list (Z * nat)) :
  Permutation l1 l2 ->
  foldr (fun '(draws, c) acc => draws * Z.of_nat c + acc) 0 l1
  = foldr (fun '(draws, c) acc => draws * Z.of_nat c + acc) 0 l2.
Proof.
  induction 1 as [| [d c] l l' _ IH | [d c] [d' c'] l | l l' l'' _ IH1 _ IH2];
    cbn [foldr]; lia.
Qed.

(** X24.  the array rebuilt from the statistics of a run has the mean the
    streaming statistics report, as many entries as the bucket has trials
    and the bucket's total of draws. *)
Theorem legacy_mean_is_the_streaming_mean (s : SimulationStatistics) :
  (0 < sumValues (drawsBucket s))%nat ->
  exists stats,
    GachaArrays.calculateStatistics
      (GachaArrays.totalDraws (GachaArrays.convertStatisticsToLegacyFormat s))
    = Some stats /\
    GachaArrays.mean stats
    = mean (WorkerManager.calculateStatisticalData (drawsBucket s)) /\
    GachaArrays.totalSimulations stats = sumValues (drawsBucket s) /\
    GachaArrays.sumOfDraws stats
    = WorkerManager.getTotalDrawsFromBucket (drawsBucket s).
Proof.
  intros Hpos.
  cbn [GachaArrays.convertStatisticsToLegacyFormat GachaArrays.totalDraws].
  assert (Hmean : mean (WorkerManager.calculateStatisticalData (drawsBucket s))
                  = (inject_Z (foldl (fun sum e => (sum + e.1 * Z.of_nat e.2)%Z) 0%Z
                                     (WorkerManager.bucketEntries (drawsBucket s)))
                     / inject_Z (foldl (fun sum e => (sum + Z.of_nat e.2)%Z) 0%Z
                                       (WorkerManager.bucketEntries (drawsBucket s))))%Q).
  { unfold WorkerManager.calculateStatisticalData. cbv zeta.
    destruct (WorkerManager.quartileWalk _ _ _ _ _ _ _). reflexivity. }
  rewrite Hmean. clear Hmean.
  set (entries := WorkerManager.bucketEntries (drawsBucket s)).
  set (data := flat_map (fun '(drawsNum, c) => repeat drawsNum c) entries).
  assert (Hlen : length data = sumValues (drawsBucket s)).
  { unfold data. rewrite flat_repeat_length. apply bucketEntries_countSum. }
  assert (Hsum : foldl Z.add 0 data
                 = foldl (fun sum e => sum + e.1 * Z.of_nat e.2) 0 entries).
  { rewrite foldl_add_foldr, foldl_weighted_acc. unfold data.
    rewrite flat_repeat_sum. reflexivity. }
  assert (Hcount : foldl (fun sum e => sum + Z.of_nat e.2) 0 entries
                   = Z.of_nat (length data)).
  { rewrite foldl_count_acc, Z.add_0_l, Hlen. f_equal.
    apply bucketEntries_countSum. }
  assert (Htotal : foldl Z.add 0 data
                   = WorkerManager.getTotalDrawsFromBucket (drawsBucket s)).
  { rewrite Hsum, foldl_weighted_acc.
    unfold WorkerManager.getTotalDrawsFromBucket. rewrite foldl_total_acc.
    f_equal. apply foldr_weighted_permutation, bucketEntries_permutation. }
  unfold GachaArrays.calculateStatistics.
  destruct data as [|x data0] eqn:Hdata; [cbn in Hlen; lia|].
  rewrite <- Hdata in *. cbv zeta.
  eexists. split; [reflexivity|].
  cbn [GachaArrays.mean GachaArrays.totalSimulations GachaArrays.sumOfDraws].
  rewrite Hcount, Hsum. split; [reflexivity|]. split; [exact Hlen|].
  rewrite <- Hsum. exact Htotal.
Qed.

Lemma legacy_mean_is_the_streaming_mean_witness :
  exists stats,
    GachaArrays.calculateStatistics
      (GachaArrays.totalDraws
         (GachaArrays.convertStatisticsToLegacyFormat
            (WorkerManager.buildStatistics oddBucket ∅ 3)))
    = Some stats /\
    GachaArrays.mean stats
    = mean (WorkerManager.calculateStatisticalData
              (drawsBucket (WorkerManager.buildStatistics oddBucket ∅ 3))) /\
    GachaArrays.totalSimulations stats
    = sumValues (drawsBucket (WorkerManager.buildStatistics oddBucket ∅ 3)) /\
    GachaArrays.sumOfDraws stats
    = WorkerManager.getTotalDrawsFromBucket
        (drawsBucket (WorkerManager.buildStatistics oddBucket ∅ 3)).
Proof.
  apply (legacy_mean_is_the_streaming_mean
           (WorkerManager.buildStatistics oddBucket ∅ 3)).
  vm_compute. lia.
Defined.

(** ** The trial algorithm and the reward table, summed up *)

(** X25.  from a base pity below 50, and with enough random numbers at hand,
    [gatcha] returns, and what it returns is at least 1 and at most
    [98 - basePity]. *)
Theorem gatcha_returns_a_positive_count basePity rs :
  0 <= basePity < 50 -> Forall unitInterval rs ->
  (Z.to_nat (100 - basePity) <= length rs)%nat ->
  exists d rs',
    Pity.gatcha basePity rs = Some (d, rs') /\
    1 <= d <= 98 - basePity /\
    (length rs' < length rs <= length rs' + Z.to_nat (100 - basePity))%nat.
Proof.
  intros Hb Hrs Hlen.
  destruct (gatcha_terminates basePity rs) as (d & rs' & Hg & _ & Hused);
    [lia | exact Hrs | exact Hlen |].
  exists d, rs'. split; [exact Hg|]. split; [|exact Hused].
  eapply gatcha_result; eassumption.
Qed.

Lemma gatcha_returns_a_positive_count_witness :
  exists d rs',
    Pity.gatcha 49 (repeat missDraw 51) = Some (d, rs') /\
    1 <= d <= 98 - 49 /\
    (length rs' < length (repeat missDraw 51)
     <= length rs' + Z.to_nat (100 - 49))%nat.
Proof.
  apply (gatcha_returns_a_positive_count 49 (repeat missDraw 51)).
  - lia.
  - apply Forall_forall. intros r Hr.
    apply list_elem_of_In, repeat_spec in Hr. subst r.
    split; [discriminate | reflexivity].
  - vm_compute. lia.
Defined.

(** X26.  for a base pity of at most 97 the reward table has 100 cells that
    never decrease, its last cell is at least 1, and exactly 1 without base
    pity. *)
Theorem gacha_table_never_decreases basePity :
  0 <= basePity <= 97 ->
  length (GPUManager.buildGachaTable basePity) = 100%nat /\
  nondecreasingb (GPUManager.buildGachaTable basePity) = true /\
  (1 <= nth 99 (GPUManager.buildGachaTable basePity) 0)%Q /\
  (basePity = 0 -> nth 99 (GPUManager.buildGachaTable basePity) 0%Q = 1%Q).
Proof.
  intros Hb. split; [apply gachaTable_length|].
  split; [apply gachaTable_nondecreasing, Hb|].
  split; [apply gachaTable_last, Hb|].
  intros ->. apply gachaTable_normalised_without_basePity.
Qed.

Lemma gacha_table_never_decreases_witness :
  length (GPUManager.buildGachaTable 5) = 100%nat /\
  nondecreasingb (GPUManager.buildGachaTable 5) = true /\
  (1 <= nth 99 (GPUManager.buildGachaTable 5) 0)%Q /\
  (5 = 0 -> nth 99 (GPUManager.buildGachaTable 5) 0%Q = 1%Q).
Proof. apply (gacha_table_never_decreases 5). lia. Defined.

